(** * disasm51: instruction catalog, operand decoder, jump analysis, label naming

    A shallow embedding of [instructions.py], [utils.py] and [codeanalyzer.py].
    Python integers are [Z]; a [bytes] object is a [list byte]; a [dict] whose
    iteration order is observable is an association list in insertion order,
    the others are [gmap]s; a raised exception is a constructor of [exn]. *)

From Stdlib Require Import ZArith Ascii.
From Stdlib Require Strings.Byte.
From Stdlib Require Import Strings.String.
From stdpp Require Import gmap strings list sorting.

Open Scope Z_scope.

(** ** Exceptions and results *)

Inductive exn := IndexError | AssertionError | KeyError.

(** The result of a call: a value, a raised exception, or a loop that the
    fuel given to it did not see to its end. *)
Inductive result (A : Type) :=
| Ok (a : A)
| Raise (e : exn)
| OutOfFuel.
Arguments Ok {A} a.
Arguments Raise {A} e.
Arguments OutOfFuel {A}.

Definition bind {A B} (r : result A) (k : A -> result B) : result B :=
  match r with
  | Ok a => k a
  | Raise e => Raise e
  | OutOfFuel => OutOfFuel
  end.

Notation "'let*' x ':=' r 'in' k" := (bind r (fun x => k))
  (at level 10, x pattern, r at level 100, k at level 200).


(** ** utils.py: the printf-style formats the program uses *)

Module utils.

Definition digit_char (d : Z) : ascii :=
  if d <? 10 then ascii_of_nat (Z.to_nat (48 + d))
  else ascii_of_nat (Z.to_nat (55 + d)).

(** The digits of a natural number in [base], most significant first. *)
Fixpoint digits_aux (base : Z) (fuel : nat) (n : Z) (acc : string) : string :=
  match fuel with
  | O => acc
  | S fuel' =>
      let acc' := String (digit_char (n mod base)) acc in
      if n / base =? 0 then acc' else digits_aux base fuel' (n / base) acc'
  end.

Definition digits (base : Z) (n : Z) : string :=
  digits_aux base (S (Z.to_nat (Z.log2 n))) n EmptyString.

Fixpoint replicate_char (n : nat) (c : ascii) : string :=
  match n with
  | O => EmptyString
  | S n' => String c (replicate_char n' c)
  end.

Definition pad_left (c : ascii) (width : nat) (s : string) : string :=
  replicate_char (width - String.length s) c +:+ s.

(** ['%0wX' % x] when [zero], ['%wX' % x] otherwise (and likewise for [d]):
    the sign comes first and zeros pad between the sign and the digits. *)
Definition fmt_int (base : Z) (zero : bool) (width : nat) (x : Z) : string :=
  let body := digits base (Z.abs x) in
  if x <? 0 then
    if zero then String "-" (pad_left "0" (width - 1) body)
    else pad_left " " width (String "-" body)
  else pad_left (if zero then "0" else " ")%char width body.

Definition fmt_X (width : nat) (x : Z) : string := fmt_int 16 true width x.
Definition fmt_d (width : nat) (x : Z) : string := fmt_int 10 false width x.

Definition isdigit (c : ascii) : bool :=
  let n := Z.of_nat (nat_of_ascii c) in (48 <=? n) && (n <=? 57).

(** [int2hex]: ['%02Xh' % x], with a leading [0] when it starts with a letter
    (or a sign). *)
Definition int2hex (x : Z) : string :=
  let s := fmt_X 2 x +:+ "h" in
  match s with
  | String c _ => if isdigit c then s else String "0" s
  | EmptyString => s
  end.

(** [chr(byte).isprintable()] for a code point below 256: the controls
    (00-1F, 7F-9F), the no-break space A0 and the soft hyphen AD are not. *)
Definition isprintable (b : Z) : bool :=
  ((32 <=? b) && (b <=? 126)) || ((161 <=? b) && (b <=? 255) && negb (b =? 173)).

Definition chr (b : Z) : ascii := ascii_of_nat (Z.to_nat b).

Definition binary_hint (byte : Z) : string :=
  let s := fmt_d 3 byte in
  let s := if 128 <=? byte then s +:+ " " +:+ fmt_d 4 (byte - 256) else s in
  if isprintable byte then s +:+ " '" +:+ String (chr byte) "'" else s.

Definition tab : string := String (ascii_of_nat 9) EmptyString.
Definition newline : string := String (ascii_of_nat 10) EmptyString.

Definition binary_byte (byte pc : Z) : string :=
  tab +:+ "db " +:+ int2hex byte +:+ tab +:+ "; [" +:+ fmt_X 4 pc +:+ "h] "
      +:+ binary_hint byte.

Definition binary_word (word pc : Z) : string :=
  tab +:+ "dw " +:+ int2hex word +:+ tab +:+ "; [" +:+ fmt_X 4 pc +:+ "h]".

Definition auto_label (prefix : string) (address : Z) : string :=
  prefix +:+ "_" +:+ fmt_X 4 address.

End utils.

(** ** instructions.py *)

Inductive ArgType := IMM | DATA | BIT | LABEL | REL | ADDR.

#[global] Instance ArgType_eq_dec : EqDecision ArgType.
Proof. solve_decision. Defined.

(** [ArgType.value] *)
Definition ArgType_value (a : ArgType) : string :=
  match a with
  | IMM => "IMM" | DATA => "DATA" | BIT => "BIT"
  | LABEL => "LABEL" | REL => "REL" | ADDR => "ADDR"
  end.

Module Instruction.
Record t := mk {
  code : Z;
  length : Z;
  mnemonic : string;
  args : option (list ArgType);
  jump_out : bool;
  no_jump : bool
}.
End Instruction.

(** The constructor with its defaults: [args=None], [jump_out=False],
    [no_jump=False]. *)
Definition Instr0 (code length : Z) (mnemonic : string) : Instruction.t :=
  Instruction.mk code length mnemonic None false false.
Definition Instr (code length : Z) (mnemonic : string) (args : list ArgType)
  : Instruction.t :=
  Instruction.mk code length mnemonic (Some args) false false.
Definition InstrOut (code length : Z) (mnemonic : string) (args : option (list ArgType))
  : Instruction.t :=
  Instruction.mk code length mnemonic args true false.
Definition InstrNoJump (code length : Z) (mnemonic : string) (args : list ArgType)
  : Instruction.t :=
  Instruction.mk code length mnemonic (Some args) false true.

(** [if instr.args:] holds for a non-empty list only. *)
Definition truthy_args (a : option (list ArgType)) : list ArgType :=
  match a with
  | Some l => l
  | None => []
  end.

Module Instructions.

(** [__add]: the assertion, then the store. *)
Definition add (instruction : Instruction.t) (instructions : gmap Z Instruction.t)
  : result (gmap Z Instruction.t) :=
  match instructions !! Instruction.code instruction with
  | Some _ => Raise AssertionError
  | None => Ok (<[Instruction.code instruction := instruction]> instructions)
  end.

Fixpoint add_all (l : list Instruction.t) (instructions : gmap Z Instruction.t)
  : result (gmap Z Instruction.t) :=
  match l with
  | [] => Ok instructions
  | i :: l' => let* m := add i instructions in add_all l' m
  end.

(** The first table of [__init__]: a plain mnemonic, or a triple
    [(prefix, suffix, direct)]. *)
Definition register_table : list (Z * (string * string * bool)) :=
  [ (0x00, ("inc", "", true));
    (0x10, ("dec", "", true));
    (0x20, ("add A,", "", true));
    (0x30, ("addc A,", "", true));
    (0x40, ("orl A,", "", true));
    (0x50, ("anl A,", "", true));
    (0x60, ("xrl A,", "", true));
    (0x90, ("subb A,", "", true));
    (0xC0, ("xch A,", "", true));
    (0xD0, ("xchd A,", "", false));
    (0xE0, ("mov A,", "", true));
    (0xF0, ("mov", ", A", true)) ].

Definition range (lo hi : Z) : list Z := seqZ lo (hi - lo).

Definition register_group (e : Z * (string * string * bool)) : list Instruction.t :=
  let '(msb, (prefix, suffix, direct)) := e in
  map (fun reg => Instr0 (Z.lor msb (reg + 6)) 1
                    (prefix +:+ " @R" +:+ utils.fmt_d 0 reg +:+ suffix))
      (range 0 (1 + 1))
  ++ (if direct then
        map (fun reg => Instr0 (Z.lor msb (reg + 8)) 1
                          (prefix +:+ " R" +:+ utils.fmt_d 0 reg +:+ suffix))
            (range 0 (7 + 1))
      else []).

Definition per_register (reg : Z) : list Instruction.t :=
  let r := utils.fmt_d 0 reg in
  [ Instr (Z.lor 0x78 reg) 2 ("mov R" +:+ r +:+ ", #{0}") [IMM];
    Instr (Z.lor 0x88 reg) 2 ("mov {0}, R" +:+ r) [DATA];
    Instr (Z.lor 0xA8 reg) 2 ("mov R" +:+ r +:+ ", {0}") [DATA];
    Instr (Z.lor 0xB8 reg) 3 ("cjne R" +:+ r +:+ ", #{0}, {1}") [IMM; REL];
    Instr (Z.lor 0xD8 reg) 2 ("djnz R" +:+ r +:+ ", {0}") [REL] ].

Definition per_page (addr : Z) : list Instruction.t :=
  [ InstrOut (Z.lor 0x01 (Z.shiftl addr 5)) 2 "ajmp {0}" (Some [ADDR]);
    Instr (Z.lor 0x11 (Z.shiftl addr 5)) 2 "acall {0}" [ADDR] ].

Definition singles : list Instruction.t :=
  [ Instr0 0x00 1 "nop";
    InstrOut 0x02 3 "ljmp {0}" (Some [LABEL]);
    Instr0 0x03 1 "rr A";
    Instr0 0x04 1 "inc A";
    Instr 0x05 2 "inc {0}" [DATA];
    Instr 0x10 3 "jbc {0}, {1}" [BIT; REL];
    Instr 0x12 3 "lcall {0}" [LABEL];
    Instr0 0x13 1 "rrc A";
    Instr0 0x14 1 "dec A";
    Instr 0x15 2 "dec {0}" [DATA];
    Instr 0x20 3 "jb {0}, {1}" [BIT; REL];
    InstrOut 0x22 1 "ret" None;
    Instr0 0x23 1 "rl A";
    Instr 0x24 2 "add A, #{0}" [IMM];
    Instr 0x25 2 "add A, {0}" [DATA];
    Instr 0x30 3 "jnb {0}, {1}" [BIT; REL];
    InstrOut 0x32 1 "reti" None;
    Instr0 0x33 1 "rlc A";
    Instr 0x34 2 "addc A, #{0}" [IMM];
    Instr 0x35 2 "addc A, {0}" [DATA];
    Instr 0x40 2 "jc {0}" [REL];
    Instr 0x42 2 "orl {0}, A" [DATA];
    Instr 0x43 3 "orl {0}, #{1}" [DATA; IMM];
    Instr 0x44 2 "orl A, #{0}" [IMM];
    Instr 0x45 2 "orl A, {0}" [DATA];
    Instr 0x50 2 "jnc {0}" [REL];
    Instr 0x52 2 "anl {0}, A" [DATA];
    Instr 0x53 3 "anl {0}, #{1}" [DATA; IMM];
    Instr 0x54 2 "anl A, #{0}" [IMM];
    Instr 0x55 2 "anl A, {0}" [DATA];
    Instr 0x60 2 "jz {0}" [REL];
    Instr 0x62 2 "xrl {0}, A" [DATA];
    Instr 0x63 3 "xrl {0}, #{1}" [DATA; IMM];
    Instr 0x64 2 "xrl A, #{0}" [IMM];
    Instr 0x65 2 "xrl A, {0}" [DATA];
    Instr 0x70 2 "jnz {0}" [REL];
    Instr 0x72 2 "orl C, {0}" [BIT];
    InstrOut 0x73 1 "jmp @A + DPTR" None;
    Instr 0x74 2 "mov A, #{0}" [IMM];
    Instr 0x75 3 "mov {0}, #{1}" [DATA; IMM];
    Instr 0x76 2 "mov @R0, #{0}" [IMM];
    Instr 0x77 2 "mov @R1, #{0}" [IMM];
    InstrOut 0x80 2 "sjmp {0}" (Some [REL]);
    Instr 0x82 2 "anl C, {0}" [BIT];
    Instr0 0x83 1 "movc A, @A + PC";
    Instr0 0x84 1 "div AB";
    Instr 0x85 3 "mov {1}, {0}" [DATA; DATA];
    Instr 0x86 2 "mov {0}, @R0" [DATA];
    Instr 0x87 2 "mov {0}, @R1" [DATA];
    InstrNoJump 0x90 3 "mov DPTR, #{0}" [LABEL];
    Instr 0x92 2 "mov {0}, C" [BIT];
    Instr0 0x93 1 "movc A, @A + DPTR";
    Instr 0x94 2 "subb A, #{0}" [IMM];
    Instr 0x95 2 "subb A, {0}" [DATA];
    Instr 0xA0 2 "orl C, /{0}" [BIT];
    Instr 0xA2 2 "mov C, {0}" [BIT];
    Instr0 0xA3 1 "inc DPTR";
    Instr0 0xA4 1 "mul AB";
    Instr0 0xA5 1 "dec DPTR";
    Instr 0xA6 2 "mov @R0, {0}" [DATA];
    Instr 0xA7 2 "mov @R1, {0}" [DATA];
    Instr 0xB0 2 "anl C, /{0}" [BIT];
    Instr 0xB2 2 "cpl {0}" [BIT];
    Instr0 0xB3 1 "cpl C";
    Instr 0xB4 3 "cjne A, #{0}, {1}" [IMM; REL];
    Instr 0xB5 3 "cjne A, {0}, {1}" [DATA; REL];
    Instr 0xB6 3 "cjne @R0, #{0}, {1}" [IMM; REL];
    Instr 0xB7 3 "cjne @R1, #{0}, {1}" [IMM; REL];
    Instr 0xC0 2 "push {0}" [DATA];
    Instr 0xC2 2 "clr {0}" [BIT];
    Instr0 0xC3 1 "clr C";
    Instr0 0xC4 1 "swap A";
    Instr 0xC5 2 "xch A, {0}" [DATA];
    Instr 0xD0 2 "pop {0}" [DATA];
    Instr 0xD2 2 "setb {0}" [BIT];
    Instr0 0xD3 1 "setb C";
    Instr0 0xD4 1 "da A";
    Instr 0xD5 3 "djnz {0}, {1}" [DATA; REL];
    Instr0 0xE0 1 "movx A, @DPTR";
    Instr0 0xE2 1 "movx A, @R0";
    Instr0 0xE3 1 "movx A, @R1";
    Instr0 0xE4 1 "clr A";
    Instr 0xE5 2 "mov A, {0}" [DATA];
    Instr0 0xF0 1 "movx @DPTR, A";
    Instr0 0xF2 1 "movx @R0, A";
    Instr0 0xF3 1 "movx @R1, A";
    Instr0 0xF4 1 "cpl A";
    Instr 0xF5 2 "mov {0}, A" [DATA] ].

(** Every [__add] call of [__init__], in program order. *)
Definition added : list Instruction.t :=
  concat (map register_group register_table)
  ++ concat (map per_register (range 0 (7 + 1)))
  ++ concat (map per_page (range 0 8))
  ++ singles.

(** The closing loop: [assert code in self.instructions] for each code. *)
Fixpoint assert_complete (codes : list Z) (instructions : gmap Z Instruction.t)
  : result unit :=
  match codes with
  | [] => Ok tt
  | c :: codes' =>
      match instructions !! c with
      | Some _ => assert_complete codes' instructions
      | None => Raise AssertionError
      end
  end.

(** [Instructions.__init__] *)
Definition init : result (gmap Z Instruction.t) :=
  let* m := add_all added ∅ in
  let* _ := assert_complete (range 0 0x100) m in
  Ok m.

End Instructions.

(** [Instructions()] takes no argument, so every instance holds this table;
    [self.instructions] of a [CodeAnalyzer] is one of them. *)
Definition catalog : gmap Z Instruction.t :=
  match Instructions.init with
  | Ok m => m
  | _ => ∅
  end.

(** ** addresses.py: the four scopes of the symbol table *)

Module Addresses.
Record t := mk {
  CODE : gmap Z string;
  DATA : gmap Z string;
  BIT : gmap Z string;
  LABEL : gmap Z string
}.

(** [__init__] *)
Definition init : t := mk ∅ ∅ ∅ ∅.

(** [__getitem__]; [None] is the [KeyError] of [self.addr[scope]]. *)
Definition getitem (self : t) (scope : string) : option (gmap Z string) :=
  if String.eqb scope "CODE" then Some (CODE self)
  else if String.eqb scope "DATA" then Some (DATA self)
  else if String.eqb scope "BIT" then Some (BIT self)
  else if String.eqb scope "LABEL" then Some (LABEL self)
  else None.

(** [scope in self.addresses], through [__iter__]. *)
Definition contains (self : t) (scope : string) : bool :=
  bool_decide (is_Some (getitem self scope)).

Definition set_LABEL (self : t) (m : gmap Z string) : t :=
  mk (CODE self) (DATA self) (BIT self) m.
End Addresses.

(** ** codeanalyzer.py *)

Module LabelType.
Inductive t := JUMP | DPTR | ADDR.

Definition value (l : t) : string :=
  match l with
  | JUMP => "jump"
  | DPTR => "dptr"
  | ADDR => "addr"
  end.
End LabelType.

#[global] Instance LabelType_eq_dec : EqDecision LabelType.t.
Proof. solve_decision. Defined.

(** *** [bytes] and insertion-ordered [dict] *)

Definition len (rom : list Byte.byte) : Z := Z.of_nat (length rom).

Definition byte_val (b : Byte.byte) : Z := Z.of_N (Byte.to_N b).

(** [rom[i]]: a negative index counts from the end; outside
    [-len(rom) .. len(rom)-1] it raises. *)
Definition getitem (rom : list Byte.byte) (i : Z) : result Z :=
  let j := if i <? 0 then i + len rom else i in
  if (j <? 0) || (len rom <=? j) then Raise IndexError
  else match rom !! Z.to_nat j with
       | Some b => Ok (byte_val b)
       | None => Raise IndexError
       end.

Section dict.
Context {V : Type}.

(** [d.get(k)] *)
Fixpoint dict_get (k : Z) (d : list (Z * V)) : option V :=
  match d with
  | [] => None
  | (k', v) :: d' => if k =? k' then Some v else dict_get k d'
  end.

(** [k in d] *)
Definition dict_mem (k : Z) (d : list (Z * V)) : bool :=
  match dict_get k d with
  | Some _ => true
  | None => false
  end.

(** [d[k] = v]: a present key keeps its place, a new one goes last. *)
Fixpoint dict_set (k : Z) (v : V) (d : list (Z * V)) : list (Z * V) :=
  match d with
  | [] => [(k, v)]
  | (k', v') :: d' => if k =? k' then (k', v) :: d' else (k', v') :: dict_set k v d'
  end.
End dict.

(** [s.add(x)] on a set kept in insertion order. *)
Definition set_add (x : Z) (s : list Z) : list Z :=
  if bool_decide (x ∈ s) then s else s ++ [x].

(** The order in which a [set] is iterated is not fixed by the language: any
    enumeration of the elements may come out. *)
Module SetOrder.
Record t := mk {
  iter : list Z -> list Z;
  iter_perm : forall l, iter l ≡ₚ l
}.
End SetOrder.

(** *** [InstrArgsAnalyzer] *)

Module InstrArgsAnalyzer.
Record t := mk {
  rom : list Byte.byte;
  pc : Z;       (* points to the opcode *)
  pc_rel : Z;   (* points to the beginning of the next instruction *)
  offset : Z;
  pc_arg : Z    (* the cursor *)
}.

Definition init (rom : list Byte.byte) (pc pc_rel offset : Z) : t :=
  mk rom pc pc_rel offset (pc + 1).

Definition set_pc_arg (self : t) (v : Z) : t :=
  mk (rom self) (pc self) (pc_rel self) (offset self) v.

(** [next_arg]: the analyzer after the call, and [Ok None] for [return None]. *)
Definition next_arg (self : t) (arg : ArgType)
  : t * result (option (ArgType * Z * string)) :=
  if len (rom self) <=? pc self then (self, Ok None)
  else
    match getitem (rom self) (pc_arg self) with
    | Ok val =>
        let self := set_pc_arg self (pc_arg self + 1) in
        match arg with
        | LABEL =>
            if len (rom self) <=? pc_arg self then (self, Ok None)
            else
              match getitem (rom self) (pc_arg self) with
              | Ok lo =>
                  (set_pc_arg self (pc_arg self + 1),
                   Ok (Some (LABEL, Z.lor (Z.shiftl val 8) lo - offset self, "")))
              | Raise e => (self, Raise e)
              | OutOfFuel => (self, OutOfFuel)
              end
        | ADDR =>
            match getitem (rom self) (pc self) with
            | Ok opcode =>
                (self,
                 Ok (Some (LABEL,
                           Z.lor (Z.lor (Z.land (pc_rel self) 0xF800) val)
                                 (Z.land (Z.shiftl opcode 3) 0x700),
                           "")))
            | Raise e => (self, Raise e)
            | OutOfFuel => (self, OutOfFuel)
            end
        | REL =>
            let val := if 0x80 <=? val then val - 0x100 else val in
            let val := pc_rel self + val in
            if val <? 0 then (self, Ok None)
            else (self, Ok (Some (LABEL, val, "")))
        | IMM => (self, Ok (Some (IMM, val, utils.binary_hint val)))
        | _ => (self, Ok (Some (arg, val, "")))
        end
    | Raise e => (self, Raise e)
    | OutOfFuel => (self, OutOfFuel)
    end.
End InstrArgsAnalyzer.

(** *** [CodeAnalyzer] *)

(** [str.format] on the unpacked [args] for the templates of the catalog: a field is
    [{d}] with one decimal digit; [None] is the [IndexError] of a missing
    argument. *)
Fixpoint format (template : string) (args : list string) : option string :=
  match template with
  | EmptyString => Some EmptyString
  | String c rest =>
      match c, rest with
      | "{"%char, String d (String "}" rest') =>
          if utils.isdigit d then
            match args !! (nat_of_ascii d - 48)%nat, format rest' args with
            | Some a, Some r => Some (a +:+ r)
            | _, _ => None
            end
          else option_map (String c) (format rest args)
      | _, _ => option_map (String c) (format rest args)
      end
  end.

Module CodeAnalyzer.
Record t := mk {
  rom : list Byte.byte;
  addresses : Addresses.t;
  offset : Z;
  all_is_code : bool;
  labels : list (Z * LabelType.t);   (* key=address, value=type of label *)
  forwards : gmap Z Z;               (* key=from, value=to *)
  SFR_warnings : gset Z;
  no_return_from : gset Z;
  stdout : list string;              (* the lines printed so far *)
  stderr : list string
}.

Definition set_addresses (self : t) (a : Addresses.t) : t :=
  mk (rom self) a (offset self) (all_is_code self) (labels self) (forwards self)
     (SFR_warnings self) (no_return_from self) (stdout self) (stderr self).
Definition set_labels (self : t) (l : list (Z * LabelType.t)) : t :=
  mk (rom self) (addresses self) (offset self) (all_is_code self) l (forwards self)
     (SFR_warnings self) (no_return_from self) (stdout self) (stderr self).
Definition set_forwards (self : t) (f : gmap Z Z) : t :=
  mk (rom self) (addresses self) (offset self) (all_is_code self) (labels self) f
     (SFR_warnings self) (no_return_from self) (stdout self) (stderr self).
Definition set_SFR_warnings (self : t) (w : gset Z) : t :=
  mk (rom self) (addresses self) (offset self) (all_is_code self) (labels self)
     (forwards self) w (no_return_from self) (stdout self) (stderr self).
Definition print (self : t) (line : string) : t :=
  mk (rom self) (addresses self) (offset self) (all_is_code self) (labels self)
     (forwards self) (SFR_warnings self) (no_return_from self)
     (stdout self ++ [line]) (stderr self).
Definition print_err (self : t) (line : string) : t :=
  mk (rom self) (addresses self) (offset self) (all_is_code self) (labels self)
     (forwards self) (SFR_warnings self) (no_return_from self)
     (stdout self) (stderr self ++ [line]).

(** [__init__]; [indirect] and [no_return_from] in the order they are
    iterated. *)
Definition init (rom : list Byte.byte) (addresses : Addresses.t) (offset : Z)
    (all_is_code : bool) (no_return_from : list Z) (indirect : list Z) : t :=
  mk rom addresses offset all_is_code
     (foldl (fun labels address => dict_set address LabelType.ADDR labels) [] indirect)
     ∅ ∅
     (foldl (fun s address => {[address]} ∪ s) ∅ no_return_from)
     [] [].

(** **** [analyze_jumps] *)

(** The body of the [for] loop after a successful [next_arg]: the analyzer,
    the local set [jumps] and the local flag [jump_out]. *)
Definition classify (instr : Instruction.t) (pc start : Z) (arg : ArgType) (val : Z)
    (st : t * list Z * bool) : t * list Z * bool :=
  let '(self, jumps, jump_out) := st in
  if bool_decide (arg = LABEL) && negb (val =? pc) then
    let '(ltype, self, jump_out) :=
      if Instruction.no_jump instr then (LabelType.DPTR, self, jump_out)
      else
        (LabelType.JUMP,
         (if (pc =? start) && Instruction.jump_out instr
          then set_forwards self (<[pc := val]> (forwards self)) else self),
         (if bool_decide (val ∈ no_return_from self) then true else jump_out)) in
    if dict_mem val (labels self) then (self, jumps, jump_out)
    else
      (set_labels self (dict_set val ltype (labels self)),
       (if bool_decide (ltype = LabelType.JUMP) then set_add val jumps else jumps),
       jump_out)
  else st.

(** The [for iarg in instr.args] loop; [Ok tt] also when it is left by
    [break]. *)
Fixpoint analyze_args (instr : Instruction.t) (pc start : Z)
    (analyzer : InstrArgsAnalyzer.t) (iargs : list ArgType)
    (st : t * list Z * bool) : (t * list Z * bool) * result unit :=
  match iargs with
  | [] => (st, Ok tt)
  | iarg :: iargs' =>
      match InstrArgsAnalyzer.next_arg analyzer iarg with
      | (analyzer', Ok (Some (arg, val, hint))) =>
          analyze_args instr pc start analyzer' iargs' (classify instr pc start arg val st)
      | (_, Ok None) => (st, Ok tt)
      | (_, Raise e) => (st, Raise e)
      | (_, OutOfFuel) => (st, OutOfFuel)
      end
  end.

(** One turn of the [while] loop for the instruction at [pc]: the state after
    it, and the next [pc] with the final [jump_out]. *)
Definition analyze_instr (instr : Instruction.t) (pc start : Z) (force : bool)
    (self : t) (jumps : list Z) : (t * list Z) * result (Z * bool) :=
  let jump_out := Instruction.jump_out instr && negb force in
  let '((self, jumps, jump_out), r) :=
    match truthy_args (Instruction.args instr) with
    | [] => ((self, jumps, jump_out), Ok tt)
    | iargs =>
        analyze_args instr pc start
          (InstrArgsAnalyzer.init (rom self) pc (pc + Instruction.length instr) (offset self))
          iargs (self, jumps, jump_out)
    end in
  ((self, jumps), let* _ := r in Ok (pc + Instruction.length instr, jump_out)).

(** The [while pc < len(self.rom)] loop. *)
Fixpoint analyze_loop (fuel : nat) (start pc : Z) (force : bool)
    (self : t) (jumps : list Z) : (t * list Z) * result Z :=
  match fuel with
  | O => ((self, jumps), OutOfFuel)
  | S fuel' =>
      if pc <? len (rom self) then
        match getitem (rom self) pc with
        | Ok code =>
            match catalog !! code with
            | Some instr =>
                match analyze_instr instr pc start force self jumps with
                | ((self, jumps), Ok (pc, jump_out)) =>
                    if jump_out then ((self, jumps), Ok pc)
                    else analyze_loop fuel' start pc force self jumps
                | ((self, jumps), Raise e) => ((self, jumps), Raise e)
                | ((self, jumps), OutOfFuel) => ((self, jumps), OutOfFuel)
                end
            | None => ((self, jumps), Ok pc)
            end
        | Raise e => ((self, jumps), Raise e)
        | OutOfFuel => ((self, jumps), OutOfFuel)
        end
      else ((self, jumps), Ok pc)
  end.

(** [analyze_jumps]: the analyzer and the caller's queue after the call, and
    the returned address. [entry_queue += jumps] is reached only when the
    loop is left without an exception. Every turn of the loop moves [pc]
    forward, so [len(rom) - start] turns and one more test are enough. *)
Definition analyze_jumps (order : SetOrder.t) (self : t) (start : Z)
    (entry_queue : list Z) (force : bool) : (t * list Z) * result Z :=
  match analyze_loop (S (Z.to_nat (len (rom self) - start))) start start force self [] with
  | ((self, jumps), Ok pc) => ((self, entry_queue ++ SetOrder.iter order jumps), Ok pc)
  | ((self, _), r) => ((self, entry_queue), r)
  end.

(** **** [give_auto_labels] *)

Definition auto_name (self : t) (address : Z) (jump : LabelType.t) : string :=
  match forwards self !! address with
  | Some fwd =>
      let label :=
        match Addresses.LABEL (addresses self) !! fwd with
        | Some known => known
        | None => utils.auto_label (LabelType.value jump) fwd
        end in
      ("fwd_" +:+ utils.fmt_X 4 address +:+ "_") +:+ label
  | None => utils.auto_label (LabelType.value jump) address
  end.

(** The body of the loop over [self.labels.items()]. *)
Definition give_auto_label (self : t) (item : Z * LabelType.t) : t :=
  let '(address, jump) := item in
  match Addresses.LABEL (addresses self) !! address with
  | Some _ => self
  | None =>
      set_addresses self
        (Addresses.set_LABEL (addresses self)
           (<[address := auto_name self address jump]> (Addresses.LABEL (addresses self))))
  end.

Definition give_auto_labels (self : t) : t :=
  foldl give_auto_label self (labels self).

(** **** [__disassemble_instruction] and [disassemble_code_block] *)

(** [self.addresses[arg.value]] *)
Definition scope (self : t) (arg : ArgType) : result (gmap Z string) :=
  match Addresses.getitem (addresses self) (ArgType_value arg) with
  | Some m => Ok m
  | None => Raise KeyError
  end.

(** A bit address without a name becomes a byte address and a bit number. *)
Definition reduce_bit (self : t) (arg : ArgType) (val : Z)
  : result (ArgType * Z * string) :=
  if bool_decide (arg = BIT) then
    let* m := scope self arg in
    match m !! val with
    | None =>
        Ok (DATA,
            (if 0x80 <=? val then Z.land val 0xF8 else Z.lor 0x20 (Z.shiftr val 3)),
            "." +:+ utils.fmt_d 0 (Z.land val 7))
    | Some _ => Ok (arg, val, "")
    end
  else Ok (arg, val, "").

(** Whether the unknown-SFR warning is due. *)
Definition unknown_SFR (self : t) (arg : ArgType) (val : Z) : result bool :=
  if bool_decide (arg = DATA) && (0x80 <=? val)
     && negb (bool_decide (val ∈ SFR_warnings self)) then
    let* m := scope self arg in
    Ok (bool_decide (m !! val = None))
  else Ok false.

(** The text of a value: the self-jump mark, a known name, or hexadecimal. *)
Definition valstr (self : t) (pc : Z) (arg : ArgType) (val : Z) : string :=
  if bool_decide (arg = LABEL) && (val =? pc) then "$"
  else
    match Addresses.getitem (addresses self) (ArgType_value arg) with
    | Some m =>
        match m !! val with
        | Some name => name
        | None => utils.int2hex val
        end
    | None => utils.int2hex val
    end.

(** The body of the [for] loop after a successful [next_arg]: the text
    appended to [args]. *)
Definition render_arg (self : t) (pc : Z) (arg : ArgType) (val : Z)
  : t * result string :=
  match reduce_bit self arg val with
  | Ok (arg, val, suffix) =>
      match unknown_SFR self arg val with
      | Ok warn =>
          let self :=
            if warn then
              set_SFR_warnings
                (print_err self ("warning: unknown SFR " +:+ utils.int2hex val))
                ({[val]} ∪ SFR_warnings self)
            else self in
          (self, Ok (valstr self pc arg val +:+ suffix))
      | Raise e => (self, Raise e)
      | OutOfFuel => (self, OutOfFuel)
      end
  | Raise e => (self, Raise e)
  | OutOfFuel => (self, OutOfFuel)
  end.

(** The [for iarg in instr.args] loop; [Ok None] is its [return None]. *)
Fixpoint disassemble_args (pc : Z) (analyzer : InstrArgsAnalyzer.t)
    (iargs : list ArgType) (self : t) (args : list string) (hints : string)
  : t * result (option (list string * string)) :=
  match iargs with
  | [] => (self, Ok (Some (args, hints)))
  | iarg :: iargs' =>
      match InstrArgsAnalyzer.next_arg analyzer iarg with
      | (analyzer', Ok (Some (arg, val, hint))) =>
          match render_arg self pc arg val with
          | (self, Ok text) =>
              disassemble_args pc analyzer' iargs' self (args ++ [text]) (hints +:+ hint)
          | (self, Raise e) => (self, Raise e)
          | (self, OutOfFuel) => (self, OutOfFuel)
          end
      | (_, Ok None) => (self, Ok None)
      | (_, Raise e) => (self, Raise e)
      | (_, OutOfFuel) => (self, OutOfFuel)
      end
  end.

(** The text of the operands substituted in the mnemonic. *)
Definition disassemble_operands (instr : Instruction.t) (pc : Z) (self : t)
  : t * result (option string) :=
  match truthy_args (Instruction.args instr) with
  | [] => (self, Ok (Some (Instruction.mnemonic instr)))
  | iargs =>
      match
        disassemble_args pc
          (InstrArgsAnalyzer.init (rom self) pc (pc + Instruction.length instr) (offset self))
          iargs self [] ""
      with
      | (self, Ok (Some (args, hints))) =>
          if bool_decide (length args ≠ length iargs) then (self, Ok None)
          else
            match format (Instruction.mnemonic instr) args with
            | Some result =>
                (self,
                 Ok (Some (if bool_decide (hints = "") then result
                           else result +:+ utils.tab +:+ "; " +:+ hints)))
            | None => (self, Raise IndexError)
            end
      | (self, Ok None) => (self, Ok None)
      | (self, Raise e) => (self, Raise e)
      | (self, OutOfFuel) => (self, OutOfFuel)
      end
  end.

(** [__disassemble_instruction] *)
Definition disassemble_instruction (self : t) (pc : Z)
  : t * result (option (string * Z)) :=
  if len (rom self) <=? pc then (self, Ok None)
  else
    match getitem (rom self) pc with
    | Ok code =>
        match catalog !! code with
        | Some instr =>
            match disassemble_operands instr pc self with
            | (self, Ok (Some result)) =>
                let result :=
                  if Instruction.jump_out instr then result +:+ utils.newline
                  else result in
                (self, Ok (Some (utils.tab +:+ result, Instruction.length instr)))
            | (self, Ok None) => (self, Ok None)
            | (self, Raise e) => (self, Raise e)
            | (self, OutOfFuel) => (self, OutOfFuel)
            end
        | None => (self, Ok None)
        end
    | Raise e => (self, Raise e)
    | OutOfFuel => (self, OutOfFuel)
    end.

(** [maybe_print_org_label] *)
Definition maybe_print_org_label (self : t) (pc : Z) (force_org just_started : bool)
  : t * bool :=
  let known := Addresses.LABEL (addresses self) !! pc in
  let '(self, org) :=
    match Addresses.CODE (addresses self) !! pc with
    | Some name => (print self (utils.newline +:+ "org" +:+ utils.tab +:+ name), true)
    | None =>
        if force_org then
          (print self (utils.newline +:+ "org" +:+ utils.tab +:+ utils.int2hex pc), true)
        else if just_started && bool_decide (known = None) then
          (print self (";org" +:+ utils.tab +:+ utils.int2hex pc), false)
        else (self, false)
    end in
  match known with
  | Some name => (print self (name +:+ ":"), org)
  | None => (self, org)
  end.

(** The [while pc < end] loop of [disassemble_code_block]. *)
Fixpoint disassemble_loop (fuel : nat) (self : t) (start pc end_ : Z) (force_org : bool)
  : t * result Z :=
  match fuel with
  | O => (self, OutOfFuel)
  | S fuel' =>
      if pc <? end_ then
        let '(self, org) := maybe_print_org_label self pc force_org (pc =? start) in
        let force_org := if org then false else force_org in
        match disassemble_instruction self pc with
        | (self, Ok (Some (result, length))) =>
            disassemble_loop fuel' (print self result) start (pc + length) end_ force_org
        | (self, Ok None) =>
            (* cannot disassemble -> dump binary byte *)
            match getitem (rom self) pc with
            | Ok byte =>
                disassemble_loop fuel' (print self (utils.binary_byte byte pc))
                  start (pc + 1) end_ force_org
            | Raise e => (self, Raise e)
            | OutOfFuel => (self, OutOfFuel)
            end
        | (self, Raise e) => (self, Raise e)
        | (self, OutOfFuel) => (self, OutOfFuel)
        end
      else (self, Ok pc)
  end.

(** [disassemble_code_block]; each turn moves [pc] forward. *)
Definition disassemble_code_block (self : t) (start end_ : Z) (force_org : bool)
  : t * result Z :=
  disassemble_loop (S (Z.to_nat (end_ - start))) self start start end_ force_org.

(** **** [dump_binary_block] *)

(** The truth value of [result]: a line that is not empty. *)
Definition truthy (res : option string) : bool :=
  match res with
  | Some (String _ _) => true
  | _ => false
  end.

(** The first [if] of the loop body: the line for the address [pc], if any,
    and the number of bytes it takes. A word is dumped at an [ADDR] label
    with two bytes left in the block; a byte [0xff] gives no line. *)
Definition dump_item (self : t) (pc end_ : Z) : result (option string * Z) :=
  if (pc + 1 <? end_) && dict_mem pc (labels self)
     && bool_decide (dict_get pc (labels self) = Some LabelType.ADDR) then
    let* hi := getitem (rom self) pc in
    let* lo := getitem (rom self) (pc + 1) in
    Ok (Some (utils.binary_word (Z.lor (Z.shiftl hi 8) lo) pc), 2)
  else
    let* byte := getitem (rom self) pc in
    if negb (byte =? 0xff) then
      let* byte := getitem (rom self) pc in
      Ok (Some (utils.binary_byte byte pc), 1)
    else Ok (None, 1).

(** The [while pc < end] loop of [dump_binary_block]. *)
Fixpoint dump_loop (fuel : nat) (self : t) (start pc done_to end_ : Z) (force_org : bool)
  : t * result Z :=
  match fuel with
  | O => (self, OutOfFuel)
  | S fuel' =>
      if pc <? end_ then
        match dump_item self pc end_ with
        | Ok (res, length) =>
            let '(self, force_org) :=
              if truthy res || dict_mem pc (labels self) then
                let '(self, org) :=
                  maybe_print_org_label self pc (force_org || negb (pc =? done_to))
                    (pc =? start) in
                (self, if org then false else force_org)
              else (self, force_org) in
            let '(self, done_to) :=
              match res with
              | Some line =>
                  if truthy res then (print self line, pc + length) else (self, done_to)
              | None => (self, done_to)
              end in
            dump_loop fuel' self start (pc + length) done_to end_ force_org
        | Raise e => (self, Raise e)
        | OutOfFuel => (self, OutOfFuel)
        end
      else (self, Ok done_to)
  end.

(** [dump_binary_block]; each turn moves [pc] forward. *)
Definition dump_binary_block (self : t) (start end_ : Z) (force_org : bool)
  : t * result Z :=
  dump_loop (S (Z.to_nat (end_ - start))) self start start start end_ force_org.

End CodeAnalyzer.

(** * Notions used to state the properties *)

Section notions.
Import CodeAnalyzer.

(** ** The operand decoder run over an operand list *)

(** What both [for iarg in instr.args] loops do with the decoder: call
    [next_arg] for each operand in order and stop at the first that is not
    decoded. [decode_prefix] lists the operands decoded before that. *)
Fixpoint decode_prefix (analyzer : InstrArgsAnalyzer.t) (iargs : list ArgType)
  : list (ArgType * Z * string) :=
  match iargs with
  | [] => []
  | iarg :: iargs' =>
      match InstrArgsAnalyzer.next_arg analyzer iarg with
      | (analyzer', Ok (Some v)) => v :: decode_prefix analyzer' iargs'
      | _ => []
      end
  end.

(** The decoder after the loop, and how the loop ended: [Ok true] when every
    operand was decoded, [Ok false] when [next_arg] returned [None]. *)
Fixpoint decode_all (analyzer : InstrArgsAnalyzer.t) (iargs : list ArgType)
  : InstrArgsAnalyzer.t * result bool :=
  match iargs with
  | [] => (analyzer, Ok true)
  | iarg :: iargs' =>
      match InstrArgsAnalyzer.next_arg analyzer iarg with
      | (analyzer', Ok (Some _)) => decode_all analyzer' iargs'
      | (analyzer', Ok None) => (analyzer', Ok false)
      | (analyzer', Raise e) => (analyzer', Raise e)
      | (analyzer', OutOfFuel) => (analyzer', OutOfFuel)
      end
  end.

(** The decoder of the instruction [instr] placed at [pc]. *)
Definition decoder_at (rom : list Byte.byte) (offset pc : Z) (instr : Instruction.t)
  : InstrArgsAnalyzer.t :=
  InstrArgsAnalyzer.init rom pc (pc + Instruction.length instr) offset.

(** The bytes of an operand: two for [LABEL], one for every other kind. *)
Definition operand_bytes (a : ArgType) : Z :=
  match a with
  | LABEL => 2
  | _ => 1
  end.

Definition operands_bytes (l : list ArgType) : Z :=
  foldr (fun a n => operand_bytes a + n) 0 l.

(** The kinds that [next_arg] resolves to [LABEL]. *)
Definition is_label_kind (a : ArgType) : bool :=
  match a with
  | LABEL | REL | ADDR => true
  | _ => false
  end.

(** An operand that resolves to a label is the last operand of its
    instruction. *)
Definition label_last (l : list ArgType) : bool :=
  forallb (fun a => negb (is_label_kind a)) (removelast l).

(** The ROM of the example: [ajmp] (opcode 01) at 0100h with operand 34h. *)
Definition page_jump_rom : list Byte.byte :=
  replicate 256 Byte.x00 ++ [Byte.x01; Byte.x34].

(** One iteration order: ascending. A CPython set of distinct integers from 0
    to 7 (one per slot of its smallest table) is iterated this way; it is used
    on such sets only, where a concrete order is needed. *)
Definition ascending : SetOrder.t :=
  SetOrder.mk (merge_sort Z.le) (merge_sort_Permutation Z.le).

Definition keys (d : list (Z * LabelType.t)) : list Z := d.*1.

(** The addresses classified [JUMP], in the order of the table. *)
Definition jump_keys (d : list (Z * LabelType.t)) : list Z :=
  (filter (fun p => p.2 = LabelType.JUMP) d).*1.

(** A scan writes the label table and the forwarding table only. *)
Definition frame (s s' : t) : Prop :=
  rom s' = rom s /\ addresses s' = addresses s /\ offset s' = offset s /\
  all_is_code s' = all_is_code s /\ SFR_warnings s' = SFR_warnings s /\
  no_return_from s' = no_return_from s /\ stdout s' = stdout s /\
  stderr s' = stderr s.

(** From [(s, jumps)] to [(s', jumps')]: entries were appended to the label
    table, under addresses that were not in it and that satisfy [P]; [jumps]
    received those classified [JUMP], in the same order. *)
Definition grows (P : Z -> Prop) (s : t) (jumps : list Z) (s' : t) (jumps' : list Z)
  : Prop :=
  frame s s' /\
  exists news,
    labels s' = labels s ++ news /\
    jumps' = jumps ++ jump_keys news /\
    NoDup (keys news) /\
    forall k, k ∈ keys news -> (k ∉ keys (labels s)) /\ P k.

(** The local set holds addresses of the label table only. *)
Definition jumps_in (s : t) (jumps : list Z) : Prop :=
  forall j, j ∈ jumps -> j ∈ keys (labels s).

(** The operands decoded at [pc], up to the first that is not. *)
Definition decoded_at (rom : list Byte.byte) (offset pc : Z)
  : list (ArgType * Z * string) :=
  match getitem rom pc with
  | Ok code =>
      match catalog !! code with
      | Some instr =>
          decode_prefix (decoder_at rom offset pc instr)
            (truthy_args (Instruction.args instr))
      | None => []
      end
  | _ => []
  end.

(** [P] holds of every address a scan of this ROM can classify. *)
Definition covers (P : Z -> Prop) (rom : list Byte.byte) (offset : Z) : Prop :=
  forall pc val hint,
    (LABEL, val, hint) ∈ decoded_at rom offset pc -> val <> pc -> P val.

(** What [analyze_jumps] does: the label table has new entries at its end,
    under addresses that were not in it; when the call returns, the queue
    has received those classified [JUMP], in the order of the set; when it
    raises, the queue is as it was. The loop always comes to its end. *)
Definition scan_post (P : Z -> Prop) (order : SetOrder.t) (s : t) (queue : list Z)
    (s' : t) (queue' : list Z) (r : result Z) : Prop :=
  frame s s' /\ r <> OutOfFuel /\
  exists news,
    labels s' = labels s ++ news /\
    NoDup (keys news) /\
    (forall k, k ∈ keys news -> (k ∉ keys (labels s)) /\ P k) /\
    queue' = match r with
             | Ok _ => queue ++ SetOrder.iter order (jump_keys news)
             | _ => queue
             end.

(** The scan of the counterexample: [jnz] with a target before address 0,
    then [ljmp 1234h]. *)
Definition failed_jnz_rom : list Byte.byte :=
  [Byte.x70; Byte.x80; Byte.x02; Byte.x12; Byte.x34].

(** A sequence of calls [(start, force)] of [analyze_jumps] on one analyzer
    and one queue, whatever each call returns or raises. *)
Fixpoint scan_calls (order : SetOrder.t) (calls : list (Z * bool))
    (self : CodeAnalyzer.t) (queue : list Z) : CodeAnalyzer.t * list Z :=
  match calls with
  | [] => (self, queue)
  | (start, force) :: calls' =>
      let '((self', queue'), _) := CodeAnalyzer.analyze_jumps order self start queue force in
      scan_calls order calls' self' queue'
  end.

(** Two calls, to 5 and then to 4. *)
Definition two_calls_rom : list Byte.byte :=
  [Byte.x12; Byte.x00; Byte.x05; Byte.x12; Byte.x00; Byte.x04; Byte.x22].

Definition names (s : t) : gmap Z string := Addresses.LABEL (addresses s).

(** A chain of two trampolines: [lcall 3], and at 3 [ljmp 6], at 6 [ljmp 9],
    at 9 [ret]. *)
Definition chain_rom : list Byte.byte :=
  [Byte.x12; Byte.x00; Byte.x03; Byte.x02; Byte.x00; Byte.x06;
   Byte.x02; Byte.x00; Byte.x09; Byte.x22].

Definition chain_named : CodeAnalyzer.t :=
  CodeAnalyzer.give_auto_labels
    (scan_calls ascending [(0, false); (3, false); (6, false); (9, false)]
       (CodeAnalyzer.init chain_rom Addresses.init 0 false [] []) []).1.

(** Modelled from the spec: the driver that owns the entry queue is not among
    the sources. The caller seeds the queue with the known code-segment
    starts, repeatedly pops one address and calls the scan, which appends to
    the queue, until the queue is empty. [pick] says which position is
    popped ([pop()] and [pop(0)] are two choices); [log] records, in order,
    every address the scans appended to the queue. *)
Fixpoint worklist (order : SetOrder.t) (pick : list Z -> nat) (fuel : nat)
    (self : CodeAnalyzer.t) (queue : list Z) (log : list Z)
  : (CodeAnalyzer.t * list Z) * result unit :=
  match fuel with
  | O => ((self, log), OutOfFuel)
  | S fuel' =>
      match queue with
      | [] => ((self, log), Ok tt)
      | _ =>
          match queue !! pick queue with
          | None => ((self, log), Raise IndexError)
          | Some start =>
              let rest := delete (pick queue) queue in
              match CodeAnalyzer.analyze_jumps order self start rest false with
              | ((self', queue'), Ok _) =>
                  worklist order pick fuel' self' queue' (log ++ drop (length rest) queue')
              | ((self', _), Raise e) => ((self', log), Raise e)
              | ((self', _), OutOfFuel) => ((self', log), OutOfFuel)
              end
          end
      end
  end.

(** The values of the operands resolved to a label. *)
Definition label_vals (vs : list (ArgType * Z * string)) : list Z :=
  omap (fun v => if decide (v.1.1 = LABEL) then Some v.1.2 else None) vs.

(** Every address an instruction of the ROM can refer to, over all the
    positions at which an opcode can be read. *)
Definition targets (rom : list Byte.byte) (offset : Z) : list Z :=
  seqZ (- len rom) (2 * len rom) ≫= (fun pc => label_vals (decoded_at rom offset pc)).

Definition is_target (rom : list Byte.byte) (offset : Z) (k : Z) : Prop :=
  k ∈ targets rom offset.

(** The targets not yet in the label table. *)
Definition pending (s : t) : nat :=
  size ((list_to_set (targets (rom s) (offset s)) : gset Z)
          ∖ list_to_set (keys (labels s))).

(** A pointer load and three indirect targets in a ROM of three bytes. *)
Definition pointer_rom : list Byte.byte := [Byte.x90; Byte.x00; Byte.x10].

(** The forwarding table changes at [start] only, and a new target is in the
    label table. *)
Definition forwards_at (start : Z) (s s' : t) : Prop :=
  (forall k, k ∈ keys (labels s) -> k ∈ keys (labels s')) /\
  (forall k, k <> start -> forwards s' !! k = forwards s !! k) /\
  (forall target, forwards s' !! start = Some target ->
     forwards s !! start = Some target \/
     (target <> start /\ target ∈ keys (labels s'))).

(** ** Rendering *)

(** The line [__disassemble_instruction] prints on [stderr] for an unknown
    SFR. *)
Definition warning_line (v : Z) : string :=
  "warning: unknown SFR " +:+ utils.int2hex v.

(** From [s] to [s'] by rendering: the analysis tables, the ROM and the
    symbol table are as they were; lines were appended to [stdout]; each
    address of [warned], none twice, was not in the warning set, is in it
    now, and has its warning line on [stderr], in that order. *)
Definition renders (s s' : t) : Prop :=
  rom s' = rom s /\ addresses s' = addresses s /\ offset s' = offset s /\
  all_is_code s' = all_is_code s /\ labels s' = labels s /\
  forwards s' = forwards s /\ no_return_from s' = no_return_from s /\
  (exists lines, stdout s' = stdout s ++ lines) /\
  exists warned,
    NoDup warned /\
    (forall v, v ∈ warned ->
       (v ∉ SFR_warnings s) /\ 0x80 <= v /\
       Addresses.DATA (addresses s) !! v = None) /\
    SFR_warnings s' = SFR_warnings s ∪ list_to_set warned /\
    stderr s' = stderr s ++ (warning_line <$> warned).

(** Every field [{d}] of the template has [d] below [n]. *)
Fixpoint placeholders_below (n : nat) (template : string) : bool :=
  match template with
  | EmptyString => true
  | String c rest =>
      match c, rest with
      | "{"%char, String d (String "}" rest') =>
          if utils.isdigit d then
            (nat_of_ascii d - 48 <? n)%nat && placeholders_below n rest'
          else placeholders_below n rest
      | _, _ => placeholders_below n rest
      end
  end.

(** A call to 5, then the opcode of [ljmp] in the last byte. *)
Definition call_then_cut_rom : list Byte.byte :=
  [Byte.x12; Byte.x00; Byte.x05; Byte.x02].

(** ** Reading a hexadecimal numeral *)

(** The value of an upper-case hexadecimal digit. *)
Definition digit_value (c : ascii) : option Z :=
  let n := Z.of_nat (nat_of_ascii c) in
  if (48 <=? n) && (n <=? 57) then Some (n - 48)
  else if (65 <=? n) && (n <=? 70) then Some (n - 55)
  else None.

(** The number the hexadecimal digits at the start of [s] denote, read after
    [acc], and what follows them. *)
Fixpoint read_hex_digits (acc : Z) (s : string) : Z * string :=
  match s with
  | EmptyString => (acc, EmptyString)
  | String c s' =>
      match digit_value c with
      | Some d => read_hex_digits (16 * acc + d) s'
      | None => (acc, s)
      end
  end.

(** The same with an optional sign before the digits. *)
Definition read_hex (s : string) : Z * string :=
  match s with
  | String "-" s' => let '(v, rest) := read_hex_digits 0 s' in (- v, rest)
  | _ => read_hex_digits 0 s
  end.

(** [rest] does not go on with a hexadecimal digit. *)
Definition no_digit_ahead (rest : string) : Prop :=
  match rest with
  | EmptyString => True
  | String c _ => digit_value c = None
  end.

(** ** Dumping *)

(** Three erased bytes. *)
Definition erased_rom : list Byte.byte := [Byte.xff; Byte.xff; Byte.xff].

(** Two bytes of data and an erased one. *)
Definition data_rom : list Byte.byte := [Byte.x41; Byte.x10; Byte.xff].

End notions.

(** * Properties *)

Lemma bind_Ok {A B} (r : result A) (k : A -> result B) (b : B) :
  bind r k = Ok b -> exists a, r = Ok a /\ k a = Ok b.
Proof. destruct r as [a| |]; simpl; [eauto|discriminate..]. Qed.

(** ** The catalog *)

Section catalog_facts.

Lemma init_catalog : Instructions.init = Ok catalog.
Proof. vm_compute. reflexivity. Qed.

Lemma add_all_lookup l : forall m m' c i,
  Instructions.add_all l m = Ok m' -> m' !! c = Some i ->
  m !! c = Some i \/ (i ∈ l /\ Instruction.code i = c).
Proof.
  induction l as [|x l IH]; simpl; intros m m' c i Hadd Hc.
  - left. congruence.
  - unfold Instructions.add in Hadd.
    destruct (m !! Instruction.code x) eqn:Hx; simpl in Hadd; [discriminate|].
    destruct (IH _ _ _ _ Hadd Hc) as [Hin|[Hin Hcode]].
    + destruct (decide (Instruction.code x = c)) as [<-|Hne].
      * rewrite lookup_insert_eq in Hin. injection Hin as ->.
        right. split; [left|done].
      * rewrite lookup_insert_ne in Hin by done. by left.
    + right. split; [by right|done].
Qed.

Lemma add_all_keeps l : forall m m' c i,
  Instructions.add_all l m = Ok m' -> m !! c = Some i -> m' !! c = Some i.
Proof.
  induction l as [|x l IH]; simpl; intros m m' c i Hadd Hc.
  - congruence.
  - unfold Instructions.add in Hadd.
    destruct (m !! Instruction.code x) eqn:Hx; simpl in Hadd; [discriminate|].
    eapply IH; [exact Hadd|].
    rewrite lookup_insert_ne by congruence. done.
Qed.

Lemma add_all_NoDup l : forall m m',
  Instructions.add_all l m = Ok m' ->
  NoDup (Instruction.code <$> l) /\
  (forall i, i ∈ l -> m !! Instruction.code i = None).
Proof.
  induction l as [|x l IH]; simpl; intros m m' Hadd.
  - split; [constructor|]. intros i Hi. inversion Hi.
  - unfold Instructions.add in Hadd.
    destruct (m !! Instruction.code x) eqn:Hx; simpl in Hadd; [discriminate|].
    destruct (IH _ _ Hadd) as [Hnd Hfresh]. split.
    + constructor; [|done]. intros Hin.
      apply list_elem_of_fmap in Hin as (y & Hy & Hyl).
      specialize (Hfresh y Hyl). rewrite <- Hy, lookup_insert_eq in Hfresh.
      discriminate.
    + intros i Hi. apply elem_of_cons in Hi as [->|Hi]; [done|].
      specialize (Hfresh i Hi).
      destruct (decide (Instruction.code x = Instruction.code i)) as [He|Hne].
      * rewrite He, lookup_insert_eq in Hfresh. discriminate.
      * by rewrite lookup_insert_ne in Hfresh.
Qed.

Lemma assert_complete_lookup codes : forall m c,
  Instructions.assert_complete codes m = Ok tt -> c ∈ codes -> is_Some (m !! c).
Proof.
  induction codes as [|x codes IH]; simpl; intros m c Hok Hc.
  - inversion Hc.
  - destruct (m !! x) eqn:Hx; [|discriminate].
    apply elem_of_cons in Hc as [->|Hc]; [by eexists|by apply IH].
Qed.

Lemma init_inv m :
  Instructions.init = Ok m ->
  Instructions.add_all Instructions.added ∅ = Ok m /\
  Instructions.assert_complete (Instructions.range 0 0x100) m = Ok tt.
Proof.
  unfold Instructions.init. intros H.
  apply bind_Ok in H as (m0 & Hadd & H).
  apply bind_Ok in H as ([] & Hc & H).
  injection H as ->. by split.
Qed.

(** Whatever holds of every descriptor passed to [__add] holds of every
    descriptor of the catalog, which is stored under its own opcode. *)
Lemma catalog_forall (P : Instruction.t -> bool) :
  forallb P Instructions.added = true ->
  forall c i, catalog !! c = Some i -> P i = true /\ Instruction.code i = c.
Proof.
  intros HP c i Hc.
  destruct (init_inv _ init_catalog) as [Hadd _].
  destruct (add_all_lookup _ _ _ _ _ Hadd Hc) as [He|[Hin Hcode]].
  - by rewrite lookup_empty in He.
  - split; [|done]. rewrite forallb_forall in HP. apply HP.
    by apply list_elem_of_In.
Qed.

Lemma catalog_total c : 0 <= c < 256 -> is_Some (catalog !! c).
Proof.
  intros Hc. destruct (init_inv _ init_catalog) as [_ Hcomplete].
  eapply assert_complete_lookup; [exact Hcomplete|].
  unfold Instructions.range. apply elem_of_seqZ. lia.
Qed.

Lemma catalog_code c i :
  catalog !! c = Some i -> Instruction.code i = c /\ 0 <= c < 256.
Proof.
  intros Hc.
  assert (Hall : forallb
            (fun i => (0 <=? Instruction.code i) && (Instruction.code i <? 256))
            Instructions.added = true) by (vm_compute; reflexivity).
  destruct (catalog_forall _ Hall c i Hc) as [HP Hcode].
  split; [done|]. subst c. lia.
Qed.

(** The declared length is one more than the bytes of the operands. *)
Lemma catalog_length c i :
  catalog !! c = Some i ->
  Instruction.length i = 1 + operands_bytes (truthy_args (Instruction.args i)).
Proof.
  intros Hc.
  assert (Hall : forallb
            (fun i => Instruction.length i =?
                      1 + operands_bytes (truthy_args (Instruction.args i)))
            Instructions.added = true) by (vm_compute; reflexivity).
  destruct (catalog_forall _ Hall c i Hc) as [HP _].
  lia.
Qed.

Lemma operands_bytes_nonneg l : 0 <= operands_bytes l.
Proof. induction l as [|a l IH]; simpl; [lia|]. destruct a; simpl; lia. Qed.

Lemma catalog_length_pos c i : catalog !! c = Some i -> 1 <= Instruction.length i.
Proof.
  intros Hc. rewrite (catalog_length c i Hc).
  pose proof (operands_bytes_nonneg (truthy_args (Instruction.args i))). lia.
Qed.

Lemma catalog_label_last c i :
  catalog !! c = Some i -> label_last (truthy_args (Instruction.args i)) = true.
Proof.
  intros Hc.
  assert (Hall : forallb
            (fun i => label_last (truthy_args (Instruction.args i)))
            Instructions.added = true) by (vm_compute; reflexivity).
  by destruct (catalog_forall _ Hall c i Hc).
Qed.

End catalog_facts.

Arguments catalog : simpl never.
Opaque catalog.
Arguments Instructions.added : simpl never.

(** ** The operand decoder *)

Section decoder_facts.
Import InstrArgsAnalyzer.

Lemma getitem_range rom i v : getitem rom i = Ok v -> - len rom <= i < len rom.
Proof.
  unfold getitem. intros H.
  destruct (i <? 0) eqn:Hi;
    destruct ((_ <? 0) || (len rom <=? _)) eqn:Hr; try discriminate;
    apply orb_false_iff in Hr as [H1 H2]; lia.
Qed.

Lemma getitem_byte rom i v : getitem rom i = Ok v -> 0 <= v < 256.
Proof.
  unfold getitem. intros H.
  destruct ((_ <? 0) || (len rom <=? _)); [discriminate|].
  destruct (rom !! _) as [b|]; [|discriminate].
  injection H as <-. unfold byte_val.
  pose proof (Byte.to_N_bounded b). lia.
Qed.

Lemma getitem_past_end rom i : len rom <= i -> getitem rom i = Raise IndexError.
Proof.
  unfold getitem, len. intros H.
  assert ((i <? 0) = false) as -> by (unfold len in *; lia).
  assert (((i <? 0) || (Z.of_nat (length rom) <=? i)) = true) as -> by lia.
  done.
Qed.

(** A decoded operand moves the cursor by the bytes of its kind and leaves
    the rest of the decoder alone. *)
Lemma next_arg_decoded self iarg self' v :
  next_arg self iarg = (self', Ok (Some v)) ->
  pc_arg self' = pc_arg self + operand_bytes iarg /\
  rom self' = rom self /\ pc self' = pc self /\
  pc_rel self' = pc_rel self /\ offset self' = offset self.
Proof.
  unfold next_arg. intros H.
  destruct (len (rom self) <=? pc self); [discriminate|].
  destruct (getitem (rom self) (pc_arg self)) as [val| |]; try discriminate.
  destruct iarg; simpl in H.
  - injection H as <- _. simpl. repeat split; lia.
  - injection H as <- _. simpl. repeat split; lia.
  - injection H as <- _. simpl. repeat split; lia.
  - destruct (len (rom self) <=? pc_arg self + 1); [discriminate|].
    destruct (getitem (rom self) (pc_arg self + 1)); try discriminate.
    injection H as <- _. simpl. repeat split; lia.
  - destruct (_ <? 0); [discriminate|].
    injection H as <- _. simpl. repeat split; lia.
  - destruct (getitem (rom self) (pc self)); try discriminate.
    injection H as <- _. simpl. repeat split; lia.
Qed.

(** Only the three label kinds resolve to [LABEL]. *)
Lemma next_arg_kind self iarg self' arg val hint :
  next_arg self iarg = (self', Ok (Some (arg, val, hint))) ->
  arg = (if is_label_kind iarg then LABEL else iarg).
Proof.
  unfold next_arg. intros H.
  destruct (len (rom self) <=? pc self); [discriminate|].
  destruct (getitem (rom self) (pc_arg self)) as [v| |]; try discriminate.
  destruct iarg; simpl in H |- *; try congruence.
  - destruct (len (rom self) <=? pc_arg self + 1); [discriminate|].
    destruct (getitem (rom self) (pc_arg self + 1)); try discriminate. congruence.
  - destruct (_ <? 0); [discriminate|]. congruence.
  - destruct (getitem (rom self) (pc self)); try discriminate. congruence.
Qed.

Lemma decode_all_cursor iargs : forall self self',
  decode_all self iargs = (self', Ok true) ->
  pc_arg self' = pc_arg self + operands_bytes iargs /\ pc_rel self' = pc_rel self.
Proof.
  induction iargs as [|iarg iargs IH]; simpl; intros self self' H.
  - injection H as <-. split; [lia|done].
  - destruct (next_arg self iarg) as [self1 [[v|]| |]] eqn:Hn; try discriminate.
    apply next_arg_decoded in Hn as (Hc & _ & _ & Hr & _).
    apply IH in H as [H1 H2]. split; [lia|congruence].
Qed.

(** The opcode in the last byte of the ROM: the first operand byte is read
    past the end. *)
Lemma next_arg_last_byte_raises rom pc pc_rel offset iarg :
  0 <= pc -> pc + 1 = len rom ->
  next_arg (init rom pc pc_rel offset) iarg = (init rom pc pc_rel offset, Raise IndexError).
Proof.
  intros H0 H1. unfold next_arg, init. simpl.
  assert ((len rom <=? pc) = false) as -> by lia.
  rewrite getitem_past_end by lia. done.
Qed.

(** The second byte of a [LABEL] operand missing: [None]. *)
Lemma next_arg_label_truncated rom pc pc_rel offset hi :
  pc < len rom -> pc + 2 = len rom -> getitem rom (pc + 1) = Ok hi ->
  snd (next_arg (init rom pc pc_rel offset) LABEL) = Ok None.
Proof.
  intros H0 H1 Hhi. unfold next_arg, init. simpl.
  assert ((len rom <=? pc) = false) as -> by lia.
  rewrite Hhi. simpl.
  assert ((len rom <=? pc + 1 + 1) = true) as -> by lia. done.
Qed.

(** A relative label before address 0: [None]. *)
Lemma next_arg_rel_negative rom pc pc_rel offset raw :
  pc < len rom -> getitem rom (pc + 1) = Ok raw ->
  pc_rel + (if 0x80 <=? raw then raw - 0x100 else raw) < 0 ->
  snd (next_arg (init rom pc pc_rel offset) REL) = Ok None.
Proof.
  intros H0 Hraw Hneg. unfold next_arg, init. simpl.
  assert ((len rom <=? pc) = false) as -> by lia.
  rewrite Hraw. simpl.
  destruct (_ <? 0) eqn:Hlt; [done|lia].
Qed.

End decoder_facts.

(** ** Catalog and decoder: the claims *)

(** C4. [Instructions.__init__] returns without an assertion failing; the
    table it builds maps every opcode 0..255 to a descriptor stored under its
    own opcode and has no other key; the 256 descriptors passed to [__add]
    have pairwise different opcodes. *)
Theorem C4_catalog_total_and_unique :
  exists m : gmap Z Instruction.t,
    Instructions.init = Ok m /\
    (forall c, 0 <= c < 256 ->
       exists i, m !! c = Some i /\ Instruction.code i = c) /\
    (forall c i, m !! c = Some i -> 0 <= c < 256 /\ Instruction.code i = c) /\
    (forall b : Byte.byte, is_Some (m !! byte_val b)) /\
    NoDup (Instruction.code <$> Instructions.added) /\
    length Instructions.added = 256%nat /\
    size m = 256%nat.
Proof.
  exists catalog. split; [exact init_catalog|].
  split; [|split; [|split; [|split; [|split]]]].
  - intros c Hc. destruct (catalog_total c Hc) as [i Hi].
    exists i. split; [done|]. by apply catalog_code in Hi as [-> _].
  - intros c i Hi. apply catalog_code in Hi as [-> Hr]. done.
  - intros b. apply catalog_total. unfold byte_val.
    pose proof (Byte.to_N_bounded b). lia.
  - destruct (init_inv _ init_catalog) as [Hadd _].
    by apply add_all_NoDup in Hadd as [Hnd _].
  - vm_compute. reflexivity.
  - vm_compute. reflexivity.
Qed.

(** C10. For every opcode 0..255 the declared length is one more than the
    bytes of the operands (two for [LABEL], one for any other kind); so when
    every operand of the instruction at [pc] is decoded, the cursor is
    [pc + length], which is where [pc_rel] points and where the scan goes
    on. *)
Theorem C10_length_is_one_plus_operand_bytes :
  (forall c, 0 <= c < 256 ->
     exists i, catalog !! c = Some i /\
       Instruction.length i = 1 + operands_bytes (truthy_args (Instruction.args i))) /\
  (forall rom offset pc c i cursor,
     catalog !! c = Some i ->
     decode_all (decoder_at rom offset pc i) (truthy_args (Instruction.args i))
       = (cursor, Ok true) ->
     InstrArgsAnalyzer.pc_arg cursor = pc + Instruction.length i /\
     InstrArgsAnalyzer.pc_arg cursor = InstrArgsAnalyzer.pc_rel cursor /\
     forall start force self jumps st next jump_out,
       CodeAnalyzer.analyze_instr i pc start force self jumps = (st, Ok (next, jump_out)) ->
       next = InstrArgsAnalyzer.pc_arg cursor).
Proof.
  split.
  - intros c Hc. destruct (catalog_total c Hc) as [i Hi].
    exists i. split; [done|]. by apply catalog_length in Hi.
  - intros rom offset pc c i cursor Hi Hdec.
    apply decode_all_cursor in Hdec as [Hcur Hrel]. simpl in Hcur, Hrel.
    apply catalog_length in Hi.
    assert (Hpc : InstrArgsAnalyzer.pc_arg cursor = pc + Instruction.length i) by lia.
    split; [done|]. split; [lia|].
    intros start force self jumps st next jump_out Han.
    unfold CodeAnalyzer.analyze_instr in Han.
    destruct (match truthy_args (Instruction.args i) with
              | [] => _ | _ :: _ => _ end) as [[[self1 jumps1] jo1] r].
    destruct r; simpl in Han; try discriminate.
    injection Han as _ <- _. lia.
Qed.

(** The instruction [ljmp 1234h] alone in a ROM: three bytes, cursor 3. *)
Lemma C10_witness :
  InstrArgsAnalyzer.pc_arg
    (fst (decode_all (decoder_at [Byte.x02; Byte.x12; Byte.x34] 0 0
                        (InstrOut 0x02 3 "ljmp {0}" (Some [LABEL]))) [LABEL]))
  = 0 + 3.
Proof.
  refine (proj1 (proj2 C10_length_is_one_plus_operand_bytes
                   [Byte.x02; Byte.x12; Byte.x34] 0 0 0x02
                   (InstrOut 0x02 3 "ljmp {0}" (Some [LABEL])) _ _ _)).
  - vm_compute. reflexivity.
  - vm_compute. reflexivity.
Defined.

(** C5. A [ShortPageLabel] operand ([ADDR]: the operand of [ajmp] and
    [acall], two bytes long) takes one byte and resolves to
    [(pcNext & 0xF800) | raw | ((opcode << 3) & 0x700)] with [pcNext = pc + 2],
    as a [LABEL]. *)
Theorem C5_short_page_label :
  forall rom offset pc opcode raw instr,
    getitem rom pc = Ok opcode ->
    catalog !! opcode = Some instr ->
    Instruction.args instr = Some [ADDR] ->
    getitem rom (pc + 1) = Ok raw ->
    InstrArgsAnalyzer.next_arg (decoder_at rom offset pc instr) ADDR
    = (InstrArgsAnalyzer.mk rom pc (pc + 2) offset (pc + 2),
       Ok (Some (LABEL,
                 Z.lor (Z.lor (Z.land (pc + 2) 0xF800) raw)
                       (Z.land (Z.shiftl opcode 3) 0x700),
                 ""))).
Proof.
  intros rom offset pc opcode raw instr Hop Hinstr Hargs Hraw.
  pose proof (catalog_length _ _ Hinstr) as Hlen. rewrite Hargs in Hlen. simpl in Hlen.
  apply getitem_range in Hop as Hrange.
  unfold decoder_at, InstrArgsAnalyzer.next_arg, InstrArgsAnalyzer.init. simpl.
  assert ((len rom <=? pc) = false) as -> by lia.
  rewrite Hraw. simpl. rewrite Hop.
  unfold InstrArgsAnalyzer.set_pc_arg. simpl.
  replace (pc + Instruction.length instr) with (pc + 2) by lia.
  replace (pc + 1 + 1) with (pc + 2) by lia. done.
Qed.

(** Opcode 01 at 0100h, operand 34h, bias 0: the target is 0034h. *)
Lemma C5_witness :
  InstrArgsAnalyzer.next_arg
    (decoder_at page_jump_rom 0 0x100 (InstrOut 0x01 2 "ajmp {0}" (Some [ADDR]))) ADDR
  = (InstrArgsAnalyzer.mk page_jump_rom 0x100 0x102 0 0x102, Ok (Some (LABEL, 0x34, ""))).
Proof.
  apply (C5_short_page_label page_jump_rom 0 0x100 0x01 0x34
           (InstrOut 0x01 2 "ajmp {0}" (Some [ADDR]))).
  - vm_compute. reflexivity.
  - vm_compute. reflexivity.
  - reflexivity.
  - vm_compute. reflexivity.
Defined.

(** ** An opcode in the last byte of the ROM *)

(** C2. The ROM is the single byte 02 ([ljmp], three bytes long). [next_arg]
    tests [self.pc] against the length of the ROM, not the cursor, and reads
    [rom[1]]: the decoder, the instruction renderer, the block renderer and
    the scan all end with [IndexError]; no raw-byte line is printed. *)
Theorem C2_opcode_in_last_byte_raises :
  let self := CodeAnalyzer.init [Byte.x02] Addresses.init 0 false [] [] in
  snd (InstrArgsAnalyzer.next_arg (InstrArgsAnalyzer.init [Byte.x02] 0 3 0) LABEL)
    = Raise IndexError /\
  snd (CodeAnalyzer.disassemble_instruction self 0) = Raise IndexError /\
  CodeAnalyzer.disassemble_code_block self 0 1 false
    = (CodeAnalyzer.print self (";org" +:+ utils.tab +:+ "00h"), Raise IndexError) /\
  snd (CodeAnalyzer.analyze_jumps ascending self 0 [] false) = Raise IndexError.
Proof. vm_compute. repeat split; reflexivity. Qed.

(** ** The self-jump *)

Lemma iter_nil (order : SetOrder.t) : SetOrder.iter order [] = [].
Proof. apply Permutation_nil_r. apply SetOrder.iter_perm. Qed.


(** ** The label table as a dictionary *)

Section dict_facts.

Lemma dict_mem_keys (k : Z) (d : list (Z * LabelType.t)) :
  dict_mem k d = true <-> k ∈ keys d.
Proof.
  unfold dict_mem, keys. induction d as [|[k' v] d IH]; simpl.
  - split; [discriminate|]. intros H. inversion H.
  - rewrite elem_of_cons. destruct (Z.eqb_spec k k') as [->|Hne].
    + split; [by left|done].
    + rewrite IH. split; [by right|]. by intros [?|?].
Qed.

Lemma dict_mem_false (k : Z) (d : list (Z * LabelType.t)) :
  dict_mem k d = false <-> k ∉ keys d.
Proof.
  rewrite <- dict_mem_keys. destruct (dict_mem k d); split; try done.
Qed.

Lemma dict_set_new (k : Z) (v : LabelType.t) (d : list (Z * LabelType.t)) :
  dict_mem k d = false -> dict_set k v d = d ++ [(k, v)].
Proof.
  unfold dict_mem. induction d as [|[k' v'] d IH]; simpl; [done|].
  destruct (k =? k'); [discriminate|]. intros H. by rewrite IH.
Qed.

Lemma dict_get_app (k : Z) (v : LabelType.t) (d d' : list (Z * LabelType.t)) :
  dict_get k d = Some v -> dict_get k (d ++ d') = Some v.
Proof.
  induction d as [|[k' v'] d IH]; simpl; [discriminate|].
  by destruct (k =? k').
Qed.

Lemma dict_get_set_same (k : Z) (v : LabelType.t) (d : list (Z * LabelType.t)) :
  dict_get k (dict_set k v d) = Some v.
Proof.
  induction d as [|[k' v'] d IH]; simpl.
  - by rewrite Z.eqb_refl.
  - destruct (Z.eqb_spec k k') as [->|Hne]; simpl.
    + by rewrite Z.eqb_refl.
    + destruct (Z.eqb_spec k k'); [done|]. exact IH.
Qed.

Lemma dict_get_set_other (k k' : Z) (v : LabelType.t) (d : list (Z * LabelType.t)) :
  k <> k' -> dict_get k (dict_set k' v d) = dict_get k d.
Proof.
  intros Hne. induction d as [|[k1 v1] d IH]; simpl.
  - by destruct (Z.eqb_spec k k').
  - destruct (Z.eqb_spec k' k1) as [->|Hne1]; simpl.
    + by destruct (Z.eqb_spec k k1).
    + destruct (Z.eqb_spec k k1); [done|]. exact IH.
Qed.

Lemma jump_keys_app (d d' : list (Z * LabelType.t)) :
  jump_keys (d ++ d') = jump_keys d ++ jump_keys d'.
Proof. unfold jump_keys. by rewrite filter_app, fmap_app. Qed.

Lemma jump_keys_sub (d : list (Z * LabelType.t)) k : k ∈ jump_keys d -> k ∈ keys d.
Proof.
  unfold jump_keys, keys. intros H.
  apply list_elem_of_fmap in H as (p & -> & Hp).
  apply list_elem_of_filter in Hp as [_ Hp]. by apply list_elem_of_fmap_2.
Qed.

Lemma jump_keys_NoDup (d : list (Z * LabelType.t)) :
  NoDup (keys d) -> NoDup (jump_keys d).
Proof.
  unfold jump_keys, keys. induction d as [|[k v] d IH]; simpl; [constructor|].
  intros Hnd. apply NoDup_cons in Hnd as [Hk Hnd].
  rewrite filter_cons. destruct (decide _); simpl; [|by apply IH].
  apply NoDup_cons. split; [|by apply IH].
  intros Hin. apply Hk. by apply (jump_keys_sub d).
Qed.

Lemma jump_keys_get (d : list (Z * LabelType.t)) a :
  NoDup (keys d) -> a ∈ jump_keys d -> dict_get a d = Some LabelType.JUMP.
Proof.
  unfold jump_keys, keys. intros Hnd Ha.
  apply list_elem_of_fmap in Ha as ([a' v] & -> & Hp).
  apply list_elem_of_filter in Hp as [Hv Hp]. simpl in Hv. subst v. simpl.
  induction d as [|[k v] d IH]; [inversion Hp|].
  simpl in Hnd |- *. apply NoDup_cons in Hnd as [Hk Hnd].
  apply elem_of_cons in Hp as [Hp|Hp].
  - injection Hp as <- <-. by rewrite Z.eqb_refl.
  - destruct (Z.eqb_spec a' k) as [->|Hne]; [|by apply IH].
    exfalso. apply Hk. by apply (list_elem_of_fmap_2 fst) in Hp.
Qed.

End dict_facts.

(** ** What a scan does to the analyzer *)

Section scan_facts.
Import CodeAnalyzer.

Lemma frame_refl s : frame s s.
Proof. by repeat split. Qed.

Lemma frame_trans s1 s2 s3 : frame s1 s2 -> frame s2 s3 -> frame s1 s3.
Proof. unfold frame. intros ? ?. intuition congruence. Qed.

Lemma grows_refl P s jumps : grows P s jumps s jumps.
Proof.
  split; [apply frame_refl|]. exists []. rewrite !app_nil_r.
  split; [done|]. split; [done|]. split; [constructor|].
  intros k Hk. inversion Hk.
Qed.

Lemma grows_trans P s1 j1 s2 j2 s3 j3 :
  grows P s1 j1 s2 j2 -> grows P s2 j2 s3 j3 -> grows P s1 j1 s3 j3.
Proof.
  intros [Hf1 (n1 & Hl1 & Hj1 & Hnd1 & Hk1)] [Hf2 (n2 & Hl2 & Hj2 & Hnd2 & Hk2)].
  split; [by eapply frame_trans|]. exists (n1 ++ n2).
  split; [by rewrite Hl2, Hl1, app_assoc|].
  split; [by rewrite Hj2, Hj1, jump_keys_app, app_assoc|].
  unfold keys in *. rewrite fmap_app. split.
  - apply NoDup_app. split; [done|]. split; [|done].
    intros k Hk Hk'. apply Hk2 in Hk' as [Hnot _]. apply Hnot.
    rewrite Hl1, fmap_app. apply elem_of_app. by right.
  - intros k Hk. apply elem_of_app in Hk as [Hk|Hk]; [by apply Hk1|].
    apply Hk2 in Hk as [Hnot HP]. split; [|done].
    intros Hin. apply Hnot. rewrite Hl1, fmap_app. apply elem_of_app. by left.
Qed.

Lemma grows_jumps_in P s j s' j' : jumps_in s j -> grows P s j s' j' -> jumps_in s' j'.
Proof.
  intros Hin [_ (n & Hl & Hj & _ & _)] x Hx. subst j'. rewrite Hl.
  unfold keys. rewrite fmap_app. apply elem_of_app.
  apply elem_of_app in Hx as [Hx|Hx]; [left; by apply Hin|right].
  by apply jump_keys_sub.
Qed.

Lemma classify_grows (P : Z -> Prop) instr pc start arg val s jumps jump_out :
  jumps_in s jumps ->
  (arg = LABEL -> val <> pc -> P val) ->
  exists s' jumps' jump_out',
    classify instr pc start arg val (s, jumps, jump_out) = (s', jumps', jump_out') /\
    grows P s jumps s' jumps'.
Proof.
  intros Hin HP. unfold classify.
  destruct (bool_decide (arg = LABEL) && negb (val =? pc)) eqn:Hc.
  2:{ eexists _, _, _. split; [done|]. apply grows_refl. }
  apply andb_true_iff in Hc as [Harg Hval].
  apply bool_decide_eq_true in Harg. apply negb_true_iff, Z.eqb_neq in Hval.
  specialize (HP Harg Hval).
  set (fw := if (pc =? start) && Instruction.jump_out instr
             then set_forwards s (<[pc:=val]> (forwards s)) else s).
  assert (Hfw : frame s fw /\ labels fw = labels s).
  { unfold fw. destruct (_ && _); simpl; [|split; [apply frame_refl|done]].
    split; [by repeat split|done]. }
  destruct Hfw as [Hfw Hlfw].
  assert (Hnew : forall (s0 : t) ltype, frame s s0 -> labels s0 = labels s ->
            dict_mem val (labels s0) = false ->
            grows P s jumps (set_labels s0 (dict_set val ltype (labels s0)))
              (if bool_decide (ltype = LabelType.JUMP) then set_add val jumps else jumps)).
  { intros s0 ltype Hf Hl Hm. split.
    - destruct Hf as (?&?&?&?&?&?&?&?). by repeat split.
    - exists [(val, ltype)]. simpl. rewrite dict_set_new, Hl by done.
      split; [done|]. split.
      + unfold jump_keys. rewrite filter_cons. simpl.
        destruct (decide (ltype = LabelType.JUMP)) as [->|Hne].
        * rewrite bool_decide_eq_true_2 by done. unfold set_add.
          rewrite bool_decide_eq_false_2; [done|].
          intros Hj. apply Hin in Hj. apply dict_mem_false in Hm.
          apply Hm. by rewrite Hl.
        * rewrite bool_decide_eq_false_2 by done. by rewrite app_nil_r.
      + split; [apply NoDup_singleton|].
        intros k Hk. apply list_elem_of_singleton in Hk as ->.
        split; [|done]. apply dict_mem_false. by rewrite <- Hl. }
  destruct (Instruction.no_jump instr).
  - destruct (dict_mem val (labels s)) eqn:Hm.
    + eexists _, _, _. split; [done|]. apply grows_refl.
    + eexists _, _, _. split; [done|]. by apply (Hnew s LabelType.DPTR (frame_refl s)).
  - fold fw. destruct (dict_mem val (labels fw)) eqn:Hm.
    + eexists _, _, _. split; [done|].
      split; [done|]. exists []. rewrite !app_nil_r.
      split; [done|]. split; [done|]. split; [constructor|].
      intros k Hk. inversion Hk.
    + eexists _, _, _. split; [done|]. by apply (Hnew fw LabelType.JUMP).
Qed.

Lemma next_arg_no_fuel self iarg : snd (InstrArgsAnalyzer.next_arg self iarg) <> OutOfFuel.
Proof.
  assert (Hg : forall rom i, getitem rom i <> OutOfFuel).
  { intros rom i. unfold getitem.
    destruct (_ || _); [done|]. by destruct (rom !! _). }
  unfold InstrArgsAnalyzer.next_arg.
  destruct (len _ <=? _); [done|].
  destruct (getitem _ _) as [val| |] eqn:H1; simpl; [|done|by apply Hg in H1].
  destruct iarg; simpl; try done.
  - destruct (len _ <=? _); [done|].
    destruct (getitem _ (_ + 1)) eqn:H2; simpl; [done|done|by apply Hg in H2].
  - by destruct (_ <? 0).
  - destruct (getitem _ (InstrArgsAnalyzer.pc _)) eqn:H2; simpl;
      [done|done|by apply Hg in H2].
Qed.

Arguments classify : simpl never.
Arguments analyze_instr : simpl never.
Arguments InstrArgsAnalyzer.next_arg : simpl never.

Lemma analyze_args_grows (P : Z -> Prop) instr pc start iargs :
  forall analyzer s jumps jump_out,
    jumps_in s jumps ->
    (forall val hint, (LABEL, val, hint) ∈ decode_prefix analyzer iargs ->
                      val <> pc -> P val) ->
    exists s' jumps' jump_out' r,
      analyze_args instr pc start analyzer iargs (s, jumps, jump_out)
        = ((s', jumps', jump_out'), r) /\
      grows P s jumps s' jumps' /\ r <> OutOfFuel.
Proof.
  induction iargs as [|iarg iargs IH]; simpl; intros analyzer s jumps jump_out Hin HP.
  - eexists _, _, _, _. split; [done|]. split; [apply grows_refl|done].
  - pose proof (next_arg_no_fuel analyzer iarg) as Hnf.
    destruct (InstrArgsAnalyzer.next_arg analyzer iarg)
      as [analyzer' [[[[arg val] hint]|]| |]] eqn:Hn; simpl in Hnf.
    + destruct (classify_grows P instr pc start arg val s jumps jump_out Hin)
        as (s1 & j1 & jo1 & Hc & Hg1).
      { intros -> Hne. apply (HP val hint); [left|done]. }
      rewrite Hc.
      destruct (IH analyzer' s1 j1 jo1) as (s2 & j2 & jo2 & r & Ha & Hg2 & Hr).
      { by eapply grows_jumps_in. }
      { intros v h Hv. apply (HP v h). by right. }
      eexists _, _, _, _. split; [exact Ha|]. split; [|done].
      by eapply grows_trans.
    + eexists _, _, _, _. split; [done|]. split; [apply grows_refl|done].
    + eexists _, _, _, _. split; [done|]. split; [apply grows_refl|done].
    + done.
Qed.

Lemma analyze_instr_grows (P : Z -> Prop) instr pc start force s jumps :
  jumps_in s jumps ->
  (forall val hint,
     (LABEL, val, hint) ∈ decode_prefix (decoder_at (rom s) (offset s) pc instr)
                            (truthy_args (Instruction.args instr)) ->
     val <> pc -> P val) ->
  exists s' jumps' r,
    analyze_instr instr pc start force s jumps = ((s', jumps'), r) /\
    grows P s jumps s' jumps' /\ r <> OutOfFuel /\
    forall next jump_out, r = Ok (next, jump_out) -> next = pc + Instruction.length instr.
Proof.
  intros Hin HP. unfold analyze_instr.
  destruct (truthy_args (Instruction.args instr)) as [|iarg iargs] eqn:Hargs.
  - eexists _, _, _. split; [done|]. split; [apply grows_refl|].
    split; [done|]. simpl. intros next jo H. by injection H as <- _.
  - destruct (analyze_args_grows P instr pc start (iarg :: iargs)
                (InstrArgsAnalyzer.init (rom s) pc (pc + Instruction.length instr) (offset s))
                s jumps (Instruction.jump_out instr && negb force) Hin HP)
      as (s' & j' & jo' & r & Ha & Hg & Hr).
    rewrite Ha. eexists _, _, _. split; [done|]. split; [done|].
    destruct r as [[]| |]; simpl; [|done|done].
    split; [done|]. intros next jo H. by injection H as <- _.
Qed.

Lemma analyze_loop_grows (P : Z -> Prop) fuel start force :
  forall pc s jumps,
    jumps_in s jumps ->
    covers P (rom s) (offset s) ->
    exists s' jumps' r,
      analyze_loop fuel start pc force s jumps = ((s', jumps'), r) /\
      grows P s jumps s' jumps' /\
      (Z.max 0 (len (rom s) - pc) < Z.of_nat fuel -> r <> OutOfFuel) /\
      (forall pc', r = Ok pc' -> pc <= pc').
Proof.
  induction fuel as [|fuel IH]; simpl; intros pc s jumps Hin HP.
  - eexists _, _, _. split; [done|]. split; [apply grows_refl|].
    split; [lia|done].
  - destruct (Z.ltb_spec pc (len (rom s))) as [Hlt|Hge].
    2:{ eexists _, _, _. split; [done|]. split; [apply grows_refl|].
        split; [done|]. intros pc' H. injection H as <-. lia. }
    destruct (getitem (rom s) pc) as [code| |] eqn:Hcode.
    2:{ eexists _, _, _. split; [reflexivity|]. split; [apply grows_refl|].
        split; [intros _; discriminate|intros pc' H; discriminate]. }
    2:{ exfalso. revert Hcode. unfold getitem.
        destruct (_ || _); [done|]. by destruct (rom s !! _). }
    destruct (catalog !! code) as [instr|] eqn:Hinstr.
    2:{ eexists _, _, _. split; [done|]. split; [apply grows_refl|].
        split; [done|]. intros pc' H. injection H as <-. lia. }
    destruct (analyze_instr_grows P instr pc start force s jumps Hin)
      as (s1 & j1 & r1 & Ha & Hg1 & Hr1 & Hnext).
    { intros val hint Hv Hne. apply (HP pc val hint); [|done].
      unfold decoded_at. by rewrite Hcode, Hinstr. }
    rewrite Ha. pose proof (catalog_length_pos _ _ Hinstr) as Hpos.
    destruct r1 as [[next jump_out]| |]; [| |exfalso; by apply Hr1].
    2:{ eexists _, _, _. split; [reflexivity|]. split; [exact Hg1|].
        split; [intros _; discriminate|intros pc' H; discriminate]. }
    specialize (Hnext _ _ eq_refl). subst next.
    destruct jump_out.
    { eexists _, _, _. split; [done|]. split; [done|].
      split; [done|]. intros pc' H. injection H as <-. lia. }
    destruct Hg1 as [Hf1 Hn1].
    destruct (IH (pc + Instruction.length instr) s1 j1) as (s2 & j2 & r2 & Hl & Hg2 & Hr2 & Hpc2).
    { by eapply grows_jumps_in; [exact Hin|split]. }
    { destruct Hf1 as (-> & _ & -> & _). done. }
    eexists _, _, _. split; [exact Hl|].
    split; [by eapply grows_trans; [split|]|].
    split.
    + intros Hfuel. apply Hr2. destruct Hf1 as (-> & _). lia.
    + intros pc' H. apply Hpc2 in H. lia.
Qed.

Lemma analyze_jumps_post (P : Z -> Prop) order s start queue force :
  covers P (rom s) (offset s) ->
  exists s' queue' r,
    analyze_jumps order s start queue force = ((s', queue'), r) /\
    scan_post P order s queue s' queue' r.
Proof.
  intros HP. unfold analyze_jumps.
  destruct (analyze_loop_grows P (S (Z.to_nat (len (rom s) - start))) start force
              start s []) as (s' & j' & r & Hl & [Hf (news & Hn & Hj & Hnd & Hk)] & Hr & _);
    [by intros j Hj; inversion Hj|done|].
  rewrite Hl. simpl in Hj. subst j'.
  assert (Hr' : r <> OutOfFuel) by (apply Hr; lia).
  destruct r as [pc| |]; [| |done].
  - eexists _, _, _. split; [done|]. split; [done|]. split; [done|]. by exists news.
  - eexists _, _, _. split; [done|]. split; [done|]. split; [done|]. by exists news.
Qed.

Lemma covers_True rom offset : covers (fun _ => True) rom offset.
Proof. by intros pc val hint _ _. Qed.

End scan_facts.

(** ** A decode failure inside a scan *)

Section decode_failure.
Import CodeAnalyzer.

Lemma classify_not_label instr pc start arg val st :
  arg <> LABEL -> classify instr pc start arg val st = st.
Proof.
  intros Hne. unfold classify. destruct st as [[s jumps] jump_out].
  by rewrite bool_decide_eq_false_2.
Qed.

Lemma analyze_args_failed instr pc start iargs :
  forall analyzer st,
    label_last iargs = true ->
    snd (decode_all analyzer iargs) = Ok false ->
    analyze_args instr pc start analyzer iargs st = (st, Ok tt).
Proof.
  induction iargs as [|iarg iargs IH]; simpl; intros analyzer st Hlast Hfail.
  - discriminate.
  - destruct (InstrArgsAnalyzer.next_arg analyzer iarg)
      as [analyzer' [[[[arg val] hint]|]| |]] eqn:Hn; simpl in Hfail; try done.
    destruct iargs as [|iarg' iargs]; [discriminate|].
    unfold label_last in Hlast. simpl in Hlast.
    apply andb_true_iff in Hlast as [Hkind Hlast].
    apply next_arg_kind in Hn. apply negb_true_iff in Hkind. rewrite Hkind in Hn.
    rewrite classify_not_label.
    + by apply IH.
    + subst arg. by destruct iarg.
Qed.

End decode_failure.

(** C1. The code does not do what the claim says. In [failed_jnz_rom] the
    operand of the [jnz] at 0 is not decoded ([next_arg] returns [None]); the
    renderer gives the instruction up ([__disassemble_instruction] returns
    [None]), but the [break] of [analyze_jumps] leaves the operand loop only:
    the scan does not stop at 0, it goes on at 2, classifies 1234h from the
    [ljmp] there, appends it to the queue and returns 5. *)
Theorem C1_failed_decode_does_not_stop_the_scan :
  let self := CodeAnalyzer.init failed_jnz_rom Addresses.init 0 false [] [] in
  snd (decode_all (decoder_at failed_jnz_rom 0 0 (Instr 0x70 2 "jnz {0}" [REL])) [REL])
    = Ok false /\
  catalog !! 0x70 = Some (Instr 0x70 2 "jnz {0}" [REL]) /\
  CodeAnalyzer.disassemble_instruction self 0 = (self, Ok None) /\
  CodeAnalyzer.analyze_jumps ascending self 0 [] false
    = ((CodeAnalyzer.set_labels self [(0x1234, LabelType.JUMP)], [0x1234]), Ok 5) /\
  snd (CodeAnalyzer.analyze_jumps ascending self 0 [] false) <> Ok 0.
Proof.
  split; [vm_compute; reflexivity|]. split; [vm_compute; reflexivity|].
  split; [vm_compute; reflexivity|].
  split; [vm_compute; reflexivity|]. vm_compute. discriminate.
Qed.

(** What the scan does in general at an instruction with an operand that is
    not decoded: the instruction changes nothing (no label classified, no
    forwarding entry, [jumps] as it was), and the scan moves on by the length
    of the instruction, stopping there only when the instruction leaves the
    flow and [force] is false. *)
Lemma failed_decode_skips_the_instruction :
  forall self pc start force jumps code instr fuel,
    pc < len (CodeAnalyzer.rom self) ->
    getitem (CodeAnalyzer.rom self) pc = Ok code ->
    catalog !! code = Some instr ->
    snd (decode_all (decoder_at (CodeAnalyzer.rom self) (CodeAnalyzer.offset self) pc instr)
           (truthy_args (Instruction.args instr))) = Ok false ->
    CodeAnalyzer.analyze_instr instr pc start force self jumps
      = ((self, jumps),
         Ok (pc + Instruction.length instr, Instruction.jump_out instr && negb force)) /\
    CodeAnalyzer.analyze_loop (S fuel) start pc force self jumps
      = if Instruction.jump_out instr && negb force
        then ((self, jumps), Ok (pc + Instruction.length instr))
        else CodeAnalyzer.analyze_loop fuel start (pc + Instruction.length instr)
               force self jumps.
Proof.
  intros self pc start force jumps code instr fuel Hpc Hcode Hinstr Hfail.
  assert (Hone : CodeAnalyzer.analyze_instr instr pc start force self jumps
      = ((self, jumps),
         Ok (pc + Instruction.length instr, Instruction.jump_out instr && negb force))).
  { unfold CodeAnalyzer.analyze_instr.
    pose proof (catalog_label_last _ _ Hinstr) as Hlast.
    destruct (truthy_args (Instruction.args instr)) as [|iarg iargs] eqn:Hargs;
      [discriminate|].
    unfold decoder_at in Hfail.
    by rewrite (analyze_args_failed instr pc start (iarg :: iargs) _ _ Hlast Hfail). }
  split; [exact Hone|].
  cbn [CodeAnalyzer.analyze_loop]. apply Z.ltb_lt in Hpc. rewrite Hpc, Hcode, Hinstr, Hone.
  by destruct (Instruction.jump_out instr && negb force).
Qed.

(** ** First classification wins *)

Lemma analyze_jumps_keeps order self start queue force a k :
  dict_get a (CodeAnalyzer.labels self) = Some k ->
  dict_get a (CodeAnalyzer.labels (CodeAnalyzer.analyze_jumps order self start queue force).1.1)
    = Some k.
Proof.
  intros Hk.
  destruct (analyze_jumps_post (fun _ => True) order self start queue force
              (covers_True _ _)) as (s' & q' & r & Heq & _ & _ & news & Hl & _).
  rewrite Heq. simpl. rewrite Hl. by apply dict_get_app.
Qed.

Lemma scan_calls_keep order calls : forall self queue a k,
  dict_get a (CodeAnalyzer.labels self) = Some k ->
  dict_get a (CodeAnalyzer.labels (scan_calls order calls self queue).1) = Some k.
Proof.
  induction calls as [|[start force] calls IH]; simpl; intros self queue a k Hk; [done|].
  pose proof (analyze_jumps_keeps order self start queue force a k Hk) as Hk'.
  destruct (CodeAnalyzer.analyze_jumps order self start queue force) as [[s' q'] r].
  by apply IH.
Qed.

Lemma init_preseeds rom addresses offset all_is_code no_return_from indirect a :
  a ∈ indirect ->
  dict_get a (CodeAnalyzer.labels
                (CodeAnalyzer.init rom addresses offset all_is_code no_return_from indirect))
    = Some LabelType.ADDR.
Proof.
  unfold CodeAnalyzer.init. simpl. generalize (@nil (Z * LabelType.t)).
  induction indirect as [|x indirect IH]; intros d Ha; [inversion Ha|]. simpl.
  destruct (decide (a ∈ indirect)) as [Hin|Hnin]; [by apply IH|].
  apply elem_of_cons in Ha as [->|Ha]; [|done].
  clear IH. assert (Hx : dict_get x (dict_set x LabelType.ADDR d) = Some LabelType.ADDR)
    by apply dict_get_set_same.
  revert Hx. generalize (dict_set x LabelType.ADDR d). revert Hnin.
  induction indirect as [|y indirect IH]; simpl; intros Hnin d' Hd'; [done|].
  apply not_elem_of_cons in Hnin as [Hne Hnin].
  apply IH; [done|]. by rewrite dict_get_set_other.
Qed.

(** C7. A classification stored in the label table stays as it is through any
    sequence of scan calls; that holds of the [ADDR] entries made by
    [__init__] for the indirect targets. *)
Theorem C7_first_classification_wins :
  (forall order calls self queue a k,
     dict_get a (CodeAnalyzer.labels self) = Some k ->
     dict_get a (CodeAnalyzer.labels (scan_calls order calls self queue).1) = Some k) /\
  (forall order calls rom addresses offset all_is_code no_return_from indirect queue a,
     a ∈ indirect ->
     dict_get a (CodeAnalyzer.labels
                   (scan_calls order calls
                      (CodeAnalyzer.init rom addresses offset all_is_code no_return_from
                         indirect) queue).1)
       = Some LabelType.ADDR).
Proof.
  split.
  - intros. by apply scan_calls_keep.
  - intros. apply scan_calls_keep. by apply init_preseeds.
Qed.

(** [ljmp 1234h] scanned twice with 1234h an indirect target: it stays
    [ADDR]. *)
Lemma C7_witness :
  dict_get 0x1234
    (CodeAnalyzer.labels
       (scan_calls ascending [(0, false); (0, true)]
          (CodeAnalyzer.init [Byte.x02; Byte.x12; Byte.x34] Addresses.init 0 false []
             [0x1234]) []).1)
  = Some LabelType.ADDR.
Proof.
  apply (proj2 C7_first_classification_wins).
  apply list_elem_of_singleton. reflexivity.
Defined.

(** ** The entry queue *)

(** C8, as stated, fails: [jumps] is a [set], and the queue receives its
    elements in the order of the set. The scan of [two_calls_rom] classifies
    5 and then 4; a set holding the small integers 5 and 4 is iterated in
    ascending order, so the queue receives 4 and then 5. *)
Lemma C8_counterexample :
  let self := CodeAnalyzer.init two_calls_rom Addresses.init 0 false [] [] in
  let '((self', queue'), r) := CodeAnalyzer.analyze_jumps ascending self 0 [] false in
  r = Ok 7 /\
  CodeAnalyzer.labels self' = [(5, LabelType.JUMP); (4, LabelType.JUMP)] /\
  queue' = [4; 5] /\
  queue' <> [] ++ jump_keys (CodeAnalyzer.labels self').
Proof. vm_compute. repeat split; [reflexivity..|discriminate]. Qed.

(** C8, amended. When [analyze_jumps] returns, the queue has received the
    addresses classified [JUMP] during the call, each once, in the order in
    which the set [jumps] is iterated (which need not be the order of
    discovery); none of them was in the label table before the call. When
    the call raises, the queue is as it was. The call always ends in one of
    these two ways. *)
Theorem C8_queue_receives_new_jumps :
  forall order self start queue force self' queue' r,
    CodeAnalyzer.analyze_jumps order self start queue force = ((self', queue'), r) ->
    match r with
    | Ok _ =>
        exists news appended,
          CodeAnalyzer.labels self' = CodeAnalyzer.labels self ++ news /\
          queue' = queue ++ appended /\
          appended = SetOrder.iter order (jump_keys news) /\
          appended ≡ₚ jump_keys news /\
          NoDup appended /\
          (forall a, a ∈ appended ->
             dict_get a news = Some LabelType.JUMP /\
             dict_mem a (CodeAnalyzer.labels self) = false)
    | Raise _ => queue' = queue
    | OutOfFuel => False
    end.
Proof.
  intros order self start queue force self' queue' r Heq.
  destruct (analyze_jumps_post (fun _ => True) order self start queue force
              (covers_True _ _)) as (s1 & q1 & r1 & Heq1 & _ & Hr & news & Hl & Hnd & Hk & Hq).
  rewrite Heq in Heq1. injection Heq1 as <- <- <-.
  destruct r as [pc|e|]; [|exact Hq|by apply Hr].
  exists news, (SetOrder.iter order (jump_keys news)).
  pose proof (SetOrder.iter_perm order (jump_keys news)) as Hperm.
  split; [exact Hl|]. split; [exact Hq|]. split; [reflexivity|]. split; [exact Hperm|].
  split.
  - rewrite Hperm. by apply jump_keys_NoDup.
  - intros a Ha. rewrite Hperm in Ha. split.
    + by apply jump_keys_get.
    + apply dict_mem_false. apply Hk. by apply jump_keys_sub.
Qed.

(** The scan of [two_calls_rom], which returns: 4 and 5 appended, each once.
    The scan of [call_then_cut_rom] with the queue [[1]], which raises after
    it has classified 5: the queue is still [[1]]. *)
Lemma C8_witness :
  (exists news appended,
     [(5, LabelType.JUMP); (4, LabelType.JUMP)] = [] ++ news /\
     [4; 5] = [] ++ appended /\
     appended = SetOrder.iter ascending (jump_keys news) /\
     appended ≡ₚ jump_keys news /\
     NoDup appended /\
     (forall a, a ∈ appended ->
        dict_get a news = Some LabelType.JUMP /\
        dict_mem a (@nil (Z * LabelType.t)) = false)) /\
  (CodeAnalyzer.analyze_jumps ascending
     (CodeAnalyzer.init call_then_cut_rom Addresses.init 0 false [] []) 0 [1] false).1.2
  = [1].
Proof.
  split.
  - apply (C8_queue_receives_new_jumps ascending
             (CodeAnalyzer.init two_calls_rom Addresses.init 0 false [] [])
             0 [] false
             (CodeAnalyzer.set_labels
                (CodeAnalyzer.init two_calls_rom Addresses.init 0 false [] [])
                [(5, LabelType.JUMP); (4, LabelType.JUMP)])
             [4; 5] (Ok 7)).
    vm_compute. reflexivity.
  - apply (C8_queue_receives_new_jumps ascending
             (CodeAnalyzer.init call_then_cut_rom Addresses.init 0 false [] [])
             0 [1] false
             (CodeAnalyzer.set_labels
                (CodeAnalyzer.init call_then_cut_rom Addresses.init 0 false [] [])
                [(5, LabelType.JUMP)])
             _ (Raise IndexError)).
    vm_compute. reflexivity.
Defined.

(** ** The namer *)

Section namer_facts.
Import CodeAnalyzer.

Lemma give_auto_label_forwards s item : forwards (give_auto_label s item) = forwards s.
Proof.
  unfold give_auto_label. destruct item as [a k].
  by destruct (Addresses.LABEL (addresses s) !! a).
Qed.

Lemma give_auto_label_names s a k x :
  names (give_auto_label s (a, k)) !! x
  = match names s !! a with
    | Some _ => names s !! x
    | None => if decide (a = x) then Some (auto_name s a k) else names s !! x
    end.
Proof.
  unfold give_auto_label, names.
  destruct (Addresses.LABEL (addresses s) !! a) eqn:Ha; [done|]. simpl.
  destruct (decide (a = x)) as [->|Hne].
  - by rewrite lookup_insert_eq.
  - by rewrite lookup_insert_ne.
Qed.

Lemma names_persist l : forall s x n,
  names s !! x = Some n -> names (foldl give_auto_label s l) !! x = Some n.
Proof.
  induction l as [|[a k] l IH]; cbn [foldl]; intros s x n Hx; [done|].
  apply IH. rewrite give_auto_label_names.
  destruct (names s !! a) eqn:Ha; [done|].
  destruct (decide (a = x)) as [->|Hne]; [congruence|done].
Qed.

Lemma names_untouched l : forall s x,
  x ∉ keys l -> names (foldl give_auto_label s l) !! x = names s !! x.
Proof.
  induction l as [|[a k] l IH]; cbn [foldl]; intros s x Hx; [done|].
  unfold keys in Hx. simpl in Hx. apply not_elem_of_cons in Hx as [Hne Hx].
  rewrite IH by done. rewrite give_auto_label_names.
  destruct (names s !! a); [done|]. destruct (decide (a = x)); [congruence|done].
Qed.

Lemma names_given l : forall s x,
  x ∈ keys l -> is_Some (names (foldl give_auto_label s l) !! x).
Proof.
  induction l as [|[a k] l IH]; cbn [foldl]; intros s x Hx; [inversion Hx|].
  unfold keys in Hx. simpl in Hx.
  destruct (decide (x ∈ keys l)) as [Hin|Hnin]; [by apply IH|].
  apply elem_of_cons in Hx as [->|Hx]; [|done].
  assert (Hs : is_Some (names (give_auto_label s (a, k)) !! a)).
  { rewrite give_auto_label_names. destruct (names s !! a) eqn:Ha; [by eexists|].
    rewrite decide_True by done. by eexists. }
  destruct Hs as [n Hn]. exists n. by apply names_persist.
Qed.

Lemma foldl_forwards l : forall s, forwards (foldl give_auto_label s l) = forwards s.
Proof.
  induction l as [|item l IH]; cbn [foldl]; intros s; [done|].
  by rewrite IH, give_auto_label_forwards.
Qed.

End namer_facts.

(** C9, as stated, fails: no chain is followed. 3 forwards to 6 and 6 to 9;
    6 is named [fwd_0006_jump_0009], but the name of 3 is made of the
    address 6, not of the name of 6. *)
Lemma C9_counterexample :
  CodeAnalyzer.forwards chain_named !! 3 = Some 6 /\
  CodeAnalyzer.forwards chain_named !! 6 = Some 9 /\
  names chain_named !! 6 = Some "fwd_0006_jump_0009" /\
  names chain_named !! 3 = Some "fwd_0003_jump_0006" /\
  names chain_named !! 3 <> Some ("fwd_0003_" +:+ "fwd_0006_jump_0009").
Proof. vm_compute. repeat split; [reflexivity..|discriminate]. Qed.

(** C9, amended. An entry [(a, k)] of the label table without a name gets
    one. With a forwarding entry [a -> fwd] it is [fwd_<a>_] followed by the
    name [fwd] has in the symbol table at that moment of the pass, or, when
    it has none, by the name made of the kind [k] of [a] itself and the
    address [fwd]; no chain is followed. Without a forwarding entry it is
    made of the kind [k] and the address [a]. The name [fwd] has at that
    moment is its final name when [fwd] comes before [a] in the label table,
    and its external name, if any, otherwise. External names stay. *)
Theorem C9_names_given :
  forall self l1 a k l2,
    CodeAnalyzer.labels self = l1 ++ (a, k) :: l2 ->
    a ∉ keys l1 ->
    names self !! a = None ->
    let final := names (CodeAnalyzer.give_auto_labels self) in
    let before := names (foldl CodeAnalyzer.give_auto_label self l1) in
    final !! a
    = Some (match CodeAnalyzer.forwards self !! a with
            | Some fwd =>
                ("fwd_" +:+ utils.fmt_X 4 a +:+ "_")
                +:+ match before !! fwd with
                    | Some known => known
                    | None => utils.auto_label (LabelType.value k) fwd
                    end
            | None => utils.auto_label (LabelType.value k) a
            end) /\
    (forall fwd,
       before !! fwd = if decide (fwd ∈ keys l1) then final !! fwd else names self !! fwd) /\
    (forall x n, names self !! x = Some n -> final !! x = Some n).
Proof.
  intros self l1 a k l2 Hl Ha Hnone final before.
  assert (Hfinal : CodeAnalyzer.give_auto_labels self
                   = foldl CodeAnalyzer.give_auto_label
                       (CodeAnalyzer.give_auto_label
                          (foldl CodeAnalyzer.give_auto_label self l1) (a, k)) l2).
  { unfold CodeAnalyzer.give_auto_labels. by rewrite Hl, foldl_app. }
  split; [|split].
  - unfold final. rewrite Hfinal. apply names_persist.
    rewrite give_auto_label_names, names_untouched, Hnone by done.
    rewrite decide_True by done. unfold CodeAnalyzer.auto_name.
    by rewrite foldl_forwards.
  - intros fwd. destruct (decide (fwd ∈ keys l1)) as [Hin|Hnin].
    + destruct (names_given l1 self fwd Hin) as [n Hn]. unfold before. rewrite Hn.
      symmetry. unfold final. rewrite Hfinal. apply names_persist.
      rewrite give_auto_label_names.
      destruct (names (foldl CodeAnalyzer.give_auto_label self l1) !! a); [done|].
      destruct (decide (a = fwd)) as [->|Hne]; [by destruct Ha|done].
    + by apply names_untouched.
  - intros x n Hx. by apply names_persist.
Qed.

(** The entry of 3 in the chain: its name is made of the address 6. *)
Lemma C9_witness :
  names chain_named !! 3 = Some "fwd_0003_jump_0006".
Proof.
  pose (self := (scan_calls ascending [(0, false); (3, false); (6, false); (9, false)]
                   (CodeAnalyzer.init chain_rom Addresses.init 0 false [] []) []).1).
  refine (proj1 (C9_names_given self [] 3 LabelType.JUMP
                   [(6, LabelType.JUMP); (9, LabelType.JUMP)] _ _ _)).
  - vm_compute. reflexivity.
  - apply not_elem_of_nil.
  - vm_compute. reflexivity.
Defined.

(** ** The worklist *)

Section worklist_facts.
Import CodeAnalyzer.

Lemma covers_targets rom offset : covers (is_target rom offset) rom offset.
Proof.
  intros pc val hint Hin _. unfold is_target, targets.
  apply list_elem_of_bind. exists pc. split.
  - unfold label_vals. apply list_elem_of_omap. exists (LABEL, val, hint).
    split; [done|]. cbn. by destruct (decide (LABEL = LABEL)).
  - apply elem_of_seqZ. unfold decoded_at in Hin.
    destruct (getitem rom pc) as [code| |] eqn:Hcode;
      [|exfalso; inversion Hin..].
    apply getitem_range in Hcode. lia.
Qed.

Lemma decode_prefix_one_label iargs : forall analyzer,
  label_last iargs = true ->
  (length (label_vals (decode_prefix analyzer iargs)) <= 1)%nat.
Proof.
  induction iargs as [|iarg iargs IH]; simpl; intros analyzer Hlast; [lia|].
  destruct (InstrArgsAnalyzer.next_arg analyzer iarg)
    as [analyzer' [[[[arg val] hint]|]| |]] eqn:Hn; simpl; try lia.
  destruct iargs as [|iarg' iargs].
  - simpl. destruct (decide (arg = LABEL)); simpl; lia.
  - unfold label_last in Hlast. simpl in Hlast.
    apply andb_true_iff in Hlast as [Hkind Hlast].
    apply next_arg_kind in Hn. apply negb_true_iff in Hkind. rewrite Hkind in Hn.
    rewrite decide_False by (subst arg; by destruct iarg).
    by apply IH.
Qed.

Lemma decoded_at_one_label rom offset pc :
  (length (label_vals (decoded_at rom offset pc)) <= 1)%nat.
Proof.
  unfold decoded_at. destruct (getitem rom pc) as [code| |]; simpl; try lia.
  destruct (catalog !! code) as [instr|] eqn:Hinstr; simpl; [|lia].
  apply decode_prefix_one_label. by eapply catalog_label_last.
Qed.

Lemma length_bind_le {A B} (f : A -> list B) (l : list A) :
  (forall x, (length (f x) <= 1)%nat) -> (length (l ≫= f) <= length l)%nat.
Proof.
  intros Hf. induction l as [|x l IH]; [done|].
  rewrite bind_cons, List.length_app. specialize (Hf x). simpl. lia.
Qed.

Lemma targets_length rom offset : (length (targets rom offset) <= 2 * length rom)%nat.
Proof.
  unfold targets.
  etransitivity; [apply length_bind_le, decoded_at_one_label|].
  rewrite length_seqZ. unfold len. lia.
Qed.

Lemma size_list_to_set_le (l : list Z) : (size (list_to_set l : gset Z) <= length l)%nat.
Proof.
  induction l as [|x l IH].
  - rewrite list_to_set_nil, size_empty. done.
  - rewrite list_to_set_cons, size_union_alt, size_singleton.
    assert (Hsub : list_to_set l ∖ {[x]} ⊆ (list_to_set l : gset Z)).
    { intros k Hk. by apply elem_of_difference in Hk as [Hk _]. }
    apply subseteq_size in Hsub. simpl. lia.
Qed.

Lemma pending_le s : (pending s <= 2 * length (rom s))%nat.
Proof.
  unfold pending.
  transitivity (size (list_to_set (targets (rom s) (offset s)) : gset Z)).
  - apply subseteq_size. intros k Hk. by apply elem_of_difference in Hk as [Hk _].
  - etransitivity; [apply size_list_to_set_le|apply targets_length].
Qed.

Lemma pending_grows s s' news :
  frame s s' ->
  labels s' = labels s ++ news ->
  NoDup (keys news) ->
  (forall k, k ∈ keys news -> (k ∉ keys (labels s)) /\ is_target (rom s) (offset s) k) ->
  (length news + pending s' = pending s)%nat.
Proof.
  intros (Hrom & _ & Hoff & _) Hl Hnd Hk. unfold pending.
  rewrite Hrom, Hoff, Hl. unfold keys in *. rewrite fmap_app, list_to_set_app_L.
  set (T := list_to_set (targets (rom s) (offset s)) : gset Z).
  set (L := list_to_set (labels s).*1 : gset Z).
  set (N := list_to_set news.*1 : gset Z).
  assert (HN : size N = length news).
  { unfold N. rewrite size_list_to_set by done. by rewrite length_fmap. }
  assert (Hsub : N ⊆ T ∖ L).
  { intros k Hin. unfold N in Hin. apply elem_of_list_to_set in Hin.
    apply Hk in Hin as [Hnot Hin]. apply elem_of_difference. split.
    - by apply elem_of_list_to_set.
    - unfold L. by rewrite elem_of_list_to_set. }
  replace (T ∖ (L ∪ N)) with ((T ∖ L) ∖ N).
  2:{ apply set_eq. intros k. rewrite !elem_of_difference, elem_of_union. tauto. }
  rewrite size_difference by done.
  pose proof (subseteq_size _ _ Hsub). lia.
Qed.

Lemma jump_keys_length d : (length (jump_keys d) <= length d)%nat.
Proof. unfold jump_keys. rewrite length_fmap. apply length_filter. Qed.

End worklist_facts.

Section worklist_run.
Import CodeAnalyzer.
Variables (order : SetOrder.t) (pick : list Z -> nat).

(** One run of the worklist from [(s, queue, log)]: it ends, the label table
    has grown by as many entries as [pending] has dropped, and the log has
    received addresses that were not in the label table. *)
Lemma worklist_run fuel : forall s queue log,
  (length queue + pending s < fuel)%nat ->
  NoDup log ->
  (forall a, a ∈ log -> a ∈ keys (labels s)) ->
  exists s' log' r,
    worklist order pick fuel s queue log = ((s', log'), r) /\
    r <> OutOfFuel /\ frame s s' /\
    NoDup log' /\
    (forall a, a ∈ log' -> a ∈ keys (labels s')) /\
    exists news added,
      labels s' = labels s ++ news /\
      (length news + pending s' = pending s)%nat /\
      log' = log ++ added /\
      forall a, a ∈ added -> a ∉ keys (labels s).
Proof.
  induction fuel as [|fuel IH]; intros s queue log Hfuel Hnd Hlog; [lia|].
  simpl. destruct queue as [|q0 queue0] eqn:Hqueue.
  { eexists _, _, _. split; [done|]. split; [done|]. split; [apply frame_refl|].
    split; [done|]. split; [done|]. exists [], []. rewrite !app_nil_r.
    split; [done|]. split; [done|]. split; [done|]. intros a Ha. inversion Ha. }
  rewrite <- Hqueue in *. clear Hqueue q0 queue0.
  destruct (queue !! pick queue) as [start|] eqn:Hpick.
  2:{ eexists _, _, _. split; [done|]. split; [done|]. split; [apply frame_refl|].
      split; [done|]. split; [done|]. exists [], []. rewrite !app_nil_r.
      split; [done|]. split; [done|]. split; [done|]. intros a Ha. inversion Ha. }
  assert (Hrest : S (length (delete (pick queue) queue)) = length queue).
  { rewrite length_delete by (by eexists).
    apply lookup_lt_Some in Hpick. lia. }
  destruct (analyze_jumps_post (is_target (rom s) (offset s)) order s start
              (delete (pick queue) queue) false (covers_targets _ _))
    as (s1 & q1 & r1 & Heq & Hf1 & Hr1 & news1 & Hl1 & Hnd1 & Hk1 & Hq1).
  rewrite Heq.
  pose proof (pending_grows s s1 news1 Hf1 Hl1 Hnd1 Hk1) as Hp1.
  destruct r1 as [pc| |]; [| |done].
  2:{ eexists _, _, _. split; [done|]. split; [done|]. split; [done|].
      split; [done|]. split.
      - intros a Ha. rewrite Hl1. unfold keys. rewrite fmap_app.
        apply elem_of_app. left. by apply Hlog.
      - exists news1, []. rewrite app_nil_r. split; [done|]. split; [done|].
        split; [done|]. intros a Ha. inversion Ha. }
  subst q1. rewrite drop_app_length.
  set (appended := SetOrder.iter order (jump_keys news1)).
  assert (Hperm : appended ≡ₚ jump_keys news1) by apply SetOrder.iter_perm.
  assert (Happ : forall a, a ∈ appended -> a ∈ keys news1).
  { intros a Ha. rewrite Hperm in Ha. by apply jump_keys_sub. }
  destruct (IH s1 (delete (pick queue) queue ++ appended) (log ++ appended))
    as (s2 & log2 & r2 & Hw & Hr2 & Hf2 & Hnd2 & Hlog2 & news2 & added2 & Hl2 & Hp2 & Hadd2 & Hfresh2).
  - rewrite length_app, Hperm.
    pose proof (jump_keys_length news1). lia.
  - apply NoDup_app. split; [done|]. split.
    + intros a Ha Ha'. apply Happ, Hk1 in Ha' as [Hnot _]. by apply Hnot, Hlog.
    + rewrite Hperm. by apply jump_keys_NoDup.
  - intros a Ha. rewrite Hl1. unfold keys. rewrite fmap_app. apply elem_of_app.
    apply elem_of_app in Ha as [Ha|Ha]; [left; by apply Hlog|right; by apply Happ].
  - eexists _, _, _. split; [exact Hw|]. split; [done|].
    split; [by eapply frame_trans|]. split; [done|]. split; [done|].
    exists (news1 ++ news2), (appended ++ added2).
    split; [by rewrite Hl2, Hl1, app_assoc|].
    split; [rewrite length_app; lia|]. split; [by rewrite Hadd2, app_assoc|].
    intros a Ha. apply elem_of_app in Ha as [Ha|Ha].
    + by apply Happ, Hk1 in Ha as [Hnot _].
    + apply Hfresh2 in Ha. intros Hin. apply Ha. rewrite Hl1. unfold keys.
      rewrite fmap_app. apply elem_of_app. by left.
Qed.

End worklist_run.

(** C3, as stated, fails: the label table is not bounded by the length of the
    ROM. With the three bytes of [pointer_rom] declared indirect targets, the
    table holds three entries before the first scan and four after it. *)
Lemma C3_counterexample :
  let self := CodeAnalyzer.init pointer_rom Addresses.init 0 false [] [0; 1; 2] in
  let '((self', log), r) := worklist ascending (fun _ => 0%nat) 8 self [0] [] in
  r = Ok tt /\
  CodeAnalyzer.labels self'
    = [(0, LabelType.ADDR); (1, LabelType.ADDR); (2, LabelType.ADDR); (0x10, LabelType.DPTR)] /\
  ~ (length (CodeAnalyzer.labels self') <= length (CodeAnalyzer.rom self'))%nat.
Proof. vm_compute. repeat split; [reflexivity..|lia]. Qed.

(** C3, amended. A scan call never shrinks the label table. The worklist
    started with any queue comes to its end (the queue is empty, or a call
    raised) within [length queue + 2 * length rom] scan calls; the label table
    then holds the entries it had, followed by new ones, at most
    [2 * length rom] of them; no address was appended to the queue twice, and
    each one appended was absent from the label table at the start and is in
    it at the end. *)
Theorem C3_worklist_terminates :
  forall order pick self queue fuel,
    (length queue + 2 * length (CodeAnalyzer.rom self) < fuel)%nat ->
    (forall start q force,
       (length (CodeAnalyzer.labels self)
        <= length (CodeAnalyzer.labels
                     (CodeAnalyzer.analyze_jumps order self start q force).1.1))%nat) /\
    exists self' log r,
      worklist order pick fuel self queue [] = ((self', log), r) /\
      r <> OutOfFuel /\
      (exists news, CodeAnalyzer.labels self' = CodeAnalyzer.labels self ++ news) /\
      (length (CodeAnalyzer.labels self)
       <= length (CodeAnalyzer.labels self')
       <= length (CodeAnalyzer.labels self) + 2 * length (CodeAnalyzer.rom self))%nat /\
      NoDup log /\
      forall a, a ∈ log ->
        dict_mem a (CodeAnalyzer.labels self) = false /\
        dict_mem a (CodeAnalyzer.labels self') = true.
Proof.
  intros order pick self queue fuel Hfuel. split.
  - intros start q force.
    destruct (analyze_jumps_post (fun _ => True) order self start q force
                (covers_True _ _)) as (s' & q' & r & Heq & _ & _ & news & Hl & _).
    rewrite Heq. simpl. rewrite Hl, length_app. lia.
  - pose proof (pending_le self) as Hp.
    destruct (worklist_run order pick fuel self queue [])
      as (s' & log & r & Hw & Hr & Hf & Hnd & Hlog & news & added & Hl & Hpend & Hadd & Hfresh).
    + lia.
    + constructor.
    + intros a Ha. inversion Ha.
    + exists s', log, r. split; [done|]. split; [done|].
      split; [by exists news|]. split; [rewrite Hl, length_app; lia|].
      split; [done|]. intros a Ha. split.
      * apply dict_mem_false. apply Hfresh. rewrite Hadd in Ha. exact Ha.
      * apply dict_mem_keys. by apply Hlog.
Qed.

(** The worklist on the chain of trampolines, popping the last address. *)
Lemma C3_witness :
  exists self' log r,
    worklist ascending (fun q => (length q - 1)%nat) 30
      (CodeAnalyzer.init chain_rom Addresses.init 0 false [] []) [0] []
      = ((self', log), r) /\
    r <> OutOfFuel /\
    (exists news, CodeAnalyzer.labels self' = [] ++ news) /\
    (0 <= length (CodeAnalyzer.labels self') <= 0 + 2 * 10)%nat /\
    NoDup log /\
    forall a, a ∈ log ->
      dict_mem a (@nil (Z * LabelType.t)) = false /\
      dict_mem a (CodeAnalyzer.labels self') = true.
Proof.
  refine (proj2 (C3_worklist_terminates ascending (fun q => (length q - 1)%nat)
                   (CodeAnalyzer.init chain_rom Addresses.init 0 false [] []) [0] 30%nat _)).
  vm_compute. lia.
Defined.

(** ** What the decoder resolves *)

Section decoder_values.
Import InstrArgsAnalyzer.

Lemma getitem_byte_val rom i v : getitem rom i = Ok v -> exists b, v = byte_val b.
Proof.
  unfold getitem. intros H.
  destruct ((_ <? 0) || (len rom <=? _)); [discriminate|].
  destruct (rom !! _) as [b|]; [|discriminate].
  exists b. by injection H.
Qed.

(** Two numbers without a common bit: [|] adds them. *)
Lemma lor_disjoint a b : Z.land a b = 0 -> Z.lor a b = a + b.
Proof.
  intros H. rewrite <- Z.lxor_lor by done. symmetry. by apply Z.add_nocarry_lxor.
Qed.

Lemma land_shiftl8_byte hi lo : 0 <= lo < 256 -> Z.land (Z.shiftl hi 8) lo = 0.
Proof.
  intros Hlo. apply Z.bits_inj'. intros n Hn.
  rewrite Z.land_spec, Z.bits_0.
  destruct (Z.ltb_spec n 8) as [Hlt|Hge].
  - rewrite Z.shiftl_spec_low by lia. done.
  - replace lo with (lo mod 2 ^ 8) by (apply Z.mod_small; lia).
    rewrite Z.mod_pow2_bits_high by lia. apply andb_false_r.
Qed.

Lemma lor_shiftl8_byte hi lo : 0 <= lo < 256 -> Z.lor (Z.shiftl hi 8) lo = 256 * hi + lo.
Proof.
  intros Hlo. rewrite lor_disjoint by (by apply land_shiftl8_byte).
  rewrite Z.shiftl_mul_pow2 by lia. lia.
Qed.

Lemma lor_shiftl_low n hi lo :
  0 <= n -> 0 <= lo < 2 ^ n -> Z.lor (Z.shiftl hi n) lo = 2 ^ n * hi + lo.
Proof.
  intros Hn Hlo. rewrite lor_disjoint.
  - rewrite Z.shiftl_mul_pow2 by lia. lia.
  - apply Z.bits_inj'. intros m Hm.
    rewrite Z.land_spec, Z.bits_0.
    destruct (Z.ltb_spec m n) as [Hlt|Hge].
    + rewrite Z.shiftl_spec_low by lia. done.
    + replace lo with (lo mod 2 ^ n) by (apply Z.mod_small; lia).
      rewrite Z.mod_pow2_bits_high by lia. apply andb_false_r.
Qed.

(** The page of a 16-bit address: its bits 11 to 15. *)
Lemma land_page a : 0 <= a < 65536 -> Z.land a 0xF800 = 2048 * (a / 2048).
Proof.
  intros Ha.
  assert (Hsplit : a = Z.lor (Z.land a 0xF800) (Z.land a 0x7FF)).
  { rewrite <- Z.land_lor_distr_r. change (Z.lor 0xF800 0x7FF) with (Z.ones 16).
    rewrite Z.land_ones by lia. symmetry. apply Z.mod_small. lia. }
  rewrite lor_disjoint in Hsplit.
  - change 0x7FF with (Z.ones 11) in Hsplit. rewrite Z.land_ones in Hsplit by lia.
    pose proof (Z.div_mod a 2048). change (2 ^ 11) with 2048 in Hsplit. lia.
  - apply Z.bits_inj'. intros m Hm. rewrite !Z.land_spec, Z.bits_0.
    assert (Hmask : Z.testbit 0xF800 m && Z.testbit 0x7FF m = false).
    { rewrite <- Z.land_spec. change (Z.land 0xF800 0x7FF) with 0. apply Z.bits_0. }
    destruct (Z.testbit a m), (Z.testbit 0xF800 m), (Z.testbit 0x7FF m); done.
Qed.

Lemma opcode_page_bits b :
  Z.land (Z.shiftl (byte_val b) 3) 0x700 = Z.shiftl (byte_val b / 32) 8 /\
  0 <= byte_val b / 32 < 8.
Proof.
  destruct b; vm_compute; (split; [reflexivity|split; [discriminate|reflexivity]]).
Qed.

(** An [AbsoluteLongLabel] operand is the big-endian 16-bit number of its two
    bytes, less the bias. *)
Theorem next_arg_label_value self self' arg val hint :
  next_arg self LABEL = (self', Ok (Some (arg, val, hint))) ->
  exists hi lo,
    getitem (rom self) (pc_arg self) = Ok hi /\
    getitem (rom self) (pc_arg self + 1) = Ok lo /\
    arg = LABEL /\ hint = "" /\
    val = 256 * hi + lo - offset self /\
    - offset self <= val <= 65535 - offset self /\
    pc_arg self' = pc_arg self + 2.
Proof.
  unfold next_arg. intros H.
  destruct (len (rom self) <=? pc self); [discriminate|].
  destruct (getitem (rom self) (pc_arg self)) as [hi| |] eqn:Hhi; try discriminate.
  cbn in H.
  destruct (len (rom self) <=? pc_arg self + 1); [discriminate|].
  destruct (getitem (rom self) (pc_arg self + 1)) as [lo| |] eqn:Hlo; try discriminate.
  injection H as <- <- <- <-.
  pose proof (getitem_byte _ _ _ Hhi). pose proof (getitem_byte _ _ _ Hlo).
  exists hi, lo. rewrite lor_shiftl8_byte by done. cbn.
  repeat split; lia.
Qed.

Lemma next_arg_label_value_witness :
  exists hi lo,
    getitem [Byte.x02; Byte.x12; Byte.x34] 1 = Ok hi /\
    getitem [Byte.x02; Byte.x12; Byte.x34] (1 + 1) = Ok lo /\
    LABEL = LABEL /\ "" = "" /\
    0x1134 = 256 * hi + lo - 0x100 /\
    - 0x100 <= 0x1134 <= 65535 - 0x100 /\
    3 = 1 + 2.
Proof.
  apply (next_arg_label_value
           (init [Byte.x02; Byte.x12; Byte.x34] 0 3 0x100)
           (mk [Byte.x02; Byte.x12; Byte.x34] 0 3 0x100 3) LABEL 0x1134 "").
  vm_compute. reflexivity.
Defined.

(** A [RelativeLabel] operand is the byte read as a two's-complement number,
    added to the address of the next instruction; a decoded target is never
    negative. *)
Theorem next_arg_rel_value self self' arg val hint :
  next_arg self REL = (self', Ok (Some (arg, val, hint))) ->
  exists raw,
    getitem (rom self) (pc_arg self) = Ok raw /\
    arg = LABEL /\ hint = "" /\
    0 <= val /\
    -128 <= val - pc_rel self <= 127 /\
    (val - pc_rel self) mod 256 = raw /\
    pc_arg self' = pc_arg self + 1.
Proof.
  unfold next_arg. intros H.
  destruct (len (rom self) <=? pc self); [discriminate|].
  destruct (getitem (rom self) (pc_arg self)) as [raw| |] eqn:Hraw; try discriminate.
  cbn in H.
  destruct (Z.ltb_spec (pc_rel self + (if 128 <=? raw then raw - 256 else raw)) 0)
    as [Hneg|Hpos]; [discriminate|].
  injection H as <- <- <- <-.
  pose proof (getitem_byte _ _ _ Hraw) as Hb.
  exists raw. cbn.
  destruct (Z.leb_spec 128 raw) as [Hhigh|Hlow].
  - repeat split; try lia.
    replace (pc_rel self + (raw - 256) - pc_rel self) with (raw + (-1) * 256) by lia.
    rewrite Z.mod_add by lia. apply Z.mod_small. lia.
  - repeat split; try lia.
    replace (pc_rel self + raw - pc_rel self) with raw by lia.
    apply Z.mod_small. lia.
Qed.

Lemma next_arg_rel_value_witness :
  exists raw,
    getitem [Byte.x80; Byte.xfe] 1 = Ok raw /\
    LABEL = LABEL /\ "" = "" /\
    0 <= 0 /\
    -128 <= 0 - 2 <= 127 /\
    (0 - 2) mod 256 = raw /\
    2 = 1 + 1.
Proof.
  apply (next_arg_rel_value (init [Byte.x80; Byte.xfe] 0 2 0)
           (mk [Byte.x80; Byte.xfe] 0 2 0 2) LABEL 0 "").
  vm_compute. reflexivity.
Defined.

(** A [ShortPageLabel] operand stays in the 2 KiB page of the next
    instruction: the page of [pc_rel], then the three high bits of the opcode
    and the operand byte as the 11-bit offset in the page. *)
Theorem next_arg_addr_value self self' arg val hint :
  0 <= pc_rel self < 65536 ->
  next_arg self ADDR = (self', Ok (Some (arg, val, hint))) ->
  exists raw opcode,
    getitem (rom self) (pc_arg self) = Ok raw /\
    getitem (rom self) (pc self) = Ok opcode /\
    arg = LABEL /\
    val = 2048 * (pc_rel self / 2048) + 256 * (opcode / 32) + raw /\
    val / 2048 = pc_rel self / 2048 /\
    val mod 2048 = 256 * (opcode / 32) + raw.
Proof.
  unfold next_arg. intros Hrel H.
  destruct (len (rom self) <=? pc self); [discriminate|].
  destruct (getitem (rom self) (pc_arg self)) as [raw| |] eqn:Hraw; try discriminate.
  cbn in H.
  destruct (getitem (rom self) (pc self)) as [opcode| |] eqn:Hop; try discriminate.
  injection H as <- <- <- <-.
  pose proof (getitem_byte _ _ _ Hraw) as Hb.
  destruct (getitem_byte_val _ _ _ Hop) as [b ->].
  destruct (opcode_page_bits b) as [Hbits Hk].
  exists raw, (byte_val b). cbn.
  assert (Hval : Z.lor (Z.lor (Z.land (pc_rel self) 63488) raw)
                   (Z.land (Z.shiftl (byte_val b) 3) 1792)
                 = 2048 * (pc_rel self / 2048) + 256 * (byte_val b / 32) + raw).
  { rewrite Hbits, land_page by done.
    rewrite <- Z.lor_assoc, (Z.lor_comm raw), Z.lor_assoc.
    replace (2048 * (pc_rel self / 2048)) with (Z.shiftl (Z.shiftl (pc_rel self / 2048) 3) 8)
      by (rewrite !Z.shiftl_mul_pow2 by lia; lia).
    rewrite <- Z.shiftl_lor, (lor_shiftl_low 3) by lia.
    rewrite lor_shiftl8_byte by done.
    rewrite !Z.shiftl_mul_pow2 by lia. change (2 ^ 3) with 8. change (2 ^ 8) with 256.
    lia. }
  rewrite Hval. split; [done|]. split; [done|]. split; [done|]. split; [done|].
  assert (Hlow : 0 <= 256 * (byte_val b / 32) + raw < 2048) by lia.
  split.
  - replace (2048 * (pc_rel self / 2048) + 256 * (byte_val b / 32) + raw)
      with ((256 * (byte_val b / 32) + raw) + (pc_rel self / 2048) * 2048) by lia.
    rewrite Z.div_add by lia. rewrite Z.div_small by done. lia.
  - replace (2048 * (pc_rel self / 2048) + 256 * (byte_val b / 32) + raw)
      with ((256 * (byte_val b / 32) + raw) + (pc_rel self / 2048) * 2048) by lia.
    rewrite Z.mod_add by lia. by apply Z.mod_small.
Qed.

Lemma next_arg_addr_value_witness :
  exists raw opcode,
    getitem page_jump_rom 0x101 = Ok raw /\
    getitem page_jump_rom 0x100 = Ok opcode /\
    LABEL = LABEL /\
    0x34 = 2048 * (0x102 / 2048) + 256 * (opcode / 32) + raw /\
    0x34 / 2048 = 0x102 / 2048 /\
    0x34 mod 2048 = 256 * (opcode / 32) + raw.
Proof.
  apply (next_arg_addr_value (init page_jump_rom 0x100 0x102 0)
           (mk page_jump_rom 0x100 0x102 0 0x102) LABEL 0x34 "").
  - vm_compute. split; [discriminate|reflexivity].
  - vm_compute. reflexivity.
Defined.

End decoder_values.

(** ** The footprint of a scan *)

Section scan_invariants.
Import CodeAnalyzer.
Variables (start : Z) (R : t -> t -> Prop).
Hypothesis R_refl : forall s, R s s.
Hypothesis R_trans : forall s1 s2 s3, R s1 s2 -> R s2 s3 -> R s1 s3.
Hypothesis R_classify : forall instr pc arg val s jumps jump_out,
  R s (classify instr pc start arg val (s, jumps, jump_out)).1.1.

Lemma analyze_args_R instr pc iargs : forall analyzer s jumps jump_out,
  R s (analyze_args instr pc start analyzer iargs (s, jumps, jump_out)).1.1.1.
Proof.
  induction iargs as [|iarg iargs IH]; intros analyzer s jumps jump_out;
    cbn [analyze_args]; [apply R_refl|].
  destruct (InstrArgsAnalyzer.next_arg analyzer iarg)
    as [analyzer' [[[[arg val] hint]|]| |]]; try apply R_refl.
  pose proof (R_classify instr pc arg val s jumps jump_out) as Hc.
  destruct (classify instr pc start arg val (s, jumps, jump_out)) as [[s1 j1] jo1].
  eapply R_trans; [exact Hc|apply IH].
Qed.

Lemma analyze_instr_R instr pc force s jumps :
  R s (analyze_instr instr pc start force s jumps).1.1.
Proof.
  unfold analyze_instr.
  destruct (truthy_args (Instruction.args instr)) as [|iarg iargs]; [apply R_refl|].
  pose proof (analyze_args_R instr pc (iarg :: iargs)
                (InstrArgsAnalyzer.init (rom s) pc (pc + Instruction.length instr) (offset s))
                s jumps (Instruction.jump_out instr && negb force)) as Ha.
  destruct (analyze_args _ _ _ _ _ _) as [[[s1 j1] jo1] r]. exact Ha.
Qed.

Lemma analyze_loop_R force fuel : forall pc s jumps,
  R s (analyze_loop fuel start pc force s jumps).1.1.
Proof.
  induction fuel as [|fuel IH]; intros pc s jumps; cbn [analyze_loop]; [apply R_refl|].
  destruct (pc <? len (rom s)); [|apply R_refl].
  destruct (getitem (rom s) pc) as [code| |]; try apply R_refl.
  destruct (catalog !! code) as [instr|]; [|apply R_refl].
  pose proof (analyze_instr_R instr pc force s jumps) as Ha.
  destruct (analyze_instr instr pc start force s jumps) as [[s1 j1] [[next jo]| |]];
    try exact Ha.
  destruct jo; [exact Ha|].
  eapply R_trans; [exact Ha|apply IH].
Qed.

Lemma analyze_jumps_R order force s queue :
  R s (analyze_jumps order s start queue force).1.1.
Proof.
  unfold analyze_jumps.
  pose proof (analyze_loop_R force (S (Z.to_nat (len (rom s) - start))) start s []) as Hl.
  destruct (analyze_loop _ _ _ _ _ _) as [[s1 j1] [pc| |]]; exact Hl.
Qed.

End scan_invariants.

Section scan_footprint.
Import CodeAnalyzer.

Lemma forwards_at_refl start s : forwards_at start s s.
Proof. split; [done|]. split; [done|]. intros target H. by left. Qed.

Lemma forwards_at_trans start s1 s2 s3 :
  forwards_at start s1 s2 -> forwards_at start s2 s3 -> forwards_at start s1 s3.
Proof.
  intros (Hl1 & Hk1 & Ht1) (Hl2 & Hk2 & Ht2). split; [|split].
  - intros k Hk. by apply Hl2, Hl1.
  - intros k Hk. by rewrite Hk2, Hk1.
  - intros target H. apply Ht2 in H as [H|H]; [|by right].
    apply Ht1 in H as [H|[Hne Hin]]; [by left|right].
    split; [done|]. by apply Hl2.
Qed.

Lemma keys_dict_set (k : Z) (v : LabelType.t) (d : list (Z * LabelType.t)) x :
  x ∈ keys d \/ x = k -> x ∈ keys (dict_set k v d).
Proof.
  unfold keys. induction d as [|[k' v'] d IH]; cbn [dict_set].
  - intros [H| ->]; [inversion H|]. cbn. left.
  - destruct (Z.eqb_spec k k') as [->|Hne]; cbn.
    + intros [H| ->]; [exact H|left].
    + intros [H| ->].
      * apply elem_of_cons in H as [-> |H]; [left|right; apply IH; by left].
      * right. apply IH. by right.
Qed.

Lemma classify_forwards_at start instr pc arg val s jumps jump_out :
  forwards_at start s (classify instr pc start arg val (s, jumps, jump_out)).1.1.
Proof.
  unfold classify.
  destruct (bool_decide (arg = LABEL) && negb (val =? pc)) eqn:Hc;
    [|apply forwards_at_refl].
  apply andb_true_iff in Hc as [_ Hval]. apply negb_true_iff, Z.eqb_neq in Hval.
  destruct (Instruction.no_jump instr).
  - destruct (dict_mem val (labels s)) eqn:Hm; cbn; [apply forwards_at_refl|].
    split; [|split]; cbn.
    + intros k Hk. apply keys_dict_set. by left.
    + done.
    + intros target H. by left.
  - destruct (Z.eqb_spec pc start) as [->|Hne]; cbn [andb].
    + destruct (Instruction.jump_out instr).
      * destruct (dict_mem val (labels (set_forwards s (<[start:=val]> (forwards s)))))
          eqn:Hm; cbn in Hm |- *.
        -- split; [done|]. split; cbn.
           ++ intros k Hk. by rewrite lookup_insert_ne.
           ++ intros target H. rewrite lookup_insert_eq in H. injection H as <-.
              right. split; [done|]. by apply dict_mem_keys.
        -- split; [|split]; cbn.
           ++ intros k Hk. apply keys_dict_set. by left.
           ++ intros k Hk. by rewrite lookup_insert_ne.
           ++ intros target H. rewrite lookup_insert_eq in H. injection H as <-.
              right. split; [done|]. apply keys_dict_set. by right.
      * destruct (dict_mem val (labels s)) eqn:Hm; cbn; [apply forwards_at_refl|].
        split; [|split]; cbn.
        -- intros k Hk. apply keys_dict_set. by left.
        -- done.
        -- intros target H. by left.
    + destruct (dict_mem val (labels s)) eqn:Hm; cbn; [apply forwards_at_refl|].
      split; [|split]; cbn.
      * intros k Hk. apply keys_dict_set. by left.
      * done.
      * intros target H. by left.
Qed.

(** A scan call writes the label table and the forwarding entry of its own
    start address, nothing else: the ROM, the symbol table, the bias, the
    warning set, the no-return set and both output streams are as they were;
    every forwarding entry but the one of [start] is as it was, and a new
    target of [start] is another address, present in the label table. *)
Theorem analyze_jumps_footprint order s start queue force :
  let s' := (analyze_jumps order s start queue force).1.1 in
  frame s s' /\
  (forall k, k <> start -> forwards s' !! k = forwards s !! k) /\
  (forall target, forwards s' !! start = Some target ->
     forwards s !! start = Some target \/
     (target <> start /\ dict_mem target (labels s') = true)).
Proof.
  intros s'. split; [|split].
  - destruct (analyze_jumps_post (fun _ => True) order s start queue force
                (covers_True _ _)) as (s1 & q1 & r & Heq & Hf & _).
    unfold s'. rewrite Heq. exact Hf.
  - apply (analyze_jumps_R start (forwards_at start) (forwards_at_refl start)
             (forwards_at_trans start) (classify_forwards_at start) order force s queue).
  - intros target H.
    destruct (analyze_jumps_R start (forwards_at start) (forwards_at_refl start)
                (forwards_at_trans start) (classify_forwards_at start) order force s queue)
      as (_ & _ & Ht).
    apply Ht in H as [H|[Hne Hin]]; [by left|right].
    split; [done|]. by apply dict_mem_keys.
Qed.

End scan_footprint.

(** ** How a scan ends *)

Section scan_end.
Import CodeAnalyzer.

Lemma getitem_raises rom i e : getitem rom i = Raise e -> e = IndexError.
Proof.
  unfold getitem. destruct (_ || _); [congruence|].
  destruct (rom !! _); [discriminate|congruence].
Qed.

Lemma next_arg_raises analyzer iarg e :
  snd (InstrArgsAnalyzer.next_arg analyzer iarg) = Raise e -> e = IndexError.
Proof.
  unfold InstrArgsAnalyzer.next_arg.
  destruct (len _ <=? _); [discriminate|].
  destruct (getitem _ _) as [val| |] eqn:H1; cbn;
    [|intros H; injection H as <-; by apply getitem_raises in H1|discriminate].
  destruct iarg; cbn; try discriminate.
  - destruct (len _ <=? _); [discriminate|].
    destruct (getitem _ (_ + 1)) eqn:H2; cbn; [discriminate| |discriminate].
    intros H; injection H as <-. by apply getitem_raises in H2.
  - destruct (_ <? 0); discriminate.
  - destruct (getitem _ (InstrArgsAnalyzer.pc _)) eqn:H2; cbn; [discriminate| |discriminate].
    intros H; injection H as <-. by apply getitem_raises in H2.
Qed.

Lemma analyze_args_status instr pc start iargs : forall analyzer st,
  snd (analyze_args instr pc start analyzer iargs st)
  = match snd (decode_all analyzer iargs) with
    | Ok _ => Ok tt
    | Raise e => Raise e
    | OutOfFuel => OutOfFuel
    end.
Proof.
  induction iargs as [|iarg iargs IH]; intros analyzer st;
    cbn [analyze_args decode_all]; [reflexivity|].
  destruct (InstrArgsAnalyzer.next_arg analyzer iarg)
    as [analyzer' [[[[arg val] hint]|]| |]]; try reflexivity.
  apply IH.
Qed.

Lemma decode_all_raises iargs : forall analyzer e,
  snd (decode_all analyzer iargs) = Raise e -> e = IndexError.
Proof.
  induction iargs as [|iarg iargs IH]; intros analyzer e; cbn [decode_all];
    [discriminate|].
  pose proof (next_arg_raises analyzer iarg) as Hn.
  destruct (InstrArgsAnalyzer.next_arg analyzer iarg)
    as [analyzer' [[v|]| |]]; cbn in Hn |- *; try discriminate.
  - apply IH.
  - intros H. injection H as <-. by apply Hn.
Qed.

Lemma analyze_instr_raises instr pc start force s jumps e :
  snd (analyze_instr instr pc start force s jumps) = Raise e -> e = IndexError.
Proof.
  unfold analyze_instr.
  destruct (truthy_args (Instruction.args instr)) as [|iarg iargs]; [discriminate|].
  pose proof (analyze_args_status instr pc start (iarg :: iargs)
                (InstrArgsAnalyzer.init (rom s) pc (pc + Instruction.length instr) (offset s))
                (s, jumps, Instruction.jump_out instr && negb force)) as Hs.
  pose proof (decode_all_raises (iarg :: iargs)
                (InstrArgsAnalyzer.init (rom s) pc (pc + Instruction.length instr) (offset s)))
    as Hd.
  destruct (analyze_args _ _ _ _ _ _) as [[[s1 j1] jo1] r]. cbn [snd] in Hs. subst r.
  destruct (snd (decode_all _ _)) as [b|e'|]; cbn [snd bind]; try discriminate.
  intros H. injection H as <-. by apply Hd.
Qed.

Lemma analyze_loop_raises start force fuel : forall pc s jumps e,
  snd (analyze_loop fuel start pc force s jumps) = Raise e -> e = IndexError.
Proof.
  induction fuel as [|fuel IH]; intros pc s jumps e; cbn [analyze_loop];
    [discriminate|].
  destruct (pc <? len (rom s)); [|discriminate].
  destruct (getitem (rom s) pc) as [code| |] eqn:Hcode;
    [|intros H; injection H as <-; by apply getitem_raises in Hcode|discriminate].
  destruct (catalog !! code) as [instr|]; [|discriminate].
  pose proof (analyze_instr_raises instr pc start force s jumps) as Ha.
  destruct (analyze_instr instr pc start force s jumps) as [[s1 j1] [[next jo]| |]];
    cbn in Ha |- *; [| |discriminate].
  - destruct jo; [discriminate|apply IH].
  - intros H. injection H as <-. by apply Ha.
Qed.

(** A scan call comes to its end for every ROM and every start address, and
    the only exception it can raise is [IndexError]; the queue is then as it
    was. *)
Theorem analyze_jumps_ends order s start queue force :
  snd (analyze_jumps order s start queue force) <> OutOfFuel /\
  forall e, snd (analyze_jumps order s start queue force) = Raise e ->
    e = IndexError /\ (analyze_jumps order s start queue force).1.2 = queue.
Proof.
  split.
  - destruct (analyze_jumps_post (fun _ => True) order s start queue force
                (covers_True _ _)) as (s1 & q1 & r & Heq & _ & Hr & _).
    rewrite Heq. exact Hr.
  - unfold analyze_jumps.
    pose proof (analyze_loop_raises start force (S (Z.to_nat (len (rom s) - start)))
                  start s []) as Hl.
    destruct (analyze_loop _ _ _ _ _ _) as [[s1 j1] [pc|e0|]]; cbn [snd fst] in Hl |- *;
      [discriminate| |discriminate].
    intros e H. injection H as <-. split; [by apply Hl|reflexivity].
Qed.

Lemma catalog_length_le c i : catalog !! c = Some i -> Instruction.length i <= 3.
Proof.
  intros Hc.
  assert (Hall : forallb (fun i => Instruction.length i <=? 3) Instructions.added = true)
    by (vm_compute; reflexivity).
  destruct (catalog_forall _ Hall c i Hc) as [HP _]. lia.
Qed.

Lemma analyze_instr_next instr pc start force s jumps st next jump_out :
  analyze_instr instr pc start force s jumps = (st, Ok (next, jump_out)) ->
  next = pc + Instruction.length instr.
Proof.
  unfold analyze_instr.
  destruct (match truthy_args (Instruction.args instr) with
            | [] => _ | _ :: _ => _ end) as [[[s1 j1] jo1] r].
  destruct r; cbn; try discriminate. intros H. by injection H as _ <- _.
Qed.

Lemma classify_frame start instr pc arg val s jumps jump_out :
  frame s (classify instr pc start arg val (s, jumps, jump_out)).1.1.
Proof.
  unfold classify.
  destruct (bool_decide (arg = LABEL) && negb (val =? pc)); [|apply frame_refl].
  destruct (Instruction.no_jump instr).
  - destruct (dict_mem val (labels s)); cbn; by repeat split.
  - destruct ((pc =? start) && Instruction.jump_out instr);
      destruct (dict_mem val _); cbn; by repeat split.
Qed.

Lemma analyze_loop_range start force fuel : forall pc s jumps st pc',
  analyze_loop fuel start pc force s jumps = (st, Ok pc') ->
  pc <= pc' <= Z.max pc (len (rom s) + 2).
Proof.
  induction fuel as [|fuel IH]; intros pc s jumps st pc'; cbn [analyze_loop];
    [discriminate|].
  destruct (Z.ltb_spec pc (len (rom s))) as [Hlt|Hge];
    [|intros Heq; injection Heq as _ <-; lia].
  destruct (getitem (rom s) pc) as [code| |]; [|discriminate..].
  destruct (catalog !! code) as [instr|] eqn:Hinstr;
    [|intros Heq; injection Heq as _ <-; lia].
  pose proof (catalog_length_pos _ _ Hinstr) as Hpos.
  pose proof (catalog_length_le _ _ Hinstr) as Hle.
  pose proof (analyze_instr_R start frame frame_refl frame_trans
                (classify_frame start) instr pc force s jumps) as Hf.
  destruct (analyze_instr instr pc start force s jumps) as [[s1 j1] [[next jo]| |]] eqn:Ha;
    [|discriminate..].
  apply analyze_instr_next in Ha as ->. cbn [fst] in Hf. destruct Hf as (Hrom & _).
  destruct jo.
  - intros Heq. injection Heq as _ <-. lia.
  - intros Heq. apply IH in Heq. rewrite Hrom in Heq. lia.
Qed.

(** A scan that starts at or past the end of the ROM changes nothing and
    returns its start address; a scan that returns, returns an address from
    its start address up to two bytes past the end of the ROM. *)
Theorem analyze_jumps_range order s start queue force :
  (len (rom s) <= start ->
     analyze_jumps order s start queue force = ((s, queue), Ok start)) /\
  (forall st pc',
     analyze_jumps order s start queue force = (st, Ok pc') ->
     start <= pc' <= Z.max start (len (rom s) + 2)).
Proof.
  split.
  - intros Hge. unfold analyze_jumps. cbn [analyze_loop].
    destruct (Z.ltb_spec start (len (rom s))) as [Hlt|_]; [lia|].
    by rewrite iter_nil, app_nil_r.
  - intros st pc'. unfold analyze_jumps.
    destruct (analyze_loop _ _ _ _ _ _) as [[s1 j1] r] eqn:Hl.
    destruct r as [pc| |]; try discriminate.
    intros H. injection H as _ <-. by apply analyze_loop_range in Hl.
Qed.

End scan_end.

(** ** A jump or call to a routine that does not return *)

Section no_return.
Import CodeAnalyzer.

Lemma classify_jump_out instr pc start arg val s jumps jump_out :
  let st := classify instr pc start arg val (s, jumps, jump_out) in
  no_return_from st.1.1 = no_return_from s /\
  (jump_out = true -> st.2 = true) /\
  (arg = LABEL -> val <> pc -> Instruction.no_jump instr = false ->
   val ∈ no_return_from s -> st.2 = true).
Proof.
  unfold classify.
  destruct (bool_decide (arg = LABEL) && negb (val =? pc)) eqn:Hc.
  2:{ cbn. split; [done|]. split; [done|]. intros -> Hne _ _.
      rewrite bool_decide_eq_true_2 in Hc by done.
      apply Z.eqb_neq in Hne. rewrite Hne in Hc. discriminate. }
  destruct (Instruction.no_jump instr).
  - destruct (dict_mem val (labels s)); cbn; (split; [done|]); (split; [done|]);
      intros; discriminate.
  - destruct ((pc =? start) && Instruction.jump_out instr); cbn [no_return_from set_forwards];
      destruct (bool_decide (val ∈ no_return_from s)) eqn:Hnr;
      destruct (dict_mem val _); cbn; (split; [done|]); (split; [done|]);
      intros _ _ _ Hin; try done;
      apply bool_decide_eq_false in Hnr; by destruct Hnr.
Qed.

Lemma analyze_args_jump_out instr pc start iargs : forall analyzer s jumps jump_out,
  Instruction.no_jump instr = false ->
  (jump_out = true \/
   exists target hint,
     (LABEL, target, hint) ∈ decode_prefix analyzer iargs /\
     target <> pc /\ target ∈ no_return_from s) ->
  (analyze_args instr pc start analyzer iargs (s, jumps, jump_out)).1.2 = true.
Proof.
  induction iargs as [|iarg iargs IH]; intros analyzer s jumps jump_out Hnj Hcase;
    cbn [analyze_args decode_prefix] in *.
  - destruct Hcase as [->|(target & hint & Hin & _)]; [done|inversion Hin].
  - destruct (InstrArgsAnalyzer.next_arg analyzer iarg)
      as [analyzer' [[[[arg val] hint]|]| |]];
      try (destruct Hcase as [->|(target & hint' & Hin & _)]; [done|inversion Hin]).
    destruct (classify_jump_out instr pc start arg val s jumps jump_out)
      as (Hnr & Hkeep & Hset).
    destruct (classify instr pc start arg val (s, jumps, jump_out)) as [[s1 j1] jo1].
    cbn in Hnr, Hkeep, Hset. apply IH; [done|].
    destruct Hcase as [->|(target & hint' & Hin & Hne & Hmem)]; [left; by apply Hkeep|].
    apply elem_of_cons in Hin as [Heq|Hin].
    + injection Heq as <- <- <-. left. by apply Hset.
    + right. exists target, hint'. by rewrite Hnr.
Qed.

(** When an instruction that transfers control (not a pointer load) has all
    its operands decoded and one of them resolves to an address of the
    no-return set other than its own, the scan stops after this instruction,
    also when [force] is true. *)
Theorem no_return_target_stops_the_scan :
  forall s pc start force jumps code instr target hint fuel,
    pc < len (rom s) ->
    getitem (rom s) pc = Ok code ->
    catalog !! code = Some instr ->
    Instruction.no_jump instr = false ->
    snd (decode_all (decoder_at (rom s) (offset s) pc instr)
           (truthy_args (Instruction.args instr))) = Ok true ->
    (LABEL, target, hint) ∈ decode_prefix (decoder_at (rom s) (offset s) pc instr)
                             (truthy_args (Instruction.args instr)) ->
    target <> pc ->
    target ∈ no_return_from s ->
    snd (analyze_loop (S fuel) start pc force s jumps)
    = Ok (pc + Instruction.length instr).
Proof.
  intros s pc start force jumps code instr target hint fuel
    Hpc Hcode Hinstr Hnj Hdec Hin Hne Hmem.
  cbn [analyze_loop]. apply Z.ltb_lt in Hpc. rewrite Hpc, Hcode, Hinstr.
  unfold analyze_instr. unfold decoder_at in Hdec, Hin.
  destruct (truthy_args (Instruction.args instr)) as [|iarg iargs] eqn:Hargs;
    [inversion Hin|].
  pose proof (analyze_args_status instr pc start (iarg :: iargs)
                (InstrArgsAnalyzer.init (rom s) pc (pc + Instruction.length instr) (offset s))
                (s, jumps, Instruction.jump_out instr && negb force)) as Hs.
  pose proof (analyze_args_jump_out instr pc start (iarg :: iargs)
                (InstrArgsAnalyzer.init (rom s) pc (pc + Instruction.length instr) (offset s))
                s jumps (Instruction.jump_out instr && negb force) Hnj) as Hjo.
  rewrite Hdec in Hs.
  destruct (analyze_args _ _ _ _ _ _) as [[[s1 j1] jo1] r].
  cbn [snd fst] in Hs, Hjo. subst r. rewrite Hjo; [reflexivity|].
  right. exists target, hint. split; [exact Hin|]. split; [exact Hne|exact Hmem].
Qed.

Lemma no_return_target_stops_the_scan_witness :
  snd (analyze_loop 1 0 0 true
         (CodeAnalyzer.init two_calls_rom Addresses.init 0 false [5] []) [])
  = Ok (0 + 3).
Proof.
  apply (no_return_target_stops_the_scan
           (CodeAnalyzer.init two_calls_rom Addresses.init 0 false [5] [])
           0 0 true [] 0x12 (Instr 0x12 3 "lcall {0}" [LABEL]) 5 "" 0%nat).
  - vm_compute. reflexivity.
  - vm_compute. reflexivity.
  - vm_compute. reflexivity.
  - reflexivity.
  - vm_compute. reflexivity.
  - vm_compute. left.
  - discriminate.
  - vm_compute. reflexivity.
Defined.

End no_return.

(** ** What the namer does to the symbol table *)

Section namer_footprint.
Import CodeAnalyzer.

Lemma give_auto_label_frame s item :
  let s' := give_auto_label s item in
  rom s' = rom s /\ offset s' = offset s /\ all_is_code s' = all_is_code s /\
  labels s' = labels s /\ forwards s' = forwards s /\
  SFR_warnings s' = SFR_warnings s /\ no_return_from s' = no_return_from s /\
  stdout s' = stdout s /\ stderr s' = stderr s /\
  Addresses.CODE (addresses s') = Addresses.CODE (addresses s) /\
  Addresses.DATA (addresses s') = Addresses.DATA (addresses s) /\
  Addresses.BIT (addresses s') = Addresses.BIT (addresses s).
Proof.
  unfold give_auto_label. destruct item as [a k].
  destruct (Addresses.LABEL (addresses s) !! a); cbn; by repeat split.
Qed.

Lemma give_auto_labels_frame l : forall s,
  let s' := foldl give_auto_label s l in
  rom s' = rom s /\ offset s' = offset s /\ all_is_code s' = all_is_code s /\
  labels s' = labels s /\ forwards s' = forwards s /\
  SFR_warnings s' = SFR_warnings s /\ no_return_from s' = no_return_from s /\
  stdout s' = stdout s /\ stderr s' = stderr s /\
  Addresses.CODE (addresses s') = Addresses.CODE (addresses s) /\
  Addresses.DATA (addresses s') = Addresses.DATA (addresses s) /\
  Addresses.BIT (addresses s') = Addresses.BIT (addresses s).
Proof.
  induction l as [|item l IH]; intros s; cbn [foldl]; [by repeat split|].
  specialize (IH (give_auto_label s item)).
  pose proof (give_auto_label_frame s item) as Hf.
  cbn zeta in IH, Hf |- *.
  destruct IH as (?&?&?&?&?&?&?&?&?&?&?&?), Hf as (?&?&?&?&?&?&?&?&?&?&?&?).
  repeat split; congruence.
Qed.

Lemma give_auto_label_named s a k : is_Some (names s !! a) -> give_auto_label s (a, k) = s.
Proof.
  unfold give_auto_label, names. intros [n Hn]. by rewrite Hn.
Qed.

Lemma foldl_named l : forall s,
  (forall a, a ∈ keys l -> is_Some (names s !! a)) ->
  foldl give_auto_label s l = s.
Proof.
  induction l as [|[a k] l IH]; intros s Hall; cbn [foldl]; [done|].
  rewrite give_auto_label_named.
  - apply IH. intros x Hx. apply Hall. unfold keys. cbn. by right.
  - apply Hall. unfold keys. cbn. left.
Qed.

(** After [give_auto_labels] every address of the label table has a name in
    the [LABEL] scope. *)
Theorem give_auto_labels_names_every_label s a :
  a ∈ keys (labels s) ->
  is_Some (Addresses.LABEL (addresses (give_auto_labels s)) !! a).
Proof. intros Ha. by apply names_given. Qed.

Lemma give_auto_labels_names_every_label_witness :
  is_Some (Addresses.LABEL (addresses chain_named) !! 9).
Proof.
  apply (give_auto_labels_names_every_label
           (scan_calls ascending [(0, false); (3, false); (6, false); (9, false)]
              (CodeAnalyzer.init chain_rom Addresses.init 0 false [] []) []).1 9).
  vm_compute. right. right. left.
Defined.

(** [give_auto_labels] is idempotent: a second pass finds every label named
    and changes nothing. *)
Theorem give_auto_labels_idempotent s :
  give_auto_labels (give_auto_labels s) = give_auto_labels s.
Proof.
  unfold give_auto_labels at 1.
  destruct (give_auto_labels_frame (labels s) s) as (_ & _ & _ & Hl & _).
  fold (give_auto_labels s) in Hl. rewrite Hl.
  apply foldl_named. intros a Ha. by apply names_given.
Qed.

(** [give_auto_labels] writes the [LABEL] scope only, and in it only the
    addresses of the label table that had no name: the analysis tables, the
    ROM, the output and the other three scopes are as they were, and every
    name present before, or at an address outside the label table, is as it
    was. *)
Theorem give_auto_labels_footprint s :
  let s' := give_auto_labels s in
  (rom s' = rom s /\ offset s' = offset s /\ all_is_code s' = all_is_code s /\
   labels s' = labels s /\ forwards s' = forwards s /\
   SFR_warnings s' = SFR_warnings s /\ no_return_from s' = no_return_from s /\
   stdout s' = stdout s /\ stderr s' = stderr s /\
   Addresses.CODE (addresses s') = Addresses.CODE (addresses s) /\
   Addresses.DATA (addresses s') = Addresses.DATA (addresses s) /\
   Addresses.BIT (addresses s') = Addresses.BIT (addresses s)) /\
  forall x,
    (x ∉ keys (labels s)) \/ is_Some (Addresses.LABEL (addresses s) !! x) ->
    Addresses.LABEL (addresses s') !! x = Addresses.LABEL (addresses s) !! x.
Proof.
  intros s'. split; [apply (give_auto_labels_frame (labels s) s)|].
  intros x [Hx|[n Hn]].
  - by apply names_untouched.
  - fold (names s) in Hn. fold (names s). rewrite Hn. by apply names_persist.
Qed.

End namer_footprint.

(** ** What rendering does to the analyzer *)

Section render_facts.
Import CodeAnalyzer.

Lemma renders_refl s : renders s s.
Proof.
  do 7 (split; [reflexivity|]). split; [exists []; by rewrite app_nil_r|].
  exists []. split; [constructor|]. split; [intros v Hv; inversion Hv|].
  split; [|by rewrite app_nil_r].
  cbn. apply set_eq. intros x. rewrite elem_of_union, elem_of_empty. tauto.
Qed.

Lemma renders_trans s1 s2 s3 : renders s1 s2 -> renders s2 s3 -> renders s1 s3.
Proof.
  intros (Hr1 & Ha1 & Ho1 & Hc1 & Hl1 & Hf1 & Hn1 & [out1 Hout1] & w1 & Hnd1 & Hw1 & Hs1 & He1)
         (Hr2 & Ha2 & Ho2 & Hc2 & Hl2 & Hf2 & Hn2 & [out2 Hout2] & w2 & Hnd2 & Hw2 & Hs2 & He2).
  split; [congruence|]. split; [congruence|]. split; [congruence|].
  split; [congruence|]. split; [congruence|]. split; [congruence|].
  split; [congruence|].
  split; [exists (out1 ++ out2); by rewrite Hout2, Hout1, app_assoc|].
  exists (w1 ++ w2). split; [|split; [|split]].
  - apply NoDup_app. split; [exact Hnd1|]. split; [|exact Hnd2].
    intros v Hv1 Hv2. apply Hw2 in Hv2 as [Hnot _]. apply Hnot.
    rewrite Hs1. apply elem_of_union. right. by apply elem_of_list_to_set.
  - intros v Hv. apply elem_of_app in Hv as [Hv|Hv]; [by apply Hw1|].
    apply Hw2 in Hv as (Hnot & Hge & Hd). split; [|split; [exact Hge|]].
    + intros Hin. apply Hnot. rewrite Hs1. apply elem_of_union. by left.
    + by rewrite <- Ha1.
  - rewrite Hs2, Hs1, list_to_set_app_L. by rewrite (assoc_L (∪)).
  - by rewrite He2, He1, fmap_app, app_assoc.
Qed.

Lemma print_renders s line : renders s (print s line).
Proof.
  do 7 (split; [reflexivity|]). split; [by exists [line]|].
  exists []. split; [constructor|]. split; [intros v Hv; inversion Hv|].
  split; [|by rewrite app_nil_r].
  cbn. apply set_eq. intros x. rewrite elem_of_union, elem_of_empty. tauto.
Qed.

(** The text of an operand is always produced: no scope is missing. *)
Lemma render_arg_renders s pc arg val :
  exists s' text, render_arg s pc arg val = (s', Ok text) /\ renders s s'.
Proof.
  unfold render_arg.
  assert (Hbit : exists arg1 val1 suffix,
            reduce_bit s arg val = Ok (arg1, val1, suffix)).
  { unfold reduce_bit. destruct (bool_decide (arg = BIT)) eqn:Harg; [|by eexists _, _, _].
    apply bool_decide_eq_true in Harg. subst arg. cbn.
    destruct (Addresses.BIT (addresses s) !! val); by eexists _, _, _. }
  destruct Hbit as (arg1 & val1 & suffix & ->).
  unfold unknown_SFR.
  destruct (bool_decide (arg1 = DATA)) eqn:Harg; cbn [andb];
    [|eexists _, _; split; [reflexivity|apply renders_refl]].
  apply bool_decide_eq_true in Harg. subst arg1.
  destruct (Z.leb_spec 128 val1) as [Hge|Hlt]; cbn [andb];
    [|eexists _, _; split; [reflexivity|apply renders_refl]].
  destruct (bool_decide (val1 ∈ SFR_warnings s)) eqn:Hin; cbn [negb];
    [eexists _, _; split; [reflexivity|apply renders_refl]|].
  apply bool_decide_eq_false in Hin. cbn.
  destruct (bool_decide (Addresses.DATA (addresses s) !! val1 = None)) eqn:Hd;
    [|eexists _, _; split; [reflexivity|apply renders_refl]].
  apply bool_decide_eq_true in Hd.
  eexists _, _. split; [reflexivity|].
  do 7 (split; [reflexivity|]). split; [exists []; by rewrite app_nil_r|].
  exists [val1]. split; [apply NoDup_singleton|]. split; [|split].
  - intros v Hv. apply list_elem_of_singleton in Hv as ->. by repeat split.
  - cbn. apply set_eq. intros x.
    rewrite !elem_of_union, elem_of_empty. tauto.
  - reflexivity.
Qed.

End render_facts.

(** ** Mnemonic templates *)

Section templates.

Lemma format_other c rest args n :
  c <> "{"%char ->
  format (String c rest) args = option_map (String c) (format rest args) /\
  placeholders_below n (String c rest) = placeholders_below n rest.
Proof.
  intros Hne.
  destruct c as [[] [] [] [] [] [] [] []]; try (split; reflexivity).
  by destruct Hne.
Qed.

Lemma format_brace_other d c rest args n :
  c <> "}"%char ->
  format (String "{" (String d (String c rest))) args
  = option_map (String "{") (format (String d (String c rest)) args) /\
  placeholders_below n (String "{" (String d (String c rest)))
  = placeholders_below n (String d (String c rest)).
Proof.
  intros Hne.
  destruct c as [[] [] [] [] [] [] [] []]; try (split; reflexivity).
  by destruct Hne.
Qed.

Lemma is_Some_option_map {A B} (f : A -> B) (o : option A) :
  is_Some o -> is_Some (option_map f o).
Proof. intros [x ->]. by eexists. Qed.

(** A template whose fields are all below the number of arguments is
    formatted without [IndexError]. *)
Lemma format_below args : forall n template,
  (String.length template <= n)%nat ->
  placeholders_below (length args) template = true ->
  is_Some (format template args).
Proof.
  induction n as [|n IH]; intros template Hlen Hp.
  { destruct template; [by eexists|cbn in Hlen; lia]. }
  destruct template as [|c rest]; [by eexists|].
  cbn [String.length] in Hlen.
  destruct (ascii_dec c "{") as [->|Hne].
  2:{ destruct (format_other c rest args (length args) Hne) as [-> Hpb].
      rewrite Hpb in Hp. apply is_Some_option_map, IH; [lia|exact Hp]. }
  destruct rest as [|d rest]; [by eexists|].
  destruct rest as [|c2 rest].
  { change (is_Some (option_map (String "{") (format (String d EmptyString) args))).
    apply is_Some_option_map, IH; [cbn [String.length] in Hlen |- *; lia|exact Hp]. }
  cbn [String.length] in Hlen.
  destruct (ascii_dec c2 "}") as [->|Hne2].
  2:{ destruct (format_brace_other d c2 rest args (length args) Hne2) as [-> Hpb].
      rewrite Hpb in Hp. apply is_Some_option_map, IH; [cbn [String.length] in Hlen |- *; lia|exact Hp]. }
  change (is_Some
            (if utils.isdigit d then
               match args !! (nat_of_ascii d - 48)%nat, format rest args with
               | Some a, Some r => Some (a +:+ r)
               | _, _ => None
               end
             else option_map (String "{") (format (String d (String "}" rest)) args))).
  change ((if utils.isdigit d then
             (nat_of_ascii d - 48 <? length args)%nat
             && placeholders_below (length args) rest
           else placeholders_below (length args) (String d (String "}" rest))) = true) in Hp.
  destruct (utils.isdigit d).
  - apply andb_true_iff in Hp as [Hidx Hp]. apply Nat.ltb_lt in Hidx.
    destruct (lookup_lt_is_Some_2 args _ Hidx) as [a ->].
    destruct (IH rest) as [r ->]; [lia|exact Hp|]. by eexists.
  - apply is_Some_option_map, IH; [cbn [String.length] in Hlen |- *; lia|exact Hp].
Qed.

Lemma catalog_templates c i :
  catalog !! c = Some i ->
  placeholders_below (length (truthy_args (Instruction.args i)))
    (Instruction.mnemonic i) = true.
Proof.
  intros Hc.
  assert (Hall : forallb
            (fun i => placeholders_below (length (truthy_args (Instruction.args i)))
                        (Instruction.mnemonic i))
            Instructions.added = true) by (vm_compute; reflexivity).
  by destruct (catalog_forall _ Hall c i Hc).
Qed.

(** Every mnemonic template of the catalog is formatted without
    [IndexError] by as many arguments as the instruction has operands. *)
Theorem catalog_templates_format c i args :
  catalog !! c = Some i ->
  length args = length (truthy_args (Instruction.args i)) ->
  is_Some (format (Instruction.mnemonic i) args).
Proof.
  intros Hc Hlen.
  apply (format_below args (String.length (Instruction.mnemonic i))); [lia|].
  rewrite Hlen. exact (catalog_templates c i Hc).
Qed.

Lemma catalog_templates_format_witness :
  is_Some (format "cjne A, #{0}, {1}" ["05h"; "$"]).
Proof.
  apply (catalog_templates_format 0xB4 (Instr 0xB4 3 "cjne A, #{0}, {1}" [IMM; REL])).
  - vm_compute. reflexivity.
  - reflexivity.
Defined.

End templates.

(** ** Rendering an instruction *)

Section render_instruction.
Import CodeAnalyzer.

Lemma decode_all_no_fuel iargs : forall analyzer,
  snd (decode_all analyzer iargs) <> OutOfFuel.
Proof.
  induction iargs as [|iarg iargs IH]; intros analyzer; cbn [decode_all];
    [discriminate|].
  pose proof (next_arg_no_fuel analyzer iarg) as Hn.
  destruct (InstrArgsAnalyzer.next_arg analyzer iarg) as [analyzer' [[v|]| |]];
    cbn [snd] in Hn |- *; [apply IH|discriminate|discriminate|by destruct Hn].
Qed.

Lemma disassemble_args_spec pc iargs : forall analyzer s args hints,
  exists s',
    renders s s' /\
    match snd (decode_all analyzer iargs) with
    | Ok true =>
        exists texts hints',
          length texts = length iargs /\
          disassemble_args pc analyzer iargs s args hints
          = (s', Ok (Some (args ++ texts, hints')))
    | Ok false => disassemble_args pc analyzer iargs s args hints = (s', Ok None)
    | Raise e => disassemble_args pc analyzer iargs s args hints = (s', Raise e)
    | OutOfFuel => disassemble_args pc analyzer iargs s args hints = (s', OutOfFuel)
    end.
Proof.
  induction iargs as [|iarg iargs IH]; intros analyzer s args hints;
    cbn [decode_all disassemble_args].
  - exists s. split; [apply renders_refl|]. exists [], hints.
    split; [reflexivity|]. by rewrite app_nil_r.
  - destruct (InstrArgsAnalyzer.next_arg analyzer iarg)
      as [analyzer' [[[[arg val] hint]|]| |]]; cbn [snd];
      try (exists s; split; [apply renders_refl|reflexivity]).
    destruct (render_arg_renders s pc arg val) as (s1 & text & -> & Hr1).
    destruct (IH analyzer' s1 (args ++ [text]) (hints +:+ hint)) as (s2 & Hr2 & Hres).
    exists s2. split; [by eapply renders_trans|].
    destruct (snd (decode_all analyzer' iargs)) as [[|]|e|]; try exact Hres.
    destruct Hres as (texts & hints' & Hlen & Heq).
    exists (text :: texts), hints'. split; [cbn; by rewrite Hlen|].
    rewrite Heq. by rewrite <- app_assoc.
Qed.

Lemma disassemble_instruction_spec s pc code instr :
  pc < len (rom s) ->
  getitem (rom s) pc = Ok code ->
  catalog !! code = Some instr ->
  exists s',
    renders s s' /\
    match snd (decode_all (decoder_at (rom s) (offset s) pc instr)
                 (truthy_args (Instruction.args instr))) with
    | Ok true =>
        exists text,
          disassemble_instruction s pc
          = (s', Ok (Some (utils.tab +:+ text, Instruction.length instr)))
    | Ok false => disassemble_instruction s pc = (s', Ok None)
    | Raise e => disassemble_instruction s pc = (s', Raise e)
    | OutOfFuel => False
    end.
Proof.
  intros Hpc Hcode Hinstr.
  unfold disassemble_instruction. apply Z.leb_gt in Hpc. rewrite Hpc, Hcode, Hinstr.
  unfold disassemble_operands, decoder_at.
  assert (Hfmt : forall args,
            length args = length (truthy_args (Instruction.args instr)) ->
            is_Some (format (Instruction.mnemonic instr) args)).
  { intros args Hlen.
    apply (format_below args (String.length (Instruction.mnemonic instr))); [lia|].
    rewrite Hlen. exact (catalog_templates code instr Hinstr). }
  destruct (truthy_args (Instruction.args instr)) as [|iarg iargs] eqn:Hargs.
  { exists s. split; [apply renders_refl|]. cbn [decode_all snd]. by eexists. }
  pose proof (decode_all_no_fuel (iarg :: iargs)
                (InstrArgsAnalyzer.init (rom s) pc (pc + Instruction.length instr) (offset s)))
    as Hnf.
  destruct (disassemble_args_spec pc (iarg :: iargs)
              (InstrArgsAnalyzer.init (rom s) pc (pc + Instruction.length instr) (offset s))
              s [] "") as (s' & Hr & Hres).
  exists s'. split; [exact Hr|].
  destruct (snd (decode_all _ (iarg :: iargs))) as [[|]|e|];
    [|by rewrite Hres|by rewrite Hres|by apply Hnf].
  destruct Hres as (texts & hints' & Hlen & ->). cbn [app].
  rewrite bool_decide_eq_false_2 by (intros Hne; by apply Hne).
  destruct (Hfmt texts Hlen) as [result ->].
  by eexists.
Qed.

(** [__disassemble_instruction] at an opcode of the ROM gives the instruction
    with the length of its descriptor exactly when every operand is decoded,
    gives [None] when [next_arg] returns [None] for an operand, and raises
    what the decoder raises; it never fails on its own (no scope is missing,
    no template field is out of range). *)
Theorem disassemble_instruction_decodes s pc code instr :
  pc < len (rom s) ->
  getitem (rom s) pc = Ok code ->
  catalog !! code = Some instr ->
  exists s',
    renders s s' /\
    match snd (decode_all (decoder_at (rom s) (offset s) pc instr)
                 (truthy_args (Instruction.args instr))) with
    | Ok true =>
        exists text,
          disassemble_instruction s pc
          = (s', Ok (Some (utils.tab +:+ text, Instruction.length instr)))
    | Ok false => disassemble_instruction s pc = (s', Ok None)
    | Raise e => disassemble_instruction s pc = (s', Raise e)
    | OutOfFuel => False
    end.
Proof. exact (disassemble_instruction_spec s pc code instr). Qed.

Lemma disassemble_instruction_decodes_witness :
  exists s',
    renders (CodeAnalyzer.init chain_rom Addresses.init 0 false [] []) s' /\
    exists text,
      disassemble_instruction (CodeAnalyzer.init chain_rom Addresses.init 0 false [] []) 3
      = (s', Ok (Some (utils.tab +:+ text, 3))).
Proof.
  apply (disassemble_instruction_decodes
           (CodeAnalyzer.init chain_rom Addresses.init 0 false [] []) 3 0x02
           (InstrOut 0x02 3 "ljmp {0}" (Some [LABEL]))).
  - vm_compute. reflexivity.
  - vm_compute. reflexivity.
  - vm_compute. reflexivity.
Defined.

(** Whatever the address: the state is rendered, a reported length is from 1
    to 3, and the only exception is [IndexError]. *)
Lemma disassemble_instruction_cases s pc :
  exists s' r,
    disassemble_instruction s pc = (s', r) /\ renders s s' /\
    match r with
    | Ok (Some (text, length)) => 1 <= length <= 3
    | Ok None => True
    | Raise e => e = IndexError
    | OutOfFuel => False
    end.
Proof.
  destruct (Z.ltb_spec pc (len (rom s))) as [Hlt|Hge].
  2:{ exists s, (Ok None). unfold disassemble_instruction.
      apply Z.leb_le in Hge. rewrite Hge. split; [reflexivity|].
      split; [apply renders_refl|exact I]. }
  destruct (getitem (rom s) pc) as [code|e|] eqn:Hcode.
  - destruct (catalog !! code) as [instr|] eqn:Hinstr.
    + destruct (disassemble_instruction_spec s pc code instr Hlt Hcode Hinstr)
        as (s' & Hr & Hres).
      pose proof (decode_all_raises (truthy_args (Instruction.args instr))
                    (decoder_at (rom s) (offset s) pc instr)) as Hraise.
      pose proof (catalog_length_pos _ _ Hinstr) as Hpos.
      pose proof (catalog_length_le _ _ Hinstr) as Hle.
      destruct (snd (decode_all _ _)) as [[|]|e|]; [| | |destruct Hres].
      * destruct Hres as [text ->]. eexists _, _. split; [reflexivity|].
        split; [exact Hr|]. lia.
      * rewrite Hres. eexists _, _. split; [reflexivity|]. split; [exact Hr|exact I].
      * rewrite Hres. eexists _, _. split; [reflexivity|]. split; [exact Hr|].
        by apply Hraise.
    + exists s, (Ok None). unfold disassemble_instruction.
      apply Z.leb_gt in Hlt. rewrite Hlt, Hcode, Hinstr.
      split; [reflexivity|]. split; [apply renders_refl|exact I].
  - exists s, (Raise e). unfold disassemble_instruction.
    apply Z.leb_gt in Hlt. rewrite Hlt, Hcode.
    split; [reflexivity|]. split; [apply renders_refl|].
    by apply getitem_raises in Hcode.
  - exfalso. revert Hcode. unfold getitem.
    destruct (_ || _); [discriminate|]. destruct (rom s !! _); discriminate.
Qed.

End render_instruction.

(** ** Rendering a block of code *)

Section render_block.
Import CodeAnalyzer.

Lemma maybe_print_org_label_renders s pc force_org just_started :
  renders s (maybe_print_org_label s pc force_org just_started).1.
Proof.
  unfold maybe_print_org_label.
  assert (Hfirst : forall (p : t * bool), renders s p.1 ->
            renders s
              (let '(self, org) := p in
               match Addresses.LABEL (addresses s) !! pc with
               | Some name => (print self (name +:+ ":"), org)
               | None => (self, org)
               end).1).
  { intros [s1 org] Hr. cbn [fst] in Hr.
    destruct (Addresses.LABEL (addresses s) !! pc); cbn [fst]; [|exact Hr].
    eapply renders_trans; [exact Hr|apply print_renders]. }
  apply Hfirst.
  destruct (Addresses.CODE (addresses s) !! pc); cbn [fst]; [apply print_renders|].
  destruct force_org; cbn [fst]; [apply print_renders|].
  destruct (just_started && _); cbn [fst]; [apply print_renders|apply renders_refl].
Qed.

Lemma disassemble_loop_spec start end_ fuel : forall pc s force_org,
  exists s' r,
    disassemble_loop fuel s start pc end_ force_org = (s', r) /\
    renders s s' /\
    (Z.max 0 (end_ - pc) < Z.of_nat fuel -> r <> OutOfFuel) /\
    (forall e, r = Raise e -> e = IndexError) /\
    (forall pc', r = Ok pc' -> Z.max pc end_ <= pc' <= Z.max pc (end_ + 2)).
Proof.
  induction fuel as [|fuel IH]; intros pc s force_org; cbn [disassemble_loop].
  { eexists _, _. split; [reflexivity|]. split; [apply renders_refl|].
    split; [lia|]. split; [discriminate|discriminate]. }
  destruct (Z.ltb_spec pc end_) as [Hlt|Hge].
  2:{ eexists _, _. split; [reflexivity|]. split; [apply renders_refl|].
      split; [discriminate|]. split; [discriminate|].
      intros pc' Heq. injection Heq as <-. lia. }
  pose proof (maybe_print_org_label_renders s pc force_org (pc =? start)) as Hr0.
  destruct (maybe_print_org_label s pc force_org (pc =? start)) as [s0 org].
  cbn [fst] in Hr0.
  destruct (disassemble_instruction_cases s0 pc) as (s1 & r1 & -> & Hr1 & Hcase).
  destruct r1 as [[[text length]|]|e|]; [| | |destruct Hcase].
  - destruct (IH (pc + length) (print s1 text) (if org then false else force_org))
      as (s2 & r2 & -> & Hr2 & Hfuel & Hexn & Hrange).
    eexists _, _. split; [reflexivity|]. split.
    { eapply renders_trans; [exact Hr0|]. eapply renders_trans; [exact Hr1|].
      eapply renders_trans; [apply print_renders|exact Hr2]. }
    split; [intros Hf; apply Hfuel; lia|]. split; [exact Hexn|].
    intros pc' Heq. apply Hrange in Heq. lia.
  - assert (Hrom : rom s1 = rom s0) by apply Hr1.
    destruct (getitem (rom s1) pc) as [byte|e|] eqn:Hbyte.
    + destruct (IH (pc + 1) (print s1 (utils.binary_byte byte pc))
                  (if org then false else force_org))
        as (s2 & r2 & -> & Hr2 & Hfuel & Hexn & Hrange).
      eexists _, _. split; [reflexivity|]. split.
      { eapply renders_trans; [exact Hr0|]. eapply renders_trans; [exact Hr1|].
        eapply renders_trans; [apply print_renders|exact Hr2]. }
      split; [intros Hf; apply Hfuel; lia|]. split; [exact Hexn|].
      intros pc' Heq. apply Hrange in Heq. lia.
    + eexists _, _. split; [reflexivity|]. split.
      { eapply renders_trans; [exact Hr0|exact Hr1]. }
      split; [discriminate|]. split; [|discriminate].
      intros e' Heq. injection Heq as <-. by apply getitem_raises in Hbyte.
    + exfalso. revert Hbyte. unfold getitem.
      destruct (_ || _); [discriminate|]. destruct (rom s1 !! _); discriminate.
  - subst e. eexists _, _. split; [reflexivity|]. split.
    { eapply renders_trans; [exact Hr0|exact Hr1]. }
    split; [discriminate|]. split; [|discriminate].
    intros e' Heq. by injection Heq as <-.
Qed.

(** [disassemble_code_block] reads the analysis and writes the output only:
    the ROM, the symbol table, the label table, the forwarding table and the
    no-return set are as they were and [stdout] has grown at its end. Each
    unknown SFR it meets that is not yet in the warning set is added to it
    and gets one warning line on [stderr]; nothing else is written there. *)
Theorem disassemble_code_block_renders s start end_ force_org :
  renders s (disassemble_code_block s start end_ force_org).1.
Proof.
  unfold disassemble_code_block.
  destruct (disassemble_loop_spec start end_ (S (Z.to_nat (end_ - start))) start s force_org)
    as (s' & r & -> & Hr & _). exact Hr.
Qed.

(** The warnings are not repeated: the warning set only grows, and the
    number of lines added to [stderr] is the number of addresses added to
    the warning set. *)
Theorem unknown_SFR_warned_once s start end_ force_org :
  let s' := (disassemble_code_block s start end_ force_org).1 in
  SFR_warnings s ⊆ SFR_warnings s' /\
  (length (stderr s') + size (SFR_warnings s)
   = length (stderr s) + size (SFR_warnings s'))%nat.
Proof.
  unfold disassemble_code_block.
  destruct (disassemble_loop_spec start end_ (S (Z.to_nat (end_ - start))) start s force_org)
    as (s' & r & -> & Hr & _). cbn [fst].
  destruct Hr as (_ & _ & _ & _ & _ & _ & _ & _ & warned & Hnd & Hw & Hs & He).
  rewrite Hs, He. split.
  - intros x Hx. apply elem_of_union. by left.
  - rewrite length_app, length_fmap, size_union.
    + rewrite size_list_to_set by exact Hnd. lia.
    + intros x Hx Hx'. apply elem_of_list_to_set in Hx'.
      apply Hw in Hx' as [Hnot _]. by apply Hnot.
Qed.

(** [disassemble_code_block] comes to its end; an empty block prints nothing
    and returns its start; a block that is rendered to its end returns an
    address from [end] to [end + 2]; the only exception is [IndexError]. *)
Theorem disassemble_code_block_ends s start end_ force_org :
  snd (disassemble_code_block s start end_ force_org) <> OutOfFuel /\
  (forall e, snd (disassemble_code_block s start end_ force_org) = Raise e ->
     e = IndexError) /\
  (forall pc', snd (disassemble_code_block s start end_ force_org) = Ok pc' ->
     Z.max start end_ <= pc' <= Z.max start (end_ + 2)) /\
  (end_ <= start -> disassemble_code_block s start end_ force_org = (s, Ok start)).
Proof.
  unfold disassemble_code_block.
  destruct (disassemble_loop_spec start end_ (S (Z.to_nat (end_ - start))) start s force_org)
    as (s' & r & Heq & _ & Hfuel & Hexn & Hrange).
  rewrite Heq. cbn [snd].
  split; [apply Hfuel; lia|]. split; [exact Hexn|]. split; [exact Hrange|].
  intros Hempty. rewrite <- Heq. cbn [disassemble_loop].
  destruct (Z.ltb_spec start end_) as [Hlt|_]; [lia|reflexivity].
Qed.

End render_block.

(** ** Bit addresses *)

Section bit_addresses.
Import CodeAnalyzer.

Lemma forallb_below (P : Z -> bool) (n : Z) :
  forallb P (seqZ 0 n) = true -> forall v, 0 <= v < n -> P v = true.
Proof.
  intros Hall v Hv. rewrite forallb_forall in Hall. apply Hall.
  apply list_elem_of_In, elem_of_seqZ. lia.
Qed.

Lemma bit_arithmetic v :
  0 <= v < 256 ->
  Z.land v 7 = v mod 8 /\
  Z.land v 0xF8 = v - v mod 8 /\
  (v < 128 -> Z.lor 0x20 (Z.shiftr v 3) = 0x20 + v / 8) /\
  utils.fmt_d 0 (Z.land v 7) = String (utils.digit_char (v mod 8)) EmptyString.
Proof.
  intros Hv.
  pose proof (forallb_below
                (fun v => (Z.land v 7 =? v mod 8) && (Z.land v 0xF8 =? v - v mod 8)
                          && ((128 <=? v) || (Z.lor 0x20 (Z.shiftr v 3) =? 0x20 + v / 8))
                          && String.eqb (utils.fmt_d 0 (Z.land v 7))
                               (String (utils.digit_char (v mod 8)) EmptyString))
                256) as Hall.
  specialize (Hall ltac:(vm_compute; reflexivity) v Hv). cbv beta in Hall.
  apply andb_true_iff in Hall as [Hall Hfmt].
  apply andb_true_iff in Hall as [Hall Hram].
  apply andb_true_iff in Hall as [Hbit Hsfr].
  apply Z.eqb_eq in Hbit, Hsfr. apply String.eqb_eq in Hfmt.
  split; [exact Hbit|]. split; [exact Hsfr|]. split; [|exact Hfmt].
  intros Hlow. apply orb_true_iff in Hram as [Hhigh|Hram]; [lia|].
  by apply Z.eqb_eq in Hram.
Qed.

(** A bit address without a name is rendered as a byte address and a bit
    number from which it can be read back: bit [val mod 8] of the SFR
    [val - val mod 8] (80h to F8h) for [val >= 80h], of the RAM byte
    [20h + val / 8] (20h to 2Fh) below. A bit address with a name stays as it
    is. *)
Theorem reduce_bit_decomposes s val :
  0 <= val < 256 ->
  match Addresses.BIT (addresses s) !! val with
  | Some _ => reduce_bit s BIT val = Ok (BIT, val, "")
  | None =>
      exists byte bit,
        reduce_bit s BIT val
        = Ok (DATA, byte, "." +:+ String (utils.digit_char bit) EmptyString) /\
        bit = val mod 8 /\
        byte = (if 0x80 <=? val then val - bit else 0x20 + val / 8) /\
        (if 0x80 <=? val then 0x80 <= byte <= 0xF8 else 0x20 <= byte <= 0x2F) /\
        val = (if 0x80 <=? byte then byte + bit else 8 * (byte - 0x20) + bit)
  end.
Proof.
  intros Hv. unfold reduce_bit. cbn [bool_decide decide_rel].
  rewrite bool_decide_eq_true_2 by reflexivity.
  unfold scope. cbn [ArgType_value Addresses.getitem String.eqb Ascii.eqb Bool.eqb bind].
  destruct (Addresses.BIT (addresses s) !! val); [reflexivity|].
  destruct (bit_arithmetic val Hv) as (Hbit & Hsfr & Hram & Hfmt).
  exists (if 0x80 <=? val then val - val mod 8 else 0x20 + val / 8), (val mod 8).
  rewrite Hfmt, Hsfr.
  destruct (Z.leb_spec 0x80 val) as [Hhigh|Hlow].
  - split; [reflexivity|]. split; [reflexivity|]. split; [reflexivity|].
    assert (Hb : 0x80 <= val - val mod 8 <= 0xF8) by (Z.div_mod_to_equations; lia).
    split; [exact Hb|].
    destruct (Z.leb_spec 0x80 (val - val mod 8)); lia.
  - rewrite Hram by lia.
    split; [reflexivity|]. split; [reflexivity|]. split; [reflexivity|].
    assert (Hb : 0x20 <= 0x20 + val / 8 <= 0x2F) by (Z.div_mod_to_equations; lia).
    split; [exact Hb|].
    destruct (Z.leb_spec 0x80 (0x20 + val / 8)); [lia|].
    Z.div_mod_to_equations; lia.
Qed.

Lemma reduce_bit_decomposes_witness :
  exists byte bit,
    reduce_bit (CodeAnalyzer.init [] Addresses.init 0 false [] []) BIT 0x10
    = Ok (DATA, byte, "." +:+ String (utils.digit_char bit) EmptyString) /\
    bit = 0x10 mod 8 /\
    byte = 0x20 + 0x10 / 8 /\
    0x20 <= byte <= 0x2F /\
    0x10 = (if 0x80 <=? byte then byte + bit else 8 * (byte - 0x20) + bit).
Proof.
  apply (reduce_bit_decomposes (CodeAnalyzer.init [] Addresses.init 0 false [] []) 0x10).
  vm_compute. split; [discriminate|reflexivity].
Defined.

End bit_addresses.

(** ** utils.py: hexadecimal numerals *)

Section hexadecimal.

Lemma append_cons (x : ascii) (a b : string) : String x a +:+ b = String x (a +:+ b).
Proof. reflexivity. Qed.

Lemma append_assoc_string (a b c : string) : (a +:+ b) +:+ c = a +:+ (b +:+ c).
Proof.
  induction a as [|x a IH]; [reflexivity|].
  rewrite !append_cons. f_equal. exact IH.
Qed.

Lemma append_empty_r (a : string) : a +:+ EmptyString = a.
Proof.
  induction a as [|x a IH]; [reflexivity|].
  rewrite append_cons. f_equal. exact IH.
Qed.

Lemma append_cancel_l (p a b : string) : p +:+ a = p +:+ b -> a = b.
Proof.
  induction p as [|x p IH]; intros H; [exact H|].
  rewrite !append_cons in H. injection H as H. exact (IH H).
Qed.

Lemma length_append_string (a b : string) :
  String.length (a +:+ b) = (String.length a + String.length b)%nat.
Proof.
  induction a as [|x a IH]; [reflexivity|].
  rewrite append_cons. cbn [String.length Nat.add]. f_equal. exact IH.
Qed.

Lemma digit_char_value d : 0 <= d < 16 -> digit_value (utils.digit_char d) = Some d.
Proof.
  intros Hd.
  pose proof (forallb_below
                (fun d => match digit_value (utils.digit_char d) with
                          | Some v => v =? d
                          | None => false
                          end) 16 ltac:(vm_compute; reflexivity) d Hd) as Hall.
  cbv beta in Hall. destruct (digit_value (utils.digit_char d)); [|discriminate].
  apply Z.eqb_eq in Hall. by subst.
Qed.

Lemma read_hex_digits_stop v rest :
  no_digit_ahead rest -> read_hex_digits v rest = (v, rest).
Proof.
  destruct rest as [|c rest]; cbn [no_digit_ahead read_hex_digits]; [reflexivity|].
  intros ->. reflexivity.
Qed.

Lemma read_hex_unsigned c s :
  c <> "-"%char -> read_hex (String c s) = read_hex_digits 0 (String c s).
Proof.
  intros Hc. unfold read_hex.
  destruct c as [[] [] [] [] [] [] [] []]; try reflexivity. by destruct Hc.
Qed.

(** The digits [digits_aux] puts before [acc] denote [n]. *)
Lemma digits_aux_value fuel : forall n acc,
  0 <= n < 16 ^ Z.of_nat (S fuel) ->
  exists ds,
    utils.digits_aux 16 (S fuel) n acc = ds +:+ acc /\
    (0 < String.length ds)%nat /\
    forall v rest,
      read_hex_digits v (ds +:+ rest)
      = read_hex_digits (v * 16 ^ Z.of_nat (String.length ds) + n) rest.
Proof.
  induction fuel as [|fuel IH]; intros n acc Hn.
  all: assert (Hmod : 0 <= n mod 16 < 16) by (apply Z.mod_pos_bound; lia).
  all: cbn [utils.digits_aux].
  all: destruct (Z.eqb_spec (n / 16) 0) as [Hq|Hq].
  1, 3: exists (String (utils.digit_char (n mod 16)) EmptyString);
    (split; [reflexivity|]); (split; [cbn; lia|]);
    intros v rest; rewrite append_cons; cbn [read_hex_digits String.length];
    change (EmptyString +:+ rest) with rest;
    rewrite digit_char_value by exact Hmod;
    f_equal; change (16 ^ Z.of_nat 1) with 16;
    pose proof (Z.div_mod n 16); lia.
  - exfalso. change (16 ^ Z.of_nat 1) with 16 in Hn.
    apply Hq. apply Z.div_small. exact Hn.
  - destruct (IH (n / 16) (String (utils.digit_char (n mod 16)) acc))
      as (ds & Heq & Hlen & Hval).
    { rewrite (Nat2Z.inj_succ (S fuel)), Z.pow_succ_r in Hn by lia.
      split; [apply Z.div_pos; lia|]. apply Z.div_lt_upper_bound; lia. }
    exists (ds +:+ String (utils.digit_char (n mod 16)) EmptyString).
    split.
    { change (utils.digits_aux 16 (S fuel) (n / 16)
                (String (utils.digit_char (n mod 16)) acc)
              = (ds +:+ String (utils.digit_char (n mod 16)) EmptyString) +:+ acc).
      rewrite Heq, append_assoc_string. reflexivity. }
    split; [rewrite length_append_string; lia|].
    intros v rest. rewrite append_assoc_string, append_cons.
    change (EmptyString +:+ rest) with rest.
    rewrite Hval. cbn [read_hex_digits].
    rewrite digit_char_value by exact Hmod. f_equal.
    rewrite length_append_string. cbn [String.length].
    replace (Z.of_nat (String.length ds + 1)) with (Z.succ (Z.of_nat (String.length ds)))
      by lia.
    rewrite Z.pow_succ_r by lia.
    pose proof (Z.div_mod n 16). lia.
Qed.

Lemma digits_value n :
  0 <= n ->
  (0 < String.length (utils.digits 16 n))%nat /\
  forall v rest,
    read_hex_digits v (utils.digits 16 n +:+ rest)
    = read_hex_digits (v * 16 ^ Z.of_nat (String.length (utils.digits 16 n)) + n) rest.
Proof.
  intros Hn. unfold utils.digits.
  destruct (digits_aux_value (Z.to_nat (Z.log2 n)) n EmptyString)
    as (ds & Heq & Hlen & Hval).
  { split; [exact Hn|].
    destruct (Z.eq_dec n 0) as [->|Hne]; [by cbn|].
    pose proof (Z.log2_spec n ltac:(lia)) as [_ Hup].
    pose proof (Z.log2_nonneg n) as Hlog.
    rewrite Nat2Z.inj_succ, Z2Nat.id by exact Hlog.
    eapply Z.lt_le_trans; [exact Hup|].
    apply Z.pow_le_mono_l. lia. }
  rewrite Heq, append_empty_r. split; [exact Hlen|exact Hval].
Qed.

Lemma zeros_value k s :
  read_hex_digits 0 (utils.replicate_char k "0" +:+ s) = read_hex_digits 0 s.
Proof.
  induction k as [|k IH]; [reflexivity|].
  cbn [utils.replicate_char]. rewrite append_cons. exact IH.
Qed.

Lemma padded_digits_value k n rest :
  0 <= n -> no_digit_ahead rest ->
  read_hex_digits 0 ((utils.replicate_char k "0" +:+ utils.digits 16 n) +:+ rest)
  = (n, rest).
Proof.
  intros Hn Hrest. destruct (digits_value n Hn) as [_ Hval].
  rewrite append_assoc_string, zeros_value, Hval, read_hex_digits_stop by exact Hrest.
  f_equal; lia.
Qed.

(** A number that is not negative is printed without a sign and begins with
    a digit. *)
Lemma fmt_X_head width x :
  0 <= x ->
  exists c s, utils.fmt_X width x = String c s /\ digit_value c <> None.
Proof.
  intros Hx. unfold utils.fmt_X, utils.fmt_int.
  destruct (Z.ltb_spec x 0) as [Hneg|_]; [lia|].
  unfold utils.pad_left. rewrite Z.abs_eq by exact Hx.
  destruct (digits_value x Hx) as [Hlen Hval].
  destruct (width - String.length (utils.digits 16 x))%nat as [|k].
  - change (utils.replicate_char 0 "0" +:+ ?s) with s.
    destruct (utils.digits 16 x) as [|c s]; [cbn in Hlen; lia|].
    exists c, s. split; [reflexivity|]. intros Hc.
    specialize (Hval 0 EmptyString). rewrite append_cons in Hval.
    cbn [read_hex_digits] in Hval. rewrite Hc in Hval. discriminate Hval.
  - cbn [utils.replicate_char]. rewrite append_cons. eexists _, _.
    split; [reflexivity|]. discriminate.
Qed.

Lemma fmt_X_nonneg_value width x rest :
  0 <= x -> no_digit_ahead rest ->
  read_hex_digits 0 (utils.fmt_X width x +:+ rest) = (x, rest).
Proof.
  intros Hx Hrest. unfold utils.fmt_X, utils.fmt_int.
  destruct (Z.ltb_spec x 0) as [Hneg|_]; [lia|].
  unfold utils.pad_left. rewrite Z.abs_eq by exact Hx.
  by apply padded_digits_value.
Qed.

(** A number printed by [%0wX] is read back as the same number, whatever the
    width and the sign, and the reading stops where the numeral ends. *)
Lemma fmt_X_reads_back width x rest :
  no_digit_ahead rest -> read_hex (utils.fmt_X width x +:+ rest) = (x, rest).
Proof.
  intros Hrest. destruct (Z.ltb_spec x 0) as [Hneg|Hpos].
  - unfold utils.fmt_X, utils.fmt_int.
    apply Z.ltb_lt in Hneg as Hlt. rewrite Hlt. rewrite append_cons.
    change (read_hex (String "-" ?s))
      with (let '(v, rest) := read_hex_digits 0 s in (- v, rest)).
    unfold utils.pad_left.
    rewrite padded_digits_value by (exact Hrest || lia). f_equal; lia.
  - pose proof (fmt_X_nonneg_value width x rest Hpos Hrest) as Hval.
    destruct (fmt_X_head width x Hpos) as (c & s & Heq & Hc).
    rewrite Heq in Hval |- *. rewrite append_cons in Hval |- *.
    rewrite read_hex_unsigned; [exact Hval|]. intros ->. by apply Hc.
Qed.

(** [int2hex] of a number that is not negative is a literal an assembler
    takes: it begins with a decimal digit, and it reads as the number
    followed by the letter [h]. *)
Theorem int2hex_reads_back x :
  0 <= x ->
  (exists c s, utils.int2hex x = String c s /\ utils.isdigit c = true) /\
  read_hex (utils.int2hex x) = (x, "h"%string).
Proof.
  intros Hx. unfold utils.int2hex.
  assert (Hh : no_digit_ahead "h") by reflexivity.
  pose proof (fmt_X_reads_back 2 x "h" Hh) as Hsigned.
  pose proof (fmt_X_nonneg_value 2 x "h" Hx Hh) as Hval.
  destruct (fmt_X_head 2 x Hx) as (c & s & Heq & _).
  rewrite Heq in Hsigned, Hval |- *. rewrite append_cons in Hsigned, Hval |- *.
  destruct (utils.isdigit c) eqn:Hc.
  - split; [by exists c, (s +:+ "h")|exact Hsigned].
  - split; [by eexists _, _|].
    rewrite read_hex_unsigned by discriminate.
    change (read_hex_digits 0 (String "0" ?t)) with (read_hex_digits 0 t).
    exact Hval.
Qed.

Lemma int2hex_reads_back_witness :
  (exists c s, utils.int2hex 171 = String c s /\ utils.isdigit c = true) /\
  read_hex (utils.int2hex 171) = (171, "h"%string).
Proof. apply (int2hex_reads_back 171). lia. Defined.

Lemma auto_label_eq j a j' a' :
  utils.auto_label (LabelType.value j) a = utils.auto_label (LabelType.value j') a' ->
  j = j' /\ a = a'.
Proof.
  intros Heq. unfold utils.auto_label in Heq.
  assert (Hj : j = j').
  { destruct j, j'; try reflexivity; cbv [LabelType.value String.append] in Heq;
      discriminate Heq. }
  subst j'. split; [reflexivity|].
  apply append_cancel_l, append_cancel_l in Heq.
  pose proof (fmt_X_reads_back 4 a EmptyString I) as Ha.
  pose proof (fmt_X_reads_back 4 a' EmptyString I) as Ha'.
  rewrite append_empty_r in Ha, Ha'. congruence.
Qed.

(** [auto_label] gives two labels the same name only when they have the same
    kind and the same address. *)
Theorem auto_label_injective j a j' a' :
  (j, a) <> (j', a') ->
  utils.auto_label (LabelType.value j) a <> utils.auto_label (LabelType.value j') a'.
Proof.
  intros Hne Heq. apply Hne. apply auto_label_eq in Heq as [-> ->]. reflexivity.
Qed.

Lemma auto_label_injective_witness :
  utils.auto_label (LabelType.value LabelType.JUMP) 16
  <> utils.auto_label (LabelType.value LabelType.DPTR) 16.
Proof. apply (auto_label_injective LabelType.JUMP 16 LabelType.DPTR 16). discriminate. Defined.

End hexadecimal.

(** ** The names the namer makes *)

Section namer_names.
Import CodeAnalyzer.

(** The name made for an address tells the address, whatever the tables
    hold. *)
Lemma auto_name_address s a k s' a' k' : auto_name s a k = auto_name s' a' k' -> a = a'.
Proof.
  unfold auto_name. intros Heq.
  destruct (forwards s !! a) as [fwd|], (forwards s' !! a') as [fwd'|].
  - rewrite !append_assoc_string in Heq. apply append_cancel_l in Heq.
    apply (f_equal read_hex) in Heq.
    rewrite !fmt_X_reads_back in Heq by reflexivity. congruence.
  - exfalso. rewrite !append_assoc_string in Heq. unfold utils.auto_label in Heq.
    destruct k'; cbv [LabelType.value String.append] in Heq; discriminate Heq.
  - exfalso. rewrite !append_assoc_string in Heq. unfold utils.auto_label in Heq.
    destruct k; cbv [LabelType.value String.append] in Heq; discriminate Heq.
  - by apply auto_label_eq in Heq as [_ ->].
Qed.

Lemma names_made l : forall s a,
  a ∈ keys l -> names s !! a = None ->
  exists s0 k, names (foldl give_auto_label s l) !! a = Some (auto_name s0 a k).
Proof.
  induction l as [|[b k] l IH]; cbn [foldl]; intros s a Ha Hnone; [inversion Ha|].
  unfold keys in Ha. cbn [fmap list_fmap fst] in Ha.
  destruct (decide (b = a)) as [->|Hne].
  - exists s, k. apply names_persist. rewrite give_auto_label_names, Hnone.
    rewrite decide_True by reflexivity. reflexivity.
  - apply elem_of_cons in Ha as [->|Ha]; [by destruct Hne|].
    apply IH; [exact Ha|]. rewrite give_auto_label_names.
    destruct (names s !! b); [exact Hnone|].
    rewrite decide_False by exact Hne. exact Hnone.
Qed.

(** [give_auto_labels] gives different names to different addresses: two
    entries of the label table that had no name do not get the same one. *)
Theorem give_auto_labels_names_distinct s a a' :
  a ∈ keys (labels s) -> a' ∈ keys (labels s) ->
  Addresses.LABEL (addresses s) !! a = None ->
  Addresses.LABEL (addresses s) !! a' = None ->
  a <> a' ->
  Addresses.LABEL (addresses (give_auto_labels s)) !! a
  <> Addresses.LABEL (addresses (give_auto_labels s)) !! a'.
Proof.
  intros Ha Ha' Hnone Hnone' Hne Heq.
  destruct (names_made (labels s) s a Ha Hnone) as (s0 & k & Hn).
  destruct (names_made (labels s) s a' Ha' Hnone') as (s0' & k' & Hn').
  unfold names, give_auto_labels in *. rewrite Hn, Hn' in Heq.
  injection Heq as Heq. by apply auto_name_address in Heq.
Qed.

Lemma give_auto_labels_names_distinct_witness :
  Addresses.LABEL (addresses chain_named) !! 3
  <> Addresses.LABEL (addresses chain_named) !! 6.
Proof.
  apply (give_auto_labels_names_distinct
           (scan_calls ascending [(0, false); (3, false); (6, false); (9, false)]
              (CodeAnalyzer.init chain_rom Addresses.init 0 false [] []) []).1 3 6).
  - vm_compute. left.
  - vm_compute. right. left.
  - vm_compute. reflexivity.
  - vm_compute. reflexivity.
  - discriminate.
Defined.

End namer_names.

(** ** Dumping a block of data *)

Section dump_facts.
Import CodeAnalyzer.

Lemma getitem_cases rom i :
  (exists v, getitem rom i = Ok v) \/ getitem rom i = Raise IndexError.
Proof.
  unfold getitem. destruct (_ || _); [by right|].
  destruct (rom !! _); [left; by eexists|by right].
Qed.

Lemma getitem_inside rom i : 0 <= i < len rom -> exists v, getitem rom i = Ok v.
Proof.
  intros Hi. unfold getitem.
  destruct (Z.ltb_spec i 0) as [Hneg|_]; [lia|].
  destruct (Z.ltb_spec i 0) as [Hneg|_]; [lia|].
  destruct (Z.leb_spec (len rom) i) as [Hge|_]; [lia|]. cbn [orb].
  destruct (lookup_lt_is_Some_2 rom (Z.to_nat i)) as [b Hb]; [unfold len in Hi; lia|].
  rewrite Hb. by eexists.
Qed.

Lemma foldl_print_fields lines : forall s,
  rom (foldl print s lines) = rom s /\ labels (foldl print s lines) = labels s /\
  stdout (foldl print s lines) = stdout s ++ lines.
Proof.
  induction lines as [|l lines IH]; intros s; cbn [foldl].
  - by rewrite app_nil_r.
  - destruct (IH (print s l)) as (Hr & Hl & Ho). rewrite Hr, Hl, Ho.
    cbn [print rom labels stdout]. by rewrite <- app_assoc.
Qed.

Lemma maybe_print_org_label_prints s pc force_org just_started :
  exists lines, (maybe_print_org_label s pc force_org just_started).1 = foldl print s lines.
Proof.
  unfold maybe_print_org_label.
  assert (Hfirst : forall (p : t * bool), (exists lines, p.1 = foldl print s lines) ->
            exists lines,
              (let '(self, org) := p in
               match Addresses.LABEL (addresses s) !! pc with
               | Some name => (print self (name +:+ ":"), org)
               | None => (self, org)
               end).1 = foldl print s lines).
  { intros [s1 org] [lines Hl]. cbn [fst] in Hl. subst s1.
    destruct (Addresses.LABEL (addresses s) !! pc) as [name|]; cbn [fst].
    - exists (lines ++ [name +:+ ":"]). by rewrite foldl_app.
    - by exists lines. }
  apply Hfirst.
  destruct (Addresses.CODE (addresses s) !! pc); cbn [fst]; [by eexists [_]|].
  destruct force_org; cbn [fst]; [by eexists [_]|].
  destruct (just_started && _); cbn [fst]; [by eexists [_]|by exists []].
Qed.

Lemma dump_item_cases s pc end_ :
  match dump_item s pc end_ with
  | Ok (res, length) =>
      (length = 1 \/ (length = 2 /\ pc + 1 < end_)) /\
      (truthy res = true -> exists line, res = Some line)
  | Raise e => e = IndexError
  | OutOfFuel => False
  end.
Proof.
  unfold dump_item.
  destruct (Z.ltb_spec (pc + 1) end_) as [Hlt|Hge]; cbn [andb].
  - destruct (dict_mem pc (labels s) && bool_decide _).
    + destruct (getitem_cases (rom s) pc) as [[hi ->]| ->]; cbn [bind]; [|reflexivity].
      destruct (getitem_cases (rom s) (pc + 1)) as [[lo ->]| ->]; cbn [bind];
        [|reflexivity].
      split; [right; split; [reflexivity|exact Hlt]|]. intros _. by eexists.
    + destruct (getitem_cases (rom s) pc) as [[b Hb]| ->]; cbn [bind]; [|reflexivity].
      rewrite Hb. cbn [bind]. destruct (negb (b =? 255)).
      * cbn [bind]. split; [by left|]. intros _. by eexists.
      * split; [by left|]. discriminate.
  - destruct (getitem_cases (rom s) pc) as [[b Hb]| ->]; cbn [bind]; [|reflexivity].
    rewrite Hb. cbn [bind]. destruct (negb (b =? 255)).
    + cbn [bind]. split; [by left|]. intros _. by eexists.
    + split; [by left|]. discriminate.
Qed.

Lemma dump_item_inside s pc end_ :
  0 <= pc < end_ -> end_ <= len (rom s) ->
  exists res length, dump_item s pc end_ = Ok (res, length).
Proof.
  intros Hpc Hend. unfold dump_item.
  destruct (getitem_inside (rom s) pc) as [b Hb]; [lia|].
  destruct (Z.ltb_spec (pc + 1) end_) as [Hlt|Hge]; cbn [andb].
  - destruct (getitem_inside (rom s) (pc + 1)) as [lo Hlo]; [lia|].
    destruct (dict_mem pc (labels s) && bool_decide _).
    + rewrite Hb. cbn [bind]. rewrite Hlo. cbn [bind]. by eexists _, _.
    + rewrite Hb. cbn [bind]. destruct (negb (b =? 255)); cbn [bind];
        by eexists _, _.
  - rewrite Hb. cbn [bind]. destruct (negb (b =? 255)); cbn [bind];
      by eexists _, _.
Qed.

Lemma dump_loop_spec start end_ fuel : forall pc done_to s force_org,
  exists s' r lines,
    dump_loop fuel s start pc done_to end_ force_org = (s', r) /\
    s' = foldl print s lines /\
    (forall d, r = Ok d -> d <> done_to -> lines <> []) /\
    (Z.max 0 (end_ - pc) < Z.of_nat fuel -> r <> OutOfFuel) /\
    (forall e, r = Raise e -> e = IndexError) /\
    (forall d, r = Ok d -> d = done_to \/ pc < d <= end_) /\
    (0 <= pc -> end_ <= len (rom s) -> Z.max 0 (end_ - pc) < Z.of_nat fuel ->
     exists d, r = Ok d).
Proof.
  induction fuel as [|fuel IH]; intros pc done_to s force_org; cbn [dump_loop].
  { exists s, OutOfFuel, []. split; [reflexivity|]. split; [reflexivity|].
    split; [discriminate|]. split; [lia|]. split; [discriminate|].
    split; [discriminate|]. lia. }
  destruct (Z.ltb_spec pc end_) as [Hlt|Hge].
  2:{ exists s, (Ok done_to), []. split; [reflexivity|]. split; [reflexivity|].
      split; [intros d [= <-] Hd; by destruct Hd|]. split; [discriminate|].
      split; [discriminate|]. split; [intros d [= <-]; by left|].
      intros _ _ _. by eexists. }
  pose proof (dump_item_cases s pc end_) as Hcases.
  pose proof (dump_item_inside s pc end_) as Hinside.
  destruct (dump_item s pc end_) as [[res length]|e|]; [| |destruct Hcases].
  2:{ subst e. exists s, (Raise IndexError), []. split; [reflexivity|].
      split; [reflexivity|]. split; [discriminate|]. split; [discriminate|].
      split; [by intros e [= <-]|]. split; [discriminate|].
      intros Hpc Hend _. destruct Hinside as (? & ? & Habs); [lia|exact Hend|].
      discriminate Habs. }
  destruct Hcases as [Hlen Htruthy]. clear Hinside.
  assert (H1 : exists lines1,
            (if truthy res || dict_mem pc (labels s)
             then let '(self, org) :=
                    maybe_print_org_label s pc (force_org || negb (pc =? done_to))
                      (pc =? start) in
                  (self, if org then false else force_org)
             else (s, force_org)).1 = foldl print s lines1).
  { destruct (truthy res || dict_mem pc (labels s)); [|by exists []].
    destruct (maybe_print_org_label_prints s pc (force_org || negb (pc =? done_to))
                (pc =? start)) as [lines1 Hl].
    destruct (maybe_print_org_label _ _ _ _) as [s1 org]. by exists lines1. }
  destruct (if truthy res || dict_mem pc (labels s) then _ else _) as [s1 f1].
  destruct H1 as [lines1 H1]. cbn [fst] in H1.
  assert (H2 : exists lines2,
            (match res with
             | Some line =>
                 if truthy res then (print s1 line, pc + length) else (s1, done_to)
             | None => (s1, done_to)
             end).1 = foldl print s1 lines2 /\
            ((lines2 = [] /\
              (match res with
               | Some line =>
                   if truthy res then (print s1 line, pc + length) else (s1, done_to)
               | None => (s1, done_to)
               end).2 = done_to) \/
             (lines2 <> [] /\
              (match res with
               | Some line =>
                   if truthy res then (print s1 line, pc + length) else (s1, done_to)
               | None => (s1, done_to)
               end).2 = pc + length))).
  { destruct res as [line|]; [|exists []; split; [reflexivity|by left]].
    destruct (truthy (Some line)); [|exists []; split; [reflexivity|by left]].
    exists [line]. split; [reflexivity|]. right. split; [discriminate|reflexivity]. }
  destruct (match res with Some _ => _ | None => _ end) as [s2 d2].
  destruct H2 as (lines2 & H2 & Hd2). cbn [fst snd] in H2, Hd2.
  destruct (IH (pc + length) d2 s2 f1)
    as (s' & r & lines3 & -> & Hs' & Hnonempty & Hfuel & Hexn & Hrange & Hok).
  assert (Hs2 : s2 = foldl print s (lines1 ++ lines2)).
  { rewrite H2, H1. by rewrite foldl_app. }
  exists s', r, ((lines1 ++ lines2) ++ lines3). split; [reflexivity|].
  split; [rewrite Hs', Hs2; symmetry; apply foldl_app|].
  split.
  { intros d Hr Hd Hnil.
    apply app_eq_nil in Hnil as [Hnil ->]. apply app_eq_nil in Hnil as [-> ->].
    destruct Hd2 as [[_ ->]|[Habs _]]; [|by destruct Habs].
    by apply (Hnonempty d Hr Hd). }
  split; [intros Hf; apply Hfuel; lia|]. split; [exact Hexn|].
  split.
  { intros d Hr. destruct (Hrange d Hr) as [->|Hin]; [|right; lia].
    destruct Hd2 as [[_ ->]|[_ ->]]; [by left|right; lia]. }
  intros Hpc Hend Hf. apply Hok; [lia| |lia].
  rewrite Hs2. by rewrite (proj1 (foldl_print_fields _ s)).
Qed.

(** [dump_binary_block] prints lines on [stdout] and does nothing else to
    the analyzer. *)
Theorem dump_binary_block_prints_only s start end_ force_org :
  exists lines, (dump_binary_block s start end_ force_org).1 = foldl print s lines.
Proof.
  unfold dump_binary_block.
  destruct (dump_loop_spec start end_ (S (Z.to_nat (end_ - start))) start start s force_org)
    as (s' & r & lines & -> & Hs & _). by exists lines.
Qed.

(** [dump_binary_block] comes to its end; the only exception is
    [IndexError]; the address it returns lies from [start] to [end], and it
    is [start] unless something was printed. *)
Theorem dump_binary_block_ends s start end_ force_org :
  snd (dump_binary_block s start end_ force_org) <> OutOfFuel /\
  (forall e, snd (dump_binary_block s start end_ force_org) = Raise e ->
     e = IndexError) /\
  (forall d, snd (dump_binary_block s start end_ force_org) = Ok d ->
     start <= d <= Z.max start end_ /\
     (d <> start -> stdout (dump_binary_block s start end_ force_org).1 <> stdout s)).
Proof.
  unfold dump_binary_block.
  destruct (dump_loop_spec start end_ (S (Z.to_nat (end_ - start))) start start s force_org)
    as (s' & r & lines & -> & Hs & Hnonempty & Hfuel & Hexn & Hrange & _).
  cbn [fst snd]. split; [apply Hfuel; lia|]. split; [exact Hexn|].
  intros d Hr. split; [destruct (Hrange d Hr); lia|].
  intros Hd Hout. apply (Hnonempty d Hr Hd).
  rewrite Hs in Hout. rewrite (proj2 (proj2 (foldl_print_fields lines s))) in Hout.
  apply (f_equal length) in Hout. rewrite length_app in Hout.
  destruct lines; [reflexivity|cbn in Hout; lia].
Qed.

(** A block that lies inside the ROM is dumped without an exception. *)
Theorem dump_binary_block_inside_rom s start end_ force_org :
  0 <= start -> end_ <= len (rom s) ->
  exists d, snd (dump_binary_block s start end_ force_org) = Ok d.
Proof.
  intros Hstart Hend. unfold dump_binary_block.
  destruct (dump_loop_spec start end_ (S (Z.to_nat (end_ - start))) start start s force_org)
    as (s' & r & lines & -> & _ & _ & _ & _ & _ & Hok).
  cbn [snd]. apply Hok; [exact Hstart|exact Hend|lia].
Qed.

Lemma dump_binary_block_inside_rom_witness :
  exists d,
    snd (dump_binary_block (init data_rom Addresses.init 0 false [] []) 0 3 false) = Ok d.
Proof.
  apply (dump_binary_block_inside_rom (init data_rom Addresses.init 0 false [] []) 0 3 false).
  - lia.
  - vm_compute. discriminate.
Defined.

Lemma dump_loop_erased s start end_ fuel : forall pc done_to force_org,
  (forall p, pc <= p < end_ ->
     getitem (rom s) p = Ok 0xff /\ dict_mem p (labels s) = false) ->
  Z.max 0 (end_ - pc) < Z.of_nat fuel ->
  dump_loop fuel s start pc done_to end_ force_org = (s, Ok done_to).
Proof.
  induction fuel as [|fuel IH]; intros pc done_to force_org Hall Hfuel; [lia|].
  cbn [dump_loop]. destruct (Z.ltb_spec pc end_) as [Hlt|Hge]; [|reflexivity].
  destruct (Hall pc ltac:(lia)) as [Hb Hl].
  unfold dump_item. rewrite Hl, andb_false_r. cbn [andb]. rewrite Hb. cbn [bind].
  change (negb (255 =? 255)) with false. cbn [truthy orb].
  apply IH; [|lia]. intros p Hp. apply Hall. lia.
Qed.

(** Erased memory is not dumped: a block of bytes [0xff] without labels
    prints nothing and gives back its start. *)
Theorem dump_binary_block_skips_erased s start end_ force_org :
  (forall p, start <= p < end_ ->
     getitem (rom s) p = Ok 0xff /\ dict_mem p (labels s) = false) ->
  dump_binary_block s start end_ force_org = (s, Ok start).
Proof.
  intros Hall. unfold dump_binary_block. apply dump_loop_erased; [exact Hall|lia].
Qed.

Lemma dump_binary_block_skips_erased_witness :
  dump_binary_block (init erased_rom Addresses.init 0 false [] []) 0 3 true
  = (init erased_rom Addresses.init 0 false [] [], Ok 0).
Proof.
  apply (dump_binary_block_skips_erased (init erased_rom Addresses.init 0 false [] []) 0 3 true).
  intros p Hp.
  assert (Hcases : p = 0 \/ p = 1 \/ p = 2) by lia.
  destruct Hcases as [->|[->| ->]]; split; reflexivity.
Defined.

End dump_facts.
